(** * microBlooM: discharge haematocrit (Pries 1990) and the iterative routine

    A shallow embedding of
    - [source/bloodflowmodel/discharge_haematocrit.py]
      (class [DischargeHaematocritPries1990]) and
    - [source/bloodflowmodel/iterative.py]
      (class [IterativeRoutineMultipleIteration]),
    with the properties their specification states.

    Numbers.  The Python code computes on IEEE doubles.  Here a float is a
    real number ([R]) and the arithmetic is exact.  Where the float
    computation would leave the reals (a division by zero, the logarithm of a
    number that is not positive) the model raises, see [exn].  Rounding,
    overflow, infinities and NaN are outside the model. *)

From Stdlib Require Import Reals Lra Psatz Lia List Bool Arith PeanoNat.
From Stdlib Require Import Sorted Permutation.
Import ListNotations.

Open Scope R_scope.

(** ** Results of fallible code *)

(** The ways in which the modelled code stops other than by returning.
    [SystemExit] is [sys.exit()].  [ZeroDivisionError] stands for a division
    by zero (with numpy scalars the float result is inf or nan instead).  The
    others are the Python exceptions of the same name. *)
Inductive exn : Set :=
| SystemExit
| ZeroDivisionError
| ValueError
| TypeError
| UnboundLocalError
| IndexError.

Inductive result (A : Type) : Type :=
| Ok (a : A)
| Raise (e : exn).

Arguments Ok {A} a.
Arguments Raise {A} e.

Definition bind {A B : Type} (c : result A) (k : A -> result B) : result B :=
  match c with
  | Ok a => k a
  | Raise e => Raise e
  end.

Notation "x <- c ;; k" := (bind c (fun x => k))
  (at level 61, c at next level, right associativity).
Notation "' p <- c ;; k" := (bind c (fun x => let p := x in k))
  (at level 61, p pattern, c at next level, right associativity).

(** ** Comparisons of floats, as booleans *)

Definition Rle_b (x y : R) : bool := if Rle_dec x y then true else false.
Definition Rlt_b (x y : R) : bool := if Rlt_dec x y then true else false.
Definition Req_b (x y : R) : bool := if Req_dec_T x y then true else false.

Declare Scope float_scope.
Delimit Scope float_scope with float.
Notation "x <=? y" := (Rle_b x y) (at level 70, no associativity) : float_scope.
Notation "x <? y" := (Rlt_b x y) (at level 70, no associativity) : float_scope.
Notation "x >=? y" := (Rle_b y x) (at level 70, no associativity) : float_scope.
Notation "x >? y" := (Rlt_b y x) (at level 70, no associativity) : float_scope.
Notation "x =? y" := (Req_b x y) (at level 70, no associativity) : float_scope.
Open Scope float_scope.

(** [x / y] of the source. *)
Definition fdiv (x y : R) : result R :=
  if y =? 0 then Raise ZeroDivisionError else Ok (x / y).

Notation "x // y" := (fdiv x y) (at level 40, left associativity) : float_scope.

(** ** The phase separation law *)

(** [_logit(x)]: [math.log(x / (1 - x))]; [math.log] raises [ValueError]
    outside its domain. *)
Definition _logit (x : R) : result R :=
  q <- x // (1 - x) ;;
  if 0 <? q then Ok (ln q) else Raise ValueError.

(** The constants set in [DischargeHaematocrit.__init__]. *)
Definition x_o_init : R := 1.12.
Definition A_o_init : R := 15.47.
Definition B_o_init : R := 8.13.

(** [non_dimentional_param]: the threshold [x_0], the asymmetry [A] and the
    scale [B], from the parent haematocrit and the three diameters. *)
Definition non_dimentional_param (hemat_par diam_par diam_a diam_b : R)
  : result (R * R * R) :=
  let diam_a := diam_a * 1E6 in
  let diam_b := diam_b * 1E6 in
  let diam_par := diam_par * 1E6 in
  x_0 <- (x_o_init * (1 - hemat_par)) // diam_par ;;
  r <- (diam_a ^ 2 - diam_b ^ 2) // (diam_a ^ 2 + diam_b ^ 2) ;;
  A <- ((- A_o_init) * r * (1 - hemat_par)) // diam_par ;;
  b <- (B_o_init * (1 - hemat_par)) // diam_par ;;
  Ok (x_0, A, 1 + b).

(** What one call of [get_erythrocyte_fraction] appends to the five plot
    lists. *)
Record split_log : Type := mk_split_log {
  fractional_qRBCa : R;
  fractional_qRBCb : R;
  fractional_flow_a : R;
  fractional_flow_b : R;
  hemat_parent_plot : R
}.

(** Lines 280-290: the three regions of the split law.  The last [else] is
    the case in which none of the three tests of the source holds and the
    shares stay unbound. *)
Definition rbc_shares (fractional_flow_a x_0 A B : R) : result (R * R) :=
  if fractional_flow_a <=? x_0 then Ok (0, 1)
  else if (x_0 <? fractional_flow_a) && (fractional_flow_a <? 1 - x_0) then
    internal_logit <- (fractional_flow_a - x_0) // (1 - x_0) ;;
    l <- _logit internal_logit ;;
    let logit_result := A + B * l in
    let fractional_qRBCa := exp logit_result / (1 + exp logit_result) in
    Ok (fractional_qRBCa, 1 - fractional_qRBCa)
  else if fractional_flow_a >=? 1 - x_0 then Ok (1, 0)
  else Raise UnboundLocalError.

(** Lines 292-301: from shares to haematocrits, "to avoid Nan". *)
Definition share_to_hemat (fractional_qRBCa fractional_qRBCb qRBCp flow_a flow_b : R)
  : result (R * R) :=
  if flow_a <? 1E-36 then
    hemat_b <- (fractional_qRBCb * qRBCp) // flow_b ;;
    Ok (0, hemat_b)
  else if flow_b <? 1E-36 then
    hemat_a <- (fractional_qRBCa * qRBCp) // flow_a ;;
    Ok (hemat_a, 0)
  else
    hemat_a <- (fractional_qRBCa * qRBCp) // flow_a ;;
    hemat_b <- (fractional_qRBCb * qRBCp) // flow_b ;;
    Ok (hemat_a, hemat_b).

Definition threshold : R := 0.99.

(** Lines 303-323: the redistribution of the surplus above [threshold].
    Returns the shares and the haematocrits after it. *)
Definition redistribute (fractional_qRBCa fractional_qRBCb hemat_a hemat_b
                         qRBCp flow_a flow_b : R) : result (R * R * R * R) :=
  if hemat_b >=? threshold then
    let hemat_surplus := hemat_b - threshold in
    fractional_RBCs_suprlus <- (hemat_surplus * flow_b) // qRBCp ;;
    let fractional_qRBCb := fractional_qRBCb - fractional_RBCs_suprlus in
    let fractional_qRBCa := fractional_qRBCa + fractional_RBCs_suprlus in
    hemat_a <- (fractional_qRBCa * qRBCp) // flow_a ;;
    hemat_b <- (fractional_qRBCb * qRBCp) // flow_b ;;
    Ok (fractional_qRBCa, fractional_qRBCb, hemat_a, hemat_b)
  else if hemat_a >=? threshold then
    let hemat_surplus := hemat_a - threshold in
    fractional_RBCs_suprlus <- (hemat_surplus * flow_a) // qRBCp ;;
    let fractional_qRBCb := fractional_qRBCb + fractional_RBCs_suprlus in
    let fractional_qRBCa := fractional_qRBCa - fractional_RBCs_suprlus in
    hemat_a <- (fractional_qRBCa * qRBCp) // flow_a ;;
    hemat_b <- (fractional_qRBCb * qRBCp) // flow_b ;;
    Ok (fractional_qRBCa, fractional_qRBCb, hemat_a, hemat_b)
  else Ok (fractional_qRBCa, fractional_qRBCb, hemat_a, hemat_b).

(** Lines 273-331 of [get_erythrocyte_fraction]: the haematocrits of the
    two daughters before the last test, and the entry appended to the plot
    lists. *)
Definition split_haematocrit
  (hemat_par diam_par diam_a diam_b flow_parent flow_a flow_b : R)
  : result (R * R * split_log) :=
  fractional_flow_a <- flow_a // (flow_a + flow_b) ;;
  fractional_flow_b <- flow_b // (flow_a + flow_b) ;;
  '(x_0, A, B) <- non_dimentional_param hemat_par diam_par diam_a diam_b ;;
  let qRBCp := hemat_par * flow_parent in
  '(fractional_qRBCa, fractional_qRBCb) <- rbc_shares fractional_flow_a x_0 A B ;;
  '(hemat_a, hemat_b) <-
     share_to_hemat fractional_qRBCa fractional_qRBCb qRBCp flow_a flow_b ;;
  '(fractional_qRBCa, fractional_qRBCb, hemat_a, hemat_b) <-
     redistribute fractional_qRBCa fractional_qRBCb hemat_a hemat_b
                  qRBCp flow_a flow_b ;;
  Ok (hemat_a, hemat_b,
      mk_split_log fractional_qRBCa fractional_qRBCb
                   fractional_flow_a fractional_flow_b hemat_par).

(** [get_erythrocyte_fraction]: lines 333-335 end the process when a
    haematocrit is 1 or more. *)
Definition get_erythrocyte_fraction
  (hemat_par diam_par diam_a diam_b flow_parent flow_a flow_b : R)
  : result (R * R * split_log) :=
  '(hemat_a, hemat_b, entry) <-
     split_haematocrit hemat_par diam_par diam_a diam_b flow_parent flow_a flow_b ;;
  if (hemat_a >=? 1) || (hemat_b >=? 1) then Raise SystemExit
  else Ok (hemat_a, hemat_b, entry).

(** ** The mass balance checker *)

(** What the modelled code prints. *)
Inductive event : Set :=
| NOT_BALANCED
| has_no_parent (node : nat)
| Check_RBCs_balance
| Check_RBCs_balance_DONE.

(** An argument that may be [None]; arithmetic on [None] raises. *)
Definition num (x : option R) : result R :=
  match x with
  | Some v => Ok v
  | None => Raise TypeError
  end.

Definition tollerance : R := 1.00E-05.

(** The value of [RBCbalance] at line 195 of [qRCS]. *)
Definition qRCS_balance (case : nat)
  (flow_a_par flow_b_par flow_c_par flow_a_d flow_b_d flow_c_d
   hemat_a_par hemat_b_par hemat_c_par hemat_a_d hemat_b_d hemat_c_d : option R)
  : result nat :=
  match case with
  | 1%nat =>
      fap <- num flow_a_par ;; fad <- num flow_a_d ;;
      if Rabs (fap - fad) <=? tollerance then
        hap <- num hemat_a_par ;; had <- num hemat_a_d ;;
        let qRBC_p := fap * hap in
        let qRBC_d := fad * had in
        if Rabs (qRBC_p - qRBC_d) <=? tollerance then Ok 0%nat else Ok 1%nat
      else Ok 1%nat
  | 2%nat =>
      fad <- num flow_a_d ;; fbd <- num flow_b_d ;;
      let flow_in_daughters := fad + fbd in
      fap <- num flow_a_par ;;
      if Rabs (fap - flow_in_daughters) <=? tollerance then
        had <- num hemat_a_d ;; hbd <- num hemat_b_d ;;
        let qRBC_a := fad * had in
        let qRBC_b := fbd * hbd in
        hap <- num hemat_a_par ;;
        let qRBC_p := fap * hap in
        let qRBC_d := qRBC_a + qRBC_b in
        if Rabs (qRBC_p - qRBC_d) <=? tollerance then Ok 0%nat else Ok 1%nat
      else Ok 1%nat
  | 3%nat =>
      fad <- num flow_a_d ;; fbd <- num flow_b_d ;; fcd <- num flow_c_d ;;
      let flow_in_daughters := fad + fbd + fcd in
      fap <- num flow_a_par ;;
      if Rabs (fap - flow_in_daughters) <=? tollerance then
        had <- num hemat_a_d ;; hbd <- num hemat_b_d ;; hcd <- num hemat_c_d ;;
        let qRBC_a := fad * had in
        let qRBC_b := fbd * hbd in
        let qRBC_c := fcd * hcd in
        hap <- num hemat_a_par ;;
        let qRBC_p := fap * hap in
        let qRBC_d := qRBC_a + qRBC_b + qRBC_c in
        if Rabs (qRBC_p - qRBC_d) <=? tollerance then Ok 0%nat else Ok 1%nat
      else Ok 1%nat
  | 4%nat =>
      fap <- num flow_a_par ;; fbp <- num flow_b_par ;;
      let flow_in_parents := fap + fbp in
      fad <- num flow_a_d ;;
      if Rabs (flow_in_parents - fad) <=? tollerance then
        hap <- num hemat_a_par ;; hbp <- num hemat_b_par ;;
        let qRBC_a := fap * hap in
        let qRBC_b := fbp * hbp in
        had <- num hemat_a_d ;;
        let qRBC_d := fad * had in
        let qRBC_p := qRBC_a + qRBC_b in
        if Rabs (qRBC_p - qRBC_d) <=? tollerance then Ok 0%nat else Ok 1%nat
      else Ok 1%nat
  | 5%nat =>
      fap <- num flow_a_par ;; fbp <- num flow_b_par ;; fcp <- num flow_c_par ;;
      let flow_in_parents := fap + fbp + fcp in
      fad <- num flow_a_d ;;
      if Rabs (flow_in_parents - fad) <=? tollerance then
        hap <- num hemat_a_par ;; hbp <- num hemat_b_par ;; hcp <- num hemat_c_par ;;
        let qRBC_a_p := fap * hap in
        let qRBC_b_p := fbp * hbp in
        let qRBC_c_p := fcp * hcp in
        had <- num hemat_a_d ;;
        let qRBC_d := fad * had in
        let qRBC_p := qRBC_a_p + qRBC_b_p + qRBC_c_p in
        if Rabs (qRBC_p - qRBC_d) <=? tollerance then Ok 0%nat else Ok 1%nat
      else Ok 1%nat
  | _ => Ok 1%nat
  end.

(** [qRCS]: the balance flag and what is printed. *)
Definition qRCS (case : nat)
  (flow_a_par flow_b_par flow_c_par flow_a_d flow_b_d flow_c_d
   hemat_a_par hemat_b_par hemat_c_par hemat_a_d hemat_b_d hemat_c_d : option R)
  : result (nat * list event) :=
  RBCbalance <- qRCS_balance case flow_a_par flow_b_par flow_c_par
                  flow_a_d flow_b_d flow_c_d hemat_a_par hemat_b_par hemat_c_par
                  hemat_a_d hemat_b_d hemat_c_d ;;
  if Nat.eqb RBCbalance 1 then Ok (RBCbalance, [NOT_BALANCED])
  else Ok (RBCbalance, []).

(** ** The handlers, one per shape of node

    Each returns what the method returns, and the lines printed during the
    call. *)

Definition hematocrit_1_1 (hemat_parent flow_parent flow_daughter : R)
  (rbc_balance : nat) : result (R * nat * list event) :=
  let hematocrit := hemat_parent in
  '(b, printed) <- qRCS 1 (Some flow_parent) None None (Some flow_daughter) None None
                     (Some hemat_parent) None None (Some hematocrit) None None ;;
  Ok (hematocrit, (rbc_balance + b)%nat, printed).

(** What one call of [hematocrit_1_3] appends to the two trifurcation plot
    lists, three entries each. *)
Record trifurc_log : Type := mk_trifurc_log {
  fractional_trifurc_RBCs : list R;
  fractional_trifurc_blood : list R
}.

(** [hematocrit_1_3]: what the method returns, the entries that it appends
    to the two trifurcation plot lists (lines 211-214), and the lines
    printed. *)
Definition hematocrit_1_3 (flow_parent hemat_parent
  flow_daughter_a flow_daughter_b flow_daughter_c : R) (rbc_balance : nat)
  : result (R * R * R * nat * trifurc_log * list event) :=
  let hematocrit_a := hemat_parent in
  let hematocrit_b := hemat_parent in
  let hematocrit_c := hemat_parent in
  '(b, printed) <- qRCS 3 (Some flow_parent) None None
                     (Some flow_daughter_a) (Some flow_daughter_b) (Some flow_daughter_c)
                     (Some hemat_parent) None None
                     (Some hematocrit_a) (Some hematocrit_b) (Some hematocrit_c) ;;
  let qRBC_parent := flow_parent * hemat_parent in
  rbc_a <- (flow_daughter_a * hematocrit_a) // qRBC_parent ;;
  rbc_b <- (flow_daughter_b * hematocrit_b) // qRBC_parent ;;
  rbc_c <- (flow_daughter_c * hematocrit_c) // qRBC_parent ;;
  blood_a <- flow_daughter_a // flow_parent ;;
  blood_b <- flow_daughter_b // flow_parent ;;
  blood_c <- flow_daughter_c // flow_parent ;;
  Ok (hematocrit_a, hematocrit_b, hematocrit_c, (rbc_balance + b)%nat,
      mk_trifurc_log [rbc_a; rbc_b; rbc_c] [blood_a; blood_b; blood_c], printed).

Definition hematocrit_2_1 (flow_parent_a flow_parent_b flow_daughter
  hemat_parent_a hemat_parent_b : R) (rbc_balance : nat)
  : result (R * nat * list event) :=
  hematocrit <- ((flow_parent_a * hemat_parent_a) + (flow_parent_b * hemat_parent_b))
                // (flow_parent_a + flow_parent_b) ;;
  '(b, printed) <- qRCS 4 (Some flow_parent_a) (Some flow_parent_b) None
                     (Some flow_daughter) None None
                     (Some hemat_parent_a) (Some hemat_parent_b) None
                     (Some hematocrit) None None ;;
  Ok (hematocrit, (rbc_balance + b)%nat, printed).

Definition hematocrit_2_2_aux (hemat_a hemat_b flow_a flow_b diameter_a diameter_b : R)
  : result (R * R * R) :=
  let diameter_parent := (diameter_a + diameter_b) / 2 in
  let flow_parent := flow_a + flow_b in
  hemat_parent <- ((flow_a * hemat_a) + (flow_b * hemat_b)) // (flow_a + flow_b) ;;
  Ok (diameter_parent, flow_parent, hemat_parent).

Definition hematocrit_1_2 (flow_parent hemat_parent flow_daughter_a flow_daughter_b : R)
  (rbc_balance : nat) (diameter_parent diameter_a diameter_b : R)
  : result (R * R * nat * split_log * list event) :=
  '(hematocrit_a, hematocrit_b, entry) <-
     get_erythrocyte_fraction hemat_parent diameter_parent diameter_a diameter_b
                              flow_parent flow_daughter_a flow_daughter_b ;;
  '(b, printed) <- qRCS 2 (Some flow_parent) None None
                     (Some flow_daughter_a) (Some flow_daughter_b) None
                     (Some hemat_parent) None None
                     (Some hematocrit_a) (Some hematocrit_b) None ;;
  Ok (hematocrit_a, hematocrit_b, (rbc_balance + b)%nat, entry, printed).

Definition hematocrit_3_1 (flow_parent_a flow_parent_b flow_parent_c flow_daughter
  hemat_parent_a hemat_parent_b hemat_parent_c : R) (rbc_balance : nat)
  : result (R * nat * list event) :=
  hematocrit <- ((flow_parent_a * hemat_parent_a) + (flow_parent_b * hemat_parent_b)
                 + (flow_parent_c * hemat_parent_c))
                // (flow_parent_a + flow_parent_b + flow_parent_c) ;;
  '(b, printed) <- qRCS 5 (Some flow_parent_a) (Some flow_parent_b) (Some flow_parent_c)
                     (Some flow_daughter) None None
                     (Some hemat_parent_a) (Some hemat_parent_b) (Some hemat_parent_c)
                     (Some hematocrit) None None ;;
  Ok (hematocrit, (rbc_balance + b)%nat, printed).

(** ** The flow network, as far as [update_hd] reads and writes it *)

Record FlowNetwork : Type := mk_FlowNetwork {
  diameter : list R;
  pressure : option (list R);
  nr_of_vs : nat;
  edge_list : list (nat * nat);
  flow_rate : list R;
  boundary_vs : list nat;
  ht : list R;
  hd : list R
}.

(** The edge variables of [update_hd] that are bound by the two [match]
    statements on the numbers of daughters and parents.  They are function
    locals: a binding made while one node is processed is still there when
    the next node is processed. *)
Record locals : Type := mk_locals {
  single_daughter : option nat;
  daughter_a : option nat;
  daughter_b : option nat;
  daughter_c : option nat;
  parent : option nat;
  parent_a : option nat;
  parent_b : option nat;
  parent_c : option nat
}.

Definition no_locals : locals :=
  mk_locals None None None None None None None None.

(** What a pass of [update_hd] changes: the haematocrit array
    [flownetwork.hd], the counter [rbc_balance], the five plot lists (one
    [split_log] per call of the phase separation law), the printed lines and
    the locals.  The two trifurcation plot lists, to which the pass only
    appends, are not part of the state: [hematocrit_1_3] returns what it
    appends to them. *)
Record pass_state : Type := mk_pass_state {
  st_hd : list R;
  rbc_balance : nat;
  plots : list split_log;
  printed : list event;
  vars : locals
}.

(** Reading a local: unbound locals raise. *)
Definition var (x : option nat) : result nat :=
  match x with
  | Some e => Ok e
  | None => Raise UnboundLocalError
  end.

(** [a[i]] read and [a[i] = v]. *)
Definition get {A : Type} (a : list A) (i : nat) : result A :=
  match nth_error a i with
  | Some x => Ok x
  | None => Raise IndexError
  end.

Fixpoint update {A : Type} (a : list A) (i : nat) (v : A) : list A :=
  match a, i with
  | [], _ => []
  | _ :: a', O => v :: a'
  | x :: a', S i' => x :: update a' i' v
  end.

Definition set {A : Type} (a : list A) (i : nat) (v : A) : result (list A) :=
  if Nat.ltb i (length a) then Ok (update a i v) else Raise IndexError.

(** *** The order of the nodes *)

(** [argsort()] of the pressures: the rows in ascending order of their
    pressure.  The default sort of numpy keeps no promise on the order in
    which it leaves rows of equal pressure (it sorts an array of at most 16
    elements by insertion, which leaves them as they were, and a longer one
    by an introsort, which does not).  That order is the parameter [ties] of
    the model: [ties i j] tells whether the row of node [i] comes before the
    row of node [j] when the two pressures are equal.  Rows of different
    pressure never consult it. *)
Definition comes_before (ties : nat -> nat -> bool) (x y : R * nat) : bool :=
  if fst x <? fst y then true
  else if fst y <? fst x then false
  else ties (snd x) (snd y).

Fixpoint insert_node (ties : nat -> nat -> bool) (x : R * nat) (l : list (R * nat))
  : list (R * nat) :=
  match l with
  | [] => [x]
  | y :: l' =>
      if comes_before ties x y then x :: y :: l' else y :: insert_node ties x l'
  end.

Definition argsort (ties : nat -> nat -> bool) (l : list (R * nat)) : list (R * nat) :=
  fold_right (insert_node ties) [] l.

(** The order of equal keys after a sort by insertion, which is how numpy
    sorts an array of at most 16 elements, as the networks of the examples
    are: as they were. *)
Definition in_place (i j : nat) : bool := Nat.leb i j.

(** An order of the ties given by a list of the nodes.
    [listed_before l i j]: node [i] is met before node [j] in [l]. *)
Fixpoint listed_before (l : list nat) (i j : nat) : bool :=
  match l with
  | [] => true
  | k :: l' =>
      if Nat.eqb k i then true
      else if Nat.eqb k j then false
      else listed_before l' i j
  end.

Fixpoint mapM {A B : Type} (f : A -> result B) (l : list A) : result (list B) :=
  match l with
  | [] => Ok []
  | x :: l' => y <- f x ;; ys <- mapM f l' ;; Ok (y :: ys)
  end.

(** Lines 370-376: [pressure_node], rows [pressure, node], ordered by
    [argsort()[::-1]]. *)
Definition pressure_node (ties : nat -> nat -> bool) (pressure : list R)
  (nr_of_vs : nat) : result (list (R * nat)) :=
  rows <- mapM (fun pres => p <- get pressure pres ;; Ok (p, pres)) (seq 0 nr_of_vs) ;;
  Ok (rev (argsort ties rows)).

Definition ordered_node (pn : list (R * nat)) : list nat := map snd pn.

(** *** Parents and daughters of a node *)

Definition isin (x : nat) (l : list nat) : bool := existsb (Nat.eqb x) l.

Definition isin_edge (x : nat) (e : nat * nat) : bool :=
  Nat.eqb x (fst e) || Nat.eqb x (snd e).

(** Lines 389-398: the edges at [node], each with its position in
    [edge_list] ([edge_connected_position] and [edge_connected], kept side by
    side). *)
Fixpoint edges_at (edge_list : list (nat * nat)) (node : nat) (edge : nat)
  : list (nat * (nat * nat)) :=
  match edge_list with
  | [] => []
  | e :: rest =>
      if Nat.eqb (fst e) node || Nat.eqb (snd e) node
      then (edge, e) :: edges_at rest node (S edge)
      else edges_at rest node (S edge)
  end.

Definition edge_connected_position (connected : list (nat * (nat * nat))) : list nat :=
  map fst connected.

(** Lines 413-416: the positions of the connected edges that have [on] as an
    end. *)
Definition parents_through (on : nat) (connected : list (nat * (nat * nat))) : list nat :=
  map fst (filter (fun pe => isin_edge on (snd pe)) connected).

(** Lines 401-416: the scan of [ordered_node] up to [node].  Returns
    [parent_edge] and [edge_daughter]. *)
Fixpoint scan_ordered (ordered : list nat) (node : nat)
  (connected : list (nat * (nat * nat))) (parent_edge : list nat)
  : list nat * list nat :=
  match ordered with
  | [] => (parent_edge, [])
  | on :: rest =>
      if Nat.eqb on node then
        (parent_edge,
         filter (fun element => negb (isin element parent_edge))
                (edge_connected_position connected))
      else if existsb (fun pe => isin_edge on (snd pe)) connected then
        scan_ordered rest node connected (parent_edge ++ parents_through on connected)
      else scan_ordered rest node connected parent_edge
  end.

(** Lines 420-431 and 435-446: the two [match] statements on the lengths. *)
Definition bind_daughters (edge_daughter : list nat) (v : locals) : nat * locals :=
  match edge_daughter with
  | [d] =>
      (1%nat, mk_locals (Some d) (daughter_a v) (daughter_b v) (daughter_c v)
                        (parent v) (parent_a v) (parent_b v) (parent_c v))
  | [a; b] =>
      (2%nat, mk_locals (single_daughter v) (Some a) (Some b) (daughter_c v)
                        (parent v) (parent_a v) (parent_b v) (parent_c v))
  | [a; b; c] =>
      (3%nat, mk_locals (single_daughter v) (Some a) (Some b) (Some c)
                        (parent v) (parent_a v) (parent_b v) (parent_c v))
  | _ => (0%nat, v)
  end.

Definition bind_parents (parent_edge : list nat) (v : locals) : nat * locals :=
  match parent_edge with
  | [p] =>
      (1%nat, mk_locals (single_daughter v) (daughter_a v) (daughter_b v) (daughter_c v)
                        (Some p) (parent_a v) (parent_b v) (parent_c v))
  | [a; b] =>
      (2%nat, mk_locals (single_daughter v) (daughter_a v) (daughter_b v) (daughter_c v)
                        (parent v) (Some a) (Some b) (parent_c v))
  | [a; b; c] =>
      (3%nat, mk_locals (single_daughter v) (daughter_a v) (daughter_b v) (daughter_c v)
                        (parent v) (Some a) (Some b) (Some c))
  | _ => (0%nat, v)
  end.

(** [np.where(flownetwork.boundary_vs == node)[0][0]]. *)
Fixpoint where_first (l : list nat) (node : nat) (i : nat) : result nat :=
  match l with
  | [] => Raise IndexError
  | x :: l' => if Nat.eqb x node then Ok i else where_first l' node (S i)
  end.

Definition boundary_value (boundary_hematocrit : list R) (boundary_vs : list nat)
  (node : nat) : result R :=
  i <- where_first boundary_vs node 0 ;;
  get boundary_hematocrit i.

(** *** One node *)

Section Node.

Variable fn : FlowNetwork.
(** [self._PARAMETERS["boundary_hematocrit"]] *)
Variable boundary_hematocrit : list R.
(** [flow = np.abs(flownetwork.flow_rate)] *)
Variable flow : list R.

Definition store1 (st : pass_state) (e : nat) (h : R) (rb : nat) (pr : list event)
  : result pass_state :=
  hd1 <- set (st_hd st) e h ;;
  Ok (mk_pass_state hd1 rb (plots st) (printed st ++ pr) (vars st)).

Definition store2 (st : pass_state) (ea eb : option nat) (ha hb : R) (rb : nat)
  (entry : list split_log) (pr : list event) : result pass_state :=
  a <- var ea ;;
  hd1 <- set (st_hd st) a ha ;;
  b <- var eb ;;
  hd2 <- set hd1 b hb ;;
  Ok (mk_pass_state hd2 rb (plots st ++ entry) (printed st ++ pr) (vars st)).

Definition store3 (st : pass_state) (ea eb ec : option nat) (ha hb hc : R) (rb : nat)
  (pr : list event) : result pass_state :=
  a <- var ea ;;
  hd1 <- set (st_hd st) a ha ;;
  b <- var eb ;;
  hd2 <- set hd1 b hb ;;
  c <- var ec ;;
  hd3 <- set hd2 c hc ;;
  Ok (mk_pass_state hd3 rb (plots st) (printed st ++ pr) (vars st)).

(** Lines 451-599: a node of [flownetwork.boundary_vs]. *)
Definition boundary_node (node n_parent n_daughter : nat) (st : pass_state)
  : result pass_state :=
  let v := vars st in
  let hd := st_hd st in
  match n_parent, n_daughter with
  | 0%nat, 1%nat =>
      (* the pair that [hematocrit_1_1] returns is not unpacked: it is
         assigned as it is to one element of [flownetwork.hd], a numpy array
         of floats (the other classes of the module index it with masks),
         and numpy raises [ValueError] on a sequence *)
      hemat <- boundary_value boundary_hematocrit (boundary_vs fn) node ;;
      sd <- var (single_daughter v) ;;
      f1 <- get flow sd ;;
      f2 <- get flow sd ;;
      _ <- hematocrit_1_1 hemat f1 f2 (rbc_balance st) ;;
      Raise ValueError
  | 1%nat, 0%nat => Ok st
  | 0%nat, 2%nat =>
      da <- var (daughter_a v) ;; db <- var (daughter_b v) ;;
      dia_a <- get (diameter fn) da ;; dia_b <- get (diameter fn) db ;;
      let diameter_parent := (dia_a + dia_b) / 2 in
      fa <- get flow da ;; fb <- get flow db ;;
      let flow_parent := fa + fb in
      hemat_parent <- boundary_value boundary_hematocrit (boundary_vs fn) node ;;
      '(ha, hb, rb, entry, pr) <-
         hematocrit_1_2 flow_parent hemat_parent fa fb (rbc_balance st)
                        diameter_parent dia_a dia_b ;;
      store2 st (daughter_a v) (daughter_b v) ha hb rb [entry] pr
  | 2%nat, 0%nat => Ok st
  | 1%nat, 1%nat =>
      p <- var (parent v) ;; sd <- var (single_daughter v) ;;
      frp <- get (flow_rate fn) p ;; frd <- get (flow_rate fn) sd ;;
      if frp <? frd then
        let flow_ghost := frd - frp in
        hematocrit_ghost <- boundary_value boundary_hematocrit (boundary_vs fn) node ;;
        fp <- get flow p ;; fd <- get flow sd ;; hp <- get hd p ;;
        '(h, rb, pr) <-
           hematocrit_2_1 fp flow_ghost fd hp hematocrit_ghost (rbc_balance st) ;;
        store1 st sd h rb pr
      else
        diameter_ghost <- get (diameter fn) sd ;;
        let flow_ghost := frp - frd in
        fp <- get flow p ;; hp <- get hd p ;; fd <- get flow sd ;;
        dia_p <- get (diameter fn) p ;; dia_d <- get (diameter fn) sd ;;
        '(h, hemat_ghost_daughter, rb, entry, pr) <-
           hematocrit_1_2 fp hp fd flow_ghost (rbc_balance st)
                          dia_p dia_d diameter_ghost ;;
        hd1 <- set hd sd h ;;
        Ok (mk_pass_state hd1 rb (plots st ++ [entry]) (printed st ++ pr) v)
  | 2%nat, 1%nat =>
      pa <- var (parent_a v) ;; pb <- var (parent_b v) ;;
      fpa <- get flow pa ;; fpb <- get flow pb ;;
      let flow_parents := fpa + fpb in
      sd <- var (single_daughter v) ;;
      fd <- get flow sd ;;
      if fd >? flow_parents then
        let flow_parent_ghost := fd - (fpa + fpb) in
        hematocrit_ghost <- boundary_value boundary_hematocrit (boundary_vs fn) node ;;
        hpa <- get hd pa ;; hpb <- get hd pb ;;
        '(h, rb, pr) <-
           hematocrit_3_1 fpa fpb flow_parent_ghost fd hpa hpb hematocrit_ghost
                          (rbc_balance st) ;;
        store1 st sd h rb pr
      else
        let flow_daughter_ghost := flow_parents - fd in
        hpa <- get hd pa ;; hpb <- get hd pb ;;
        dia_pa <- get (diameter fn) pa ;; dia_pb <- get (diameter fn) pb ;;
        '(diameter_parent, flow_parent, hemat_parent) <-
           hematocrit_2_2_aux hpa hpb fpa fpb dia_pa dia_pb ;;
        (* [daughter_a] and [daughter_b] are not bound for this node: the
           [match] on one daughter binds [single_daughter] only *)
        da <- var (daughter_a v) ;;
        fa <- get flow da ;;
        dia_a <- get (diameter fn) da ;;
        '(ha, hb, rb, entry, pr) <-
           hematocrit_1_2 flow_parent hemat_parent fa flow_daughter_ghost
                          (rbc_balance st) diameter_parent dia_a dia_a ;;
        store2 st (daughter_a v) (daughter_b v) ha hb rb [entry] pr
  | 3%nat, 0%nat => Ok st
  | 0%nat, 3%nat =>
      hematocrit_ghost <- boundary_value boundary_hematocrit (boundary_vs fn) node ;;
      da <- var (daughter_a v) ;; db <- var (daughter_b v) ;; dc <- var (daughter_c v) ;;
      fa <- get flow da ;; fb <- get flow db ;; fc <- get flow dc ;;
      let flow_parent_ghost := fa + fb + fc in
      '(ha, hb, hc, rb, trifurc, pr) <-
         hematocrit_1_3 flow_parent_ghost hematocrit_ghost fa fb fc (rbc_balance st) ;;
      store3 st (daughter_a v) (daughter_b v) (daughter_c v) ha hb hc rb pr
  | 1%nat, 2%nat =>
      da <- var (daughter_a v) ;; db <- var (daughter_b v) ;;
      fa <- get flow da ;; fb <- get flow db ;;
      let flow_daughter := fa + fb in
      p <- var (parent v) ;;
      frp <- get (flow_rate fn) p ;;
      if frp >? flow_daughter then
        fp <- get flow p ;;
        let flow_ghost_daughter := fp - flow_daughter in
        hp <- get hd p ;;
        '(ha, hb, hematocrit_ghost_daughter, rb, trifurc, pr) <-
           hematocrit_1_3 fp hp fa fb flow_ghost_daughter (rbc_balance st) ;;
        store2 st (daughter_a v) (daughter_b v) ha hb rb [] pr
      else
        fp <- get flow p ;;
        let flow_ghost := (fa + fb) - fp in
        hp <- get hd p ;;
        hemat_ghost <- boundary_value boundary_hematocrit (boundary_vs fn) node ;;
        dia_a <- get (diameter fn) da ;;
        '(diameter_parent, flow_parent, hemat_parent) <-
           hematocrit_2_2_aux hp hemat_ghost fp flow_ghost dia_a dia_a ;;
        dia_b <- get (diameter fn) db ;;
        '(ha, hb, rb, entry, pr) <-
           hematocrit_1_2 flow_parent hemat_parent fa fb (rbc_balance st)
                          diameter_parent dia_a dia_b ;;
        store2 st (daughter_a v) (daughter_b v) ha hb rb [entry] pr
  | _, _ => Ok st
  end.

(** Lines 602-659: a node that is not in [flownetwork.boundary_vs]. *)
Definition interior_node (node n_parent n_daughter : nat) (st : pass_state)
  : result pass_state :=
  let v := vars st in
  let hd := st_hd st in
  match n_parent, n_daughter with
  | 1%nat, 1%nat =>
      p <- var (parent v) ;; hp <- get hd p ;; fp <- get flow p ;;
      sd <- var (single_daughter v) ;; fd <- get flow sd ;;
      '(h, rb, pr) <- hematocrit_1_1 hp fp fd (rbc_balance st) ;;
      store1 st sd h rb pr
  | 1%nat, 2%nat =>
      p <- var (parent v) ;; fp <- get flow p ;; hp <- get hd p ;;
      da <- var (daughter_a v) ;; db <- var (daughter_b v) ;;
      fa <- get flow da ;; fb <- get flow db ;;
      dia_p <- get (diameter fn) p ;;
      dia_a <- get (diameter fn) da ;; dia_b <- get (diameter fn) db ;;
      '(ha, hb, rb, entry, pr) <-
         hematocrit_1_2 fp hp fa fb (rbc_balance st) dia_p dia_a dia_b ;;
      store2 st (daughter_a v) (daughter_b v) ha hb rb [entry] pr
  | 1%nat, 3%nat =>
      p <- var (parent v) ;; fp <- get flow p ;; hp <- get hd p ;;
      da <- var (daughter_a v) ;; db <- var (daughter_b v) ;; dc <- var (daughter_c v) ;;
      fa <- get flow da ;; fb <- get flow db ;; fc <- get flow dc ;;
      '(ha, hb, hc, rb, trifurc, pr) <-
         hematocrit_1_3 fp hp fa fb fc (rbc_balance st) ;;
      store3 st (daughter_a v) (daughter_b v) (daughter_c v) ha hb hc rb pr
  | 2%nat, 1%nat =>
      pa <- var (parent_a v) ;; pb <- var (parent_b v) ;;
      fpa <- get flow pa ;; fpb <- get flow pb ;;
      sd <- var (single_daughter v) ;; fd <- get flow sd ;;
      hpa <- get hd pa ;; hpb <- get hd pb ;;
      '(h, rb, pr) <- hematocrit_2_1 fpa fpb fd hpa hpb (rbc_balance st) ;;
      store1 st sd h rb pr
  | 2%nat, 2%nat =>
      pa <- var (parent_a v) ;; pb <- var (parent_b v) ;;
      hpa <- get hd pa ;; hpb <- get hd pb ;;
      fpa <- get flow pa ;; fpb <- get flow pb ;;
      da <- var (daughter_a v) ;; db <- var (daughter_b v) ;;
      dia_a <- get (diameter fn) da ;; dia_b <- get (diameter fn) db ;;
      '(diameter_parent, flow_parent, hemat_parent) <-
         hematocrit_2_2_aux hpa hpb fpa fpb dia_a dia_b ;;
      fa <- get flow da ;; fb <- get flow db ;;
      '(ha, hb, rb, entry, pr) <-
         hematocrit_1_2 flow_parent hemat_parent fa fb (rbc_balance st)
                        diameter_parent dia_a dia_b ;;
      store2 st (daughter_a v) (daughter_b v) ha hb rb [entry] pr
  | 3%nat, 1%nat =>
      pa <- var (parent_a v) ;; pb <- var (parent_b v) ;; pc <- var (parent_c v) ;;
      fpa <- get flow pa ;; fpb <- get flow pb ;; fpc <- get flow pc ;;
      sd <- var (single_daughter v) ;; fd <- get flow sd ;;
      hpa <- get hd pa ;; hpb <- get hd pb ;; hpc <- get hd pc ;;
      '(h, rb, pr) <- hematocrit_3_1 fpa fpb fpc fd hpa hpb hpc (rbc_balance st) ;;
      store1 st sd h rb pr
  | 0%nat, _ =>
      Ok (mk_pass_state hd (rbc_balance st) (plots st)
                        (printed st ++ [has_no_parent node]) v)
  | _, _ => Ok st
  end.

(** Lines 378-659: the body of the loop over the nodes. *)
Definition process_node (ordered : list nat) (node : nat) (st : pass_state)
  : result pass_state :=
  let connected := edges_at (edge_list fn) node 0 in
  let '(parent_edge, edge_daughter) := scan_ordered ordered node connected [] in
  let '(n_daughter, v1) := bind_daughters edge_daughter (vars st) in
  let '(n_parent, v2) := bind_parents parent_edge v1 in
  let st1 := mk_pass_state (st_hd st) (rbc_balance st) (plots st) (printed st) v2 in
  if isin node (boundary_vs fn)
  then boundary_node node n_parent n_daughter st1
  else interior_node node n_parent n_daughter st1.

Fixpoint process_nodes (ordered : list nat) (nodes : list nat) (st : pass_state)
  : result pass_state :=
  match nodes with
  | [] => Ok st
  | node :: rest =>
      st1 <- process_node ordered node st ;;
      process_nodes ordered rest st1
  end.

End Node.

(** Lines 661-665.  [sys.exit] is called with two arguments there, which
    raises [TypeError] in place of [SystemExit]; the process ends either
    way. *)
Definition check_rbc_balance (st : pass_state) : result pass_state :=
  let out := printed st ++ [Check_RBCs_balance] in
  if Nat.ltb 0 (rbc_balance st) then Raise TypeError
  else Ok (mk_pass_state (st_hd st) (rbc_balance st) (plots st)
                         (out ++ [Check_RBCs_balance_DONE]) (vars st)).

(** [update_hd]: one pass.  [ties] is the order in which [argsort] leaves
    nodes of equal pressure. *)
Definition update_hd (ties : nat -> nat -> bool) (boundary_hematocrit : list R)
  (fn : FlowNetwork) : result pass_state :=
  match pressure fn with
  | None => Ok (mk_pass_state (ht fn) 0 [] [] no_locals)
  | Some pressure =>
      let flow := map Rabs (flow_rate fn) in
      pn <- pressure_node ties pressure (nr_of_vs fn) ;;
      let ordered := ordered_node pn in
      st <- process_nodes fn boundary_hematocrit flow ordered ordered
              (mk_pass_state (hd fn) 0 [] [] no_locals) ;;
      check_rbc_balance st
  end.

(** ** The iterative routine *)

(** The fields of the flow network that [berg_convergence] reads.  They are
    set by the collaborators that [iterative_routine] calls. *)
Record berg_fields : Type := mk_berg_fields {
  inflow : R;
  local_balance_rbc : list R;
  pressure_convergence_criteria_berg : R;
  flow_convergence_criteria_berg : R;
  hd_convergence_criteria_berg : R
}.

(** [sum(abs(flownetwork.local_balance_rbc))] *)
Definition sum_abs (l : list R) : R := fold_right (fun x acc => Rabs x + acc) 0 l.

(** [berg_convergence]: the composite residual.  The appends to the plot
    lists other than [bergIteration] are left out. *)
Definition berg_convergence (PARAMETERS_boundary_hematocrit : R) (f : berg_fields)
  : result R :=
  residual_part_1 <- 1 // (PARAMETERS_boundary_hematocrit * inflow f) ;;
  let residual_part_2 := sum_abs (local_balance_rbc f) in
  let residual12 := residual_part_1 * residual_part_2 in
  let residual_parte_3 :=
    pressure_convergence_criteria_berg f + flow_convergence_criteria_berg f
    + hd_convergence_criteria_berg f in
  Ok (residual12 + residual_parte_3).

(** What the loop of [_iterative_method] reads and writes. *)
Record loop_state : Type := mk_loop_state {
  iteration : nat;
  convergence_check : bool;
  residual_berg : option R;
  bergIteration : list (option R)
}.

Section Loop.

(** [self.iterative_routine(flownetwork)]: transmissibility, linear system,
    pressure and flow, velocity and the flow balance check are
    collaborators.  A call may end the process; otherwise it leaves the
    fields below.  The argument is the value of [flownetwork.iteration] at
    the call. *)
Variable iterative_routine : nat -> result berg_fields.
Variable PARAMETERS_boundary_hematocrit : R.
Variable berg_criteria : R.

(** Lines 133-188 and 384-387: one turn of the [while] loop.  The plots
    every 25 iterations and the pickle file are output only and are left
    out. *)
Definition loop_body (st : loop_state) : result loop_state :=
  f <- iterative_routine (iteration st) ;;
  let iteration := S (iteration st) in
  '(residual_berg, bergIteration) <-
     (if Nat.eqb iteration 1 then Ok (residual_berg st, bergIteration st ++ [None])
      else r <- berg_convergence PARAMETERS_boundary_hematocrit f ;;
           Ok (Some r, bergIteration st ++ [Some r])) ;;
  converged <-
     (if Nat.ltb 2 iteration then
        match residual_berg with
        | None => Raise UnboundLocalError
        | Some r => Ok ((r <=? berg_criteria) && Nat.ltb 2000 iteration)
        end
      else Ok false) ;;
  if converged then Ok (mk_loop_state iteration true residual_berg bergIteration)
  else if Nat.eqb iteration 2000
  then Ok (mk_loop_state iteration true residual_berg bergIteration)
  else Ok (mk_loop_state iteration false residual_berg bergIteration).

(** [while flownetwork.convergence_check is False: ...], at most [fuel]
    turns; [None] when the loop is still running after them. *)
Fixpoint while_loop (fuel : nat) (st : loop_state) : option (result loop_state) :=
  if convergence_check st then Some (Ok st)
  else match fuel with
       | O => None
       | S fuel' =>
           match loop_body st with
           | Ok st1 => while_loop fuel' st1
           | Raise e => Some (Raise e)
           end
       end.

(** [_iterative_method], started on a network whose counter is
    [iteration0]. *)
Definition _iterative_method (fuel : nat) (iteration0 : nat)
  : option (result loop_state) :=
  while_loop fuel (mk_loop_state iteration0 false None []).

End Loop.

(** ** Shapes of nodes *)

(** The numbers of parents and of daughters that [process_node] finds for a
    node ([n_parent], [n_daughter]). *)
Definition node_shape (fn : FlowNetwork) (ordered : list nat) (node : nat) : nat * nat :=
  let connected := edges_at (edge_list fn) node 0 in
  let '(parent_edge, edge_daughter) := scan_ordered ordered node connected [] in
  (fst (bind_parents parent_edge no_locals), fst (bind_daughters edge_daughter no_locals)).

(** The [case] arms of the two [match n_parent, n_daughter] statements that
    compute or pass; [case 0, _] of the second, which prints, is not among
    them. *)
Definition boundary_case (n_parent n_daughter : nat) : bool :=
  match n_parent, n_daughter with
  | 0, 1 | 1, 0 | 0, 2 | 2, 0 | 1, 1 | 2, 1 | 3, 0 | 0, 3 | 1, 2 => true
  | _, _ => false
  end%nat.

Definition interior_case (n_parent n_daughter : nat) : bool :=
  match n_parent, n_daughter with
  | 1, 1 | 1, 2 | 1, 3 | 2, 1 | 2, 2 | 3, 1 => true
  | _, _ => false
  end%nat.

(** ** Networks used in the examples *)

(** Three nodes in a row, none of them a boundary node; the flow of the
    second edge is [f]. *)
Definition chain (f : R) : FlowNetwork :=
  mk_FlowNetwork [4e-6; 4e-6] (Some [3; 2; 1]) 3 [(0, 1); (1, 2)]%nat
                 [1; f] [] [0.45; 0.45] [0.45; 0.3].

(** An inlet and an outlet joined by one edge, both boundary nodes. *)
Definition inlet : FlowNetwork :=
  mk_FlowNetwork [4e-6] (Some [2; 1]) 2 [(0, 1)]%nat [1] [0; 1]%nat [0.45] [0.45].

(** The inlet node 0 feeds nodes 1 and 2 through edges 0 and 1 (flows 2 and
    18); these feed node 3 through edges 2 and 3; of the flow 20 that reaches
    node 3, 19 leaves the network there and 1 goes on through edge 4 to the
    outlet node 4.  Nodes 0, 3 and 4 are boundary nodes. *)
Definition diamond : FlowNetwork :=
  mk_FlowNetwork [4e-6; 4e-6; 4e-6; 4e-6; 4e-6] (Some [5; 4; 3; 2; 1]) 5
                 [(0, 1); (0, 2); (1, 3); (2, 3); (3, 4)]%nat
                 [2; 18; 2; 18; 1] [0; 3; 4]%nat
                 [0.45; 0.45; 0.45; 0.45; 0.45] [0.3; 0.3; 0.3; 0.3; 0.3].

(** The inlet node 0 feeds the outlet node 1 through edge 0 (flow 1) and a
    side branch, edges 1 and 2 through node 2 to the blind end node 3, that
    carries no flow.  Nodes 0 and 1 are boundary nodes. *)
Definition dead_end : FlowNetwork :=
  mk_FlowNetwork [4e-6; 4e-6; 4e-6] (Some [4; 1; 3; 2]) 4
                 [(0, 1); (0, 2); (2, 3)]%nat
                 [1; 0; 0] [0; 1]%nat
                 [0.45; 0.45; 0.45] [0.3; 0.3; 0.3].

(** ** The other models of the discharge haematocrit *)

(** [DischargeHaematocritNewtonian.update_hd]: [flownetwork.hd = flownetwork.ht]. *)
Definition update_hd_Newtonian (fn : FlowNetwork) : list R := ht fn.

(** Equation 10 of Pries, Neuhaus and Gaehtgens (lines 94-95 and 121-122) for
    one vessel: [-x_bound / (2 - 2 * x_bound)
    + sqrt(square(x_bound / (2 - 2 * x_bound)) + ht / (1 - x_bound))].  The
    square root of a negative number (nan in numpy) raises. *)
Definition hd_of_ht (x_bound ht : R) : result R :=
  minus_half <- (- x_bound) // (2 - 2 * x_bound) ;;
  half <- x_bound // (2 - 2 * x_bound) ;;
  q <- ht // (1 - x_bound) ;;
  let radicand := half * half + q in
  if 0 <=? radicand then Ok (minus_half + sqrt radicand) else Raise ValueError.

(** Equation 9 of the paper of 1992 and equation 1 of the paper of 2005, for a
    diameter in micrometres. *)
Definition x_tmp_1992 (diameter_um : R) : R :=
  1 + 1.7 * exp (- 0.35 * diameter_um) - 0.6 * exp (- 0.01 * diameter_um).

Definition x_tmp_2005 (diameter_um : R) : R :=
  1 + 1.7 * exp (- 0.415 * diameter_um) - 0.6 * exp (- 0.011 * diameter_um).

(** One element of the arrays of [update_hd]: [x_bound] is [x_tmp], replaced
    by [bound] where [x_tmp > 0.99]; there the value of the formula is
    overwritten by [ht], whatever it was. *)
Definition vessel_hd (x_tmp bound ht : R) : result R :=
  let x_bound := if x_tmp >? 0.99 then bound else x_tmp in
  if x_tmp >? 0.99 then Ok ht else hd_of_ht x_bound ht.

(** Two arrays, element by element.  Arrays of different lengths do not
    combine: numpy raises [ValueError] in the arithmetic, or, when it can
    stretch an array of one element, [IndexError] at the mask
    [x_tmp > 0.99], which then has not the length of the array it indexes. *)
Fixpoint zipM (f : R -> R -> result R) (l1 l2 : list R) : result (list R) :=
  match l1, l2 with
  | [], [] => Ok []
  | x :: l1', y :: l2' => z <- f x y ;; zs <- zipM f l1' l2' ;; Ok (z :: zs)
  | _, _ => Raise ValueError
  end.

Definition elementwise (f : R -> R -> result R) (l1 l2 : list R) : result (list R) :=
  if Nat.eqb (length l1) (length l2) then zipM f l1 l2
  else if Nat.eqb (length l1) 1 || Nat.eqb (length l2) 1 then Raise IndexError
  else Raise ValueError.

(** [DischargeHaematocritVitroPries1992.update_hd] and
    [DischargeHaematocritVitroPries2005.update_hd]: the new [flownetwork.hd]. *)
Definition update_hd_Pries1992 (fn : FlowNetwork) : result (list R) :=
  elementwise (fun ht diameter => vessel_hd (x_tmp_1992 (1e6 * diameter)) 0.99 ht)
              (ht fn) (diameter fn).

Definition update_hd_Pries2005 (fn : FlowNetwork) : result (list R) :=
  elementwise (fun ht diameter => vessel_hd (x_tmp_2005 (1e6 * diameter)) 0 ht)
              (ht fn) (diameter fn).

(** ** The flow balance ([flow_balance.py]) *)

(** [a[i] += x] and [a[i] -= x]. *)
Definition add_at (a : list R) (i : nat) (x : R) : result (list R) :=
  v <- get a i ;; set a i (v + x).

Definition sub_at (a : list R) (i : nat) (x : R) : result (list R) :=
  v <- get a i ;; set a i (v - x).

(** The loop of [_get_flow_balance] over the edge ids. *)
Fixpoint flow_balance_loop (edge_list : list (nat * nat)) (flow_rate : list R)
  (eids : list nat) (flow_balance : list R) : result (list R) :=
  match eids with
  | [] => Ok flow_balance
  | eid :: rest =>
      e <- get edge_list eid ;;
      q <- get flow_rate eid ;;
      fb1 <- add_at flow_balance (fst e) q ;;
      fb2 <- sub_at fb1 (snd e) q ;;
      flow_balance_loop edge_list flow_rate rest fb2
  end.

(** [FlowBalance._get_flow_balance]; [nr_of_es] is [flownetwork.nr_of_es]. *)
Definition _get_flow_balance (fn : FlowNetwork) (nr_of_es : nat) : result (list R) :=
  flow_balance_loop (edge_list fn) (flow_rate fn) (seq 0 nr_of_es)
                    (repeat 0 (nr_of_vs fn)).

(** [flow_balance[is_inside_node]]: the entries of the nodes that are not in
    [boundary_vs]. *)
Fixpoint inside_entries (boundary_vs : list nat) (flow_balance : list R) (v : nat)
  : list R :=
  match flow_balance with
  | [] => []
  | x :: rest =>
      if isin v boundary_vs then inside_entries boundary_vs rest (S v)
      else x :: inside_entries boundary_vs rest (S v)
  end.

Definition sum_list (l : list R) : R := fold_right Rplus 0 l.

(** [np.mean]; the mean of no number (nan in numpy) raises. *)
Definition mean (l : list R) : result R := sum_list l // INR (length l).

(** [FlowBalance.check_flow_balance]: the new value of
    [flownetwork.tollerance].  The line printed on the first call is left
    out. *)
Definition check_flow_balance (fn : FlowNetwork) (nr_of_es : nat)
  (tollerance : option R) (tol : R) : result (option R) :=
  flow_balance <- _get_flow_balance fn nr_of_es ;;
  b0 <- get (boundary_vs fn) 0 ;;
  q0 <- get (flow_rate fn) b0 ;;
  let ref_flow := Rabs q0 in
  let tol_flow := tol * ref_flow in
  let local_balance := map Rabs (inside_entries (boundary_vs fn) flow_balance 0) in
  match tollerance with
  | None => m <- mean local_balance ;; Ok (Some m)
  | Some t =>
      if existsb (fun x => negb (x <? tol_flow)) local_balance then Raise SystemExit
      else
        balance_boundaries <- mapM (get flow_balance) (boundary_vs fn) ;;
        let global_balance := Rabs (sum_list balance_boundaries) in
        if global_balance <? tol_flow then Ok (Some t) else Raise SystemExit
  end.

(** ** What a step may change *)

(** The haematocrit array keeps its length and changes at the indices in
    [written] only; the count goes up by one at most. *)
Definition step_effect (written : list nat) (st st1 : pass_state) : Prop :=
  length (st_hd st1) = length (st_hd st) /\
  (forall j, ~ In j written -> nth_error (st_hd st1) j = nth_error (st_hd st) j) /\
  (rbc_balance st <= rbc_balance st1 <= rbc_balance st + 1)%nat /\
  exists lines, printed st1 = printed st ++ lines.

(** Four inlets 0 to 3 that meet at node 4, and one edge from node 4 to the
    outlet 5. *)
Definition star : FlowNetwork :=
  mk_FlowNetwork [4e-6; 4e-6; 4e-6; 4e-6; 4e-6] (Some [9; 8; 7; 6; 5; 4]) 6
                 [(0, 4); (1, 4); (2, 4); (3, 4); (4, 5)]%nat
                 [1; 1; 1; 1; 4] [0; 1; 2; 3; 5]%nat
                 [0.3; 0.3; 0.3; 0.3; 0.3] [0.3; 0.3; 0.3; 0.3; 0.3].


(** ** What the flow balance of a node is *)

(** The flow that leaves node [v] minus the flow that enters it, over the
    given edges and their flow rates. *)
Fixpoint net_outflow (edges : list (nat * nat)) (flows : list R) (v : nat) : R :=
  match edges, flows with
  | e :: edges', q :: flows' =>
      (if Nat.eqb (fst e) v then q else 0) - (if Nat.eqb (snd e) v then q else 0)
      + net_outflow edges' flows' v
  | _, _ => 0
  end.

(** Every edge id below [nr_of_es] has an edge and a flow rate, and both ends
    of the edge are node ids below [nr_of_vs]. *)
Definition edges_in_range (edges : list (nat * nat)) (flows : list R)
  (start nr_of_es nr_of_vs : nat) : Prop :=
  forall eid, (start <= eid < start + nr_of_es)%nat ->
    exists e q, nth_error edges eid = Some e /\ nth_error flows eid = Some q /\
                (fst e < nr_of_vs)%nat /\ (snd e < nr_of_vs)%nat.

(** * Properties *)

(** ** Comparisons and the error monad *)

Lemma Rle_b_true (x y : R) : (x <=? y) = true <-> x <= y.
Proof. unfold Rle_b. destruct (Rle_dec x y); split; intros; auto; discriminate. Qed.

Lemma Rle_b_false (x y : R) : (x <=? y) = false <-> y < x.
Proof.
  unfold Rle_b. destruct (Rle_dec x y); split; intros; auto; try discriminate; lra.
Qed.

Lemma Rlt_b_true (x y : R) : (x <? y) = true <-> x < y.
Proof. unfold Rlt_b. destruct (Rlt_dec x y); split; intros; auto; discriminate. Qed.

Lemma Rlt_b_false (x y : R) : (x <? y) = false <-> y <= x.
Proof.
  unfold Rlt_b. destruct (Rlt_dec x y); split; intros; auto; try discriminate; lra.
Qed.

Lemma Req_b_true (x y : R) : (x =? y) = true <-> x = y.
Proof. unfold Req_b. destruct (Req_dec_T x y); split; intros; auto; discriminate. Qed.

Lemma Req_b_false (x y : R) : (x =? y) = false <-> x <> y.
Proof.
  unfold Req_b. destruct (Req_dec_T x y); split; intros; auto; try discriminate.
  contradiction.
Qed.

Lemma fdiv_Ok (x y : R) : y <> 0 -> x // y = Ok (x / y).
Proof. intros H. unfold fdiv. apply Req_b_false in H. now rewrite H. Qed.

Lemma fdiv_inv (x y z : R) : x // y = Ok z -> y <> 0 /\ z = x / y.
Proof.
  unfold fdiv. destruct (y =? 0) eqn:E; [discriminate|].
  intros H. injection H as <-. apply Req_b_false in E. auto.
Qed.

Lemma bind_Ok {A B : Type} (c : result A) (k : A -> result B) (b : B) :
  bind c k = Ok b -> exists a, c = Ok a /\ k a = Ok b.
Proof. destruct c; simpl; intros H; [eauto | discriminate]. Qed.

(** Turns the boolean tests among the hypotheses into (in)equalities. *)
Ltac reflect_tests :=
  repeat match goal with
    | H : (_ <=? _) = true |- _ => apply Rle_b_true in H
    | H : (_ <=? _) = false |- _ => apply Rle_b_false in H
    | H : (_ <? _) = true |- _ => apply Rlt_b_true in H
    | H : (_ <? _) = false |- _ => apply Rlt_b_false in H
    | H : (_ =? _) = true |- _ => apply Req_b_true in H
    | H : (_ =? _) = false |- _ => apply Req_b_false in H
    | H : _ && _ = true |- _ => apply andb_true_iff in H; destruct H
    | H : _ || _ = false |- _ => apply orb_false_iff in H; destruct H
    end.

(** Opens one [bind] of a hypothesis [H : ... = Ok _]. *)
Ltac open_bind H :=
  let a := fresh "a" in
  let Ha := fresh "Ha" in
  apply bind_Ok in H; destruct H as (a & Ha & H).

Ltac open_div H :=
  let n := fresh "Hnz" in
  apply fdiv_inv in H; destruct H as (n & H).

(** ** The phase separation law *)

(** The two shares add up to one. *)
Lemma rbc_shares_sum (ff x_0 A B sa sb : R) :
  rbc_shares ff x_0 A B = Ok (sa, sb) -> sa + sb = 1.
Proof.
  unfold rbc_shares.
  destruct (ff <=? x_0).
  - intros H; injection H as <- <-; lra.
  - destruct ((x_0 <? ff) && (ff <? 1 - x_0)).
    + intros H. open_bind H. open_bind H.
      injection H as <- <-. lra.
    + destruct (ff >=? 1 - x_0); [|discriminate].
      intros H; injection H as <- <-; lra.
Qed.

(** The logistic function takes its values strictly between 0 and 1. *)
Lemma logistic_range (x : R) : 0 < exp x / (1 + exp x) < 1.
Proof.
  pose proof (exp_pos x) as H. split.
  - apply Rdiv_lt_0_compat; lra.
  - apply (Rmult_lt_reg_r (1 + exp x)); [lra|].
    unfold Rdiv. rewrite Rmult_assoc, Rinv_l by lra. lra.
Qed.

(** The redistribution moves a share from one daughter to the other, and
    both haematocrits are recomputed from the moved shares. *)
Lemma redistribute_shares (sa sb ha hb q fa fb sa1 sb1 ha1 hb1 : R) :
  fa <> 0 -> fb <> 0 ->
  ha = sa * q / fa -> hb = sb * q / fb ->
  redistribute sa sb ha hb q fa fb = Ok (sa1, sb1, ha1, hb1) ->
  sa1 + sb1 = sa + sb /\ ha1 = sa1 * q / fa /\ hb1 = sb1 * q / fb.
Proof.
  intros Hfa Hfb Ha Hb. unfold redistribute.
  destruct (hb >=? threshold).
  - intros H. open_bind H. open_bind H. open_bind H.
    open_div Ha0. open_div Ha1. open_div Ha2.
    injection H as <- <- <- <-. subst. repeat split; lra.
  - destruct (ha >=? threshold).
    + intros H. open_bind H. open_bind H. open_bind H.
      open_div Ha0. open_div Ha1. open_div Ha2.
      injection H as <- <- <- <-. subst. repeat split; lra.
    + intros H. injection H as <- <- <- <-. auto.
Qed.

Lemma share_to_hemat_valid (sa sb q fa fb ha hb : R) :
  1E-36 <= fa -> 1E-36 <= fb ->
  share_to_hemat sa sb q fa fb = Ok (ha, hb) ->
  ha = sa * q / fa /\ hb = sb * q / fb.
Proof.
  intros Hfa Hfb. unfold share_to_hemat.
  apply Rlt_b_false in Hfa, Hfb. rewrite Hfa, Hfb.
  intros H. open_bind H. open_bind H. open_div Ha. open_div Ha0.
  injection H as <- <-. subst; auto.
Qed.

(** The stages of a call that gets to the last test. *)
Lemma split_haematocrit_Ok (hp dp da db fp fa fb ha hb : R) (e : split_log) :
  split_haematocrit hp dp da db fp fa fb = Ok (ha, hb, e) ->
  exists x_0 A B sa sb ha0 hb0 sa1 sb1,
    fa + fb <> 0 /\
    non_dimentional_param hp dp da db = Ok (x_0, A, B) /\
    rbc_shares (fa / (fa + fb)) x_0 A B = Ok (sa, sb) /\
    share_to_hemat sa sb (hp * fp) fa fb = Ok (ha0, hb0) /\
    redistribute sa sb ha0 hb0 (hp * fp) fa fb = Ok (sa1, sb1, ha, hb) /\
    e = mk_split_log sa1 sb1 (fa / (fa + fb)) (fb / (fa + fb)) hp.
Proof.
  unfold split_haematocrit. intros H.
  open_bind H. open_bind H. open_bind H. destruct a1 as [[x_0 A] B].
  open_bind H. destruct a1 as [sa sb]. open_bind H. destruct a1 as [ha0 hb0].
  open_bind H. destruct a1 as [[[sa1 sb1] ha1] hb1].
  injection H as <- <- <-.
  open_div Ha. open_div Ha0. subst.
  exists x_0, A, B, sa, sb, ha0, hb0, sa1, sb1. repeat split; auto.
Qed.

(** A call returns what the stages computed, and only values below 1. *)
Lemma get_erythrocyte_fraction_inv (hp dp da db fp fa fb ha hb : R) (e : split_log) :
  get_erythrocyte_fraction hp dp da db fp fa fb = Ok (ha, hb, e) ->
  split_haematocrit hp dp da db fp fa fb = Ok (ha, hb, e) /\ ha < 1 /\ hb < 1.
Proof.
  unfold get_erythrocyte_fraction. intros H.
  open_bind H. destruct a as [[ha1 hb1] e1].
  destruct ((ha1 >=? 1) || (hb1 >=? 1)) eqn:G; [discriminate|].
  injection H as <- <- <-. reflect_tests. auto.
Qed.

Lemma get_erythrocyte_fraction_Ok (hp dp da db fp fa fb ha hb : R) (e : split_log) :
  get_erythrocyte_fraction hp dp da db fp fa fb = Ok (ha, hb, e) ->
  exists x_0 A B sa sb ha0 hb0 sa1 sb1,
    fa + fb <> 0 /\
    non_dimentional_param hp dp da db = Ok (x_0, A, B) /\
    rbc_shares (fa / (fa + fb)) x_0 A B = Ok (sa, sb) /\
    share_to_hemat sa sb (hp * fp) fa fb = Ok (ha0, hb0) /\
    redistribute sa sb ha0 hb0 (hp * fp) fa fb = Ok (sa1, sb1, ha, hb) /\
    ha < 1 /\ hb < 1 /\
    e = mk_split_log sa1 sb1 (fa / (fa + fb)) (fb / (fa + fb)) hp.
Proof.
  intros H. apply get_erythrocyte_fraction_inv in H. destruct H as (H & Ha & Hb).
  apply split_haematocrit_Ok in H.
  destruct H as (x_0 & A & B & sa & sb & ha0 & hb0 & sa1 & sb1 & H).
  exists x_0, A, B, sa, sb, ha0, hb0, sa1, sb1. tauto.
Qed.

(** Exact form of the balance of red blood cells over a valid split. *)
Lemma get_erythrocyte_fraction_balance_exact
  (hp dp da db fp fa fb ha hb : R) (e : split_log) :
  1E-36 <= fa -> 1E-36 <= fb ->
  get_erythrocyte_fraction hp dp da db fp fa fb = Ok (ha, hb, e) ->
  ha * fa + hb * fb = hp * fp.
Proof.
  intros Hfa Hfb H.
  apply get_erythrocyte_fraction_Ok in H.
  destruct H as (x_0 & A & B & sa & sb & ha0 & hb0 & sa1 & sb1 &
                 Hs & Hp & Hsh & Hh & Hr & _).
  apply rbc_shares_sum in Hsh.
  apply share_to_hemat_valid in Hh; auto. destruct Hh as [Eha Ehb].
  assert (fa <> 0) by lra. assert (fb <> 0) by lra.
  destruct (redistribute_shares _ _ _ _ _ _ _ _ _ _ _ H H0 Eha Ehb Hr)
    as (Hsum & -> & ->).
  replace (sa1 * (hp * fp) / fa * fa + sb1 * (hp * fp) / fb * fb)
    with ((sa1 + sb1) * (hp * fp)) by (field; auto).
  rewrite Hsum, Hsh. lra.
Qed.

(** Evaluation of the float tests and divisions of a goal whose numbers are
    literals. *)
Ltac float_step :=
  match goal with
  | |- context [Rle_b ?x ?y] =>
      first [ replace (Rle_b x y) with true by (symmetry; apply Rle_b_true; lra)
            | replace (Rle_b x y) with false by (symmetry; apply Rle_b_false; lra) ]
  | |- context [Rlt_b ?x ?y] =>
      first [ replace (Rlt_b x y) with true by (symmetry; apply Rlt_b_true; lra)
            | replace (Rlt_b x y) with false by (symmetry; apply Rlt_b_false; lra) ]
  | |- context [fdiv ?x ?y] => rewrite (fdiv_Ok x y) by lra
  end.

Ltac float_eval := repeat (float_step; cbn [bind andb orb]).

Ltac law_eval :=
  unfold get_erythrocyte_fraction, split_haematocrit, non_dimentional_param,
    x_o_init, A_o_init, B_o_init; float_eval;
  unfold rbc_shares; float_eval;
  unfold share_to_hemat; float_eval;
  unfold redistribute, threshold; float_eval.

(** *** Calls on literal arguments *)

(** A parent of 4 micrometres with haematocrit 0.5 and flow 10, split 1 to
    9: daughter a is below the threshold [x_0 = 0.14] and gets no red
    cells. *)
Lemma split_1_9 :
  get_erythrocyte_fraction 0.5 4e-6 4e-6 4e-6 10 1 9
  = Ok (0 * (0.5 * 10) / 1, 1 * (0.5 * 10) / 9,
        mk_split_log 0 1 (1 / (1 + 9)) (9 / (1 + 9)) 0.5).
Proof. law_eval. reflexivity. Qed.

(** The same split of a parent of 1 micrometre with haematocrit 0.9:
    [x_0 = 0.112], daughter b would be at 1.0, and the surplus 0.01 goes to
    daughter a. *)
Lemma split_1_9_saturated :
  get_erythrocyte_fraction 0.9 1e-6 1e-6 1e-6 10 1 9
  = Ok ((0 + (1 * (0.9 * 10) / 9 - 0.99) * 9 / (0.9 * 10)) * (0.9 * 10) / 1,
        (1 - (1 * (0.9 * 10) / 9 - 0.99) * 9 / (0.9 * 10)) * (0.9 * 10) / 9,
        mk_split_log (0 + (1 * (0.9 * 10) / 9 - 0.99) * 9 / (0.9 * 10))
                     (1 - (1 * (0.9 * 10) / 9 - 0.99) * 9 / (0.9 * 10))
                     (1 / (1 + 9)) (9 / (1 + 9)) 0.9).
Proof. law_eval. reflexivity. Qed.

(** Both daughter flows below 1E-36, daughter a with nine tenths of the
    flow: the share of b is 0 and the haematocrit of a is set to 0. *)
Lemma split_both_tiny :
  get_erythrocyte_fraction 0.5 4e-6 4e-6 4e-6 1e-36 9e-37 1e-37
  = Ok (0, 0 * (0.5 * 1e-36) / 1e-37,
        mk_split_log 1 0 (9e-37 / (9e-37 + 1e-37)) (1e-37 / (9e-37 + 1e-37)) 0.5).
Proof. law_eval. reflexivity. Qed.

(** A parent with haematocrit 0.9901 and diameter 1 micrometre, flow 1000
    split 11 to 989. *)
Lemma split_11_989 :
  get_erythrocyte_fraction 0.9901 1e-6 1e-6 1e-6 1000 11 989
  = Ok ((0 + (1 * (0.9901 * 1000) / 989 - 0.99) * 989 / (0.9901 * 1000))
          * (0.9901 * 1000) / 11,
        (1 - (1 * (0.9901 * 1000) / 989 - 0.99) * 989 / (0.9901 * 1000))
          * (0.9901 * 1000) / 989,
        mk_split_log (0 + (1 * (0.9901 * 1000) / 989 - 0.99) * 989 / (0.9901 * 1000))
                     (1 - (1 * (0.9901 * 1000) / 989 - 0.99) * 989 / (0.9901 * 1000))
                     (11 / (11 + 989)) (989 / (11 + 989)) 0.9901).
Proof. law_eval. reflexivity. Qed.

(** No flow in daughter a, and no flow in daughter b. *)
Lemma split_0_9 :
  get_erythrocyte_fraction 0.5 4e-6 4e-6 4e-6 9 0 9
  = Ok (0, 1 * (0.5 * 9) / 9, mk_split_log 0 1 (0 / (0 + 9)) (9 / (0 + 9)) 0.5).
Proof. law_eval. reflexivity. Qed.

Lemma split_9_0 :
  get_erythrocyte_fraction 0.5 4e-6 4e-6 4e-6 9 9 0
  = Ok (1 * (0.5 * 9) / 9, 0, mk_split_log 1 0 (9 / (9 + 0)) (0 / (9 + 0)) 0.5).
Proof. law_eval. reflexivity. Qed.


(** An even split of a parent of 4 micrometres with haematocrit 0.4: the
    fractional flow 0.5 lies between [x_0 = 0.168] and [1 - x_0], and the
    share of a is the value of the logistic function. *)
Lemma split_even :
  exists share_a : R,
    0 < share_a < 1 /\
    get_erythrocyte_fraction 0.4 4e-6 4e-6 4e-6 2 1 1
    = Ok (share_a * (0.4 * 2) / 1, (1 - share_a) * (0.4 * 2) / 1,
          mk_split_log share_a (1 - share_a) (1 / (1 + 1)) (1 / (1 + 1)) 0.4).
Proof.
  eexists. split; [apply logistic_range|].
  unfold get_erythrocyte_fraction, split_haematocrit, non_dimentional_param,
    x_o_init, A_o_init, B_o_init. float_eval.
  unfold rbc_shares. float_eval. unfold _logit. float_eval.
  match goal with
  | |- context [exp ?x / (1 + exp ?x)] =>
      pose proof (logistic_range x) as Hs; set (s := exp x / (1 + exp x)) in *
  end.
  unfold share_to_hemat. float_eval.
  unfold redistribute, threshold. float_eval.
  reflexivity.
Qed.

Lemma params_1um :
  non_dimentional_param 0.9 1e-6 1e-6 1e-6
  = Ok (x_o_init * (1 - 0.9) / (1e-6 * 1E6),
        - A_o_init * (((1e-6 * 1E6) ^ 2 - (1e-6 * 1E6) ^ 2)
                      / ((1e-6 * 1E6) ^ 2 + (1e-6 * 1E6) ^ 2)) * (1 - 0.9) / (1e-6 * 1E6),
        1 + B_o_init * (1 - 0.9) / (1e-6 * 1E6)).
Proof.
  unfold non_dimentional_param, x_o_init, A_o_init, B_o_init. float_eval. reflexivity.
Qed.

Lemma params_4um :
  non_dimentional_param 0.5 4e-6 4e-6 4e-6
  = Ok (x_o_init * (1 - 0.5) / (4e-6 * 1E6),
        - A_o_init * (((4e-6 * 1E6) ^ 2 - (4e-6 * 1E6) ^ 2)
                      / ((4e-6 * 1E6) ^ 2 + (4e-6 * 1E6) ^ 2)) * (1 - 0.5) / (4e-6 * 1E6),
        1 + B_o_init * (1 - 0.5) / (4e-6 * 1E6)).
Proof.
  unfold non_dimentional_param, x_o_init, A_o_init, B_o_init. float_eval. reflexivity.
Qed.

(** *** The regions, the guard against tiny flows, the redistribution *)

Lemma rbc_shares_low (ff x_0 A B : R) :
  ff <= x_0 -> rbc_shares ff x_0 A B = Ok (0, 1).
Proof. intros H. unfold rbc_shares. apply Rle_b_true in H. now rewrite H. Qed.

Lemma rbc_shares_high (ff x_0 A B : R) :
  x_0 < ff -> 1 - x_0 <= ff -> rbc_shares ff x_0 A B = Ok (1, 0).
Proof.
  intros H1 H2. unfold rbc_shares.
  assert (E1 : (ff <=? x_0) = false) by (apply Rle_b_false; lra).
  assert (E2 : (ff <? 1 - x_0) = false) by (apply Rlt_b_false; lra).
  assert (E3 : (ff >=? 1 - x_0) = true) by (apply Rle_b_true; lra).
  rewrite E1, E2, E3, andb_false_r. reflexivity.
Qed.


Lemma redistribute_none (sa sb ha hb q fa fb : R) :
  hb < 0.99 -> ha < 0.99 ->
  redistribute sa sb ha hb q fa fb = Ok (sa, sb, ha, hb).
Proof.
  intros H1 H2. unfold redistribute, threshold.
  assert (E1 : (hb >=? 0.99) = false) by (apply Rle_b_false; lra).
  assert (E2 : (ha >=? 0.99) = false) by (apply Rle_b_false; lra).
  now rewrite E1, E2.
Qed.

Lemma share_to_hemat_tiny_a (sa sb q fa fb ha hb : R) :
  fa < 1E-36 ->
  share_to_hemat sa sb q fa fb = Ok (ha, hb) ->
  fb <> 0 /\ ha = 0 /\ hb = sb * q / fb.
Proof.
  intros Hfa. unfold share_to_hemat. apply Rlt_b_true in Hfa. rewrite Hfa.
  intros H. open_bind H. open_div Ha. injection H as <- <-. subst; auto.
Qed.

Lemma share_to_hemat_tiny_b (sa sb q fa fb ha hb : R) :
  1E-36 <= fa -> fb < 1E-36 ->
  share_to_hemat sa sb q fa fb = Ok (ha, hb) ->
  ha = sa * q / fa /\ hb = 0.
Proof.
  intros Hfa Hfb. unfold share_to_hemat.
  apply Rlt_b_false in Hfa. apply Rlt_b_true in Hfb. rewrite Hfa, Hfb.
  intros H. open_bind H. open_div Ha. injection H as <- <-. subst; auto.
Qed.



(** ** C1: balance of red blood cells over a valid split *)

(** C1.  For every call of [get_erythrocyte_fraction] that returns and in
    which both daughter flows are at least 1E-36, the red cell flux of the
    daughters, [hemat_a * flow_a + hemat_b * flow_b], equals the flux of the
    parent, [hemat_par * flow_parent], within 1E-5 (in exact arithmetic the
    two are equal). *)
Theorem get_erythrocyte_fraction_rbc_balance
  (hemat_par diam_par diam_a diam_b flow_parent flow_a flow_b : R)
  (hemat_a hemat_b : R) (entry : split_log) :
  1E-36 <= flow_a -> 1E-36 <= flow_b ->
  get_erythrocyte_fraction hemat_par diam_par diam_a diam_b flow_parent flow_a flow_b
  = Ok (hemat_a, hemat_b, entry) ->
  Rabs (hemat_a * flow_a + hemat_b * flow_b - hemat_par * flow_parent) <= 1E-5.
Proof.
  intros Ha Hb H.
  rewrite (get_erythrocyte_fraction_balance_exact _ _ _ _ _ _ _ _ _ _ Ha Hb H).
  rewrite Rminus_diag, Rabs_R0. lra.
Qed.

Lemma get_erythrocyte_fraction_rbc_balance_witness :
  Rabs ((0 + (1 * (0.9 * 10) / 9 - 0.99) * 9 / (0.9 * 10)) * (0.9 * 10) / 1 * 1
        + (1 - (1 * (0.9 * 10) / 9 - 0.99) * 9 / (0.9 * 10)) * (0.9 * 10) / 9 * 9
        - 0.9 * 10) <= 1E-5.
Proof.
  apply (get_erythrocyte_fraction_rbc_balance 0.9 1e-6 1e-6 1e-6 10 1 9 _ _
           (mk_split_log (0 + (1 * (0.9 * 10) / 9 - 0.99) * 9 / (0.9 * 10))
                         (1 - (1 * (0.9 * 10) / 9 - 0.99) * 9 / (0.9 * 10))
                         (1 / (1 + 9)) (9 / (1 + 9)) 0.9)).
  - lra.
  - lra.
  - exact split_1_9_saturated.
Defined.

(** ** C4: the guard against tiny flows *)

(** C4, as stated, fails.  With both daughter flows below 1E-36 and nine
    tenths of the flow in daughter a, the share of daughter b is 0; the guard
    sets the haematocrit of a to 0 and leaves b with its share, so the call
    returns (0, 0) where the claim has (0, 5). *)
Lemma tiny_flow_a_not_all_to_b :
  9e-37 < 1E-36 /\
  exists hemat_a hemat_b entry,
    get_erythrocyte_fraction 0.5 4e-6 4e-6 4e-6 1e-36 9e-37 1e-37
    = Ok (hemat_a, hemat_b, entry) /\
    hemat_a = 0 /\ hemat_b = 0 /\ 1e-36 * 0.5 / 1e-37 = 5 /\
    hemat_b <> 1e-36 * 0.5 / 1e-37.
Proof.
  split; [lra|].
  eexists _, _, _. split; [exact split_both_tiny|].
  repeat split; lra.
Qed.

(** C4, amended.  When [flow_a < 1E-36] and the haematocrit computed for b
    stays below 0.99, the call returns 0 for a and, for b, the share of b
    under the three region law times the red cell flux of the parent over
    [flow_b]; that is all red cells of the parent,
    [flow_parent * hemat_par / flow_b], when the fractional flow of a is at
    most [x_0].  When [flow_a >= 1E-36], [flow_b < 1E-36] and the haematocrit
    computed for a stays below 0.99, it returns 0 for b and the share of a
    for a, all red cells when the fractional flow of a is above [x_0] and at
    least [1 - x_0]. *)
Theorem tiny_flow_guard
  (hemat_par diam_par diam_a diam_b flow_parent flow_a flow_b : R)
  (x_0 A B share_a share_b hemat_a hemat_b : R) (entry : split_log) :
  non_dimentional_param hemat_par diam_par diam_a diam_b = Ok (x_0, A, B) ->
  rbc_shares (flow_a / (flow_a + flow_b)) x_0 A B = Ok (share_a, share_b) ->
  get_erythrocyte_fraction hemat_par diam_par diam_a diam_b flow_parent flow_a flow_b
  = Ok (hemat_a, hemat_b, entry) ->
  (flow_a < 1E-36 ->
   share_b * (hemat_par * flow_parent) / flow_b < 0.99 ->
   hemat_a = 0 /\ hemat_b = share_b * (hemat_par * flow_parent) / flow_b /\
   (flow_a / (flow_a + flow_b) <= x_0 ->
    hemat_b = flow_parent * hemat_par / flow_b))
  /\
  (1E-36 <= flow_a -> flow_b < 1E-36 ->
   share_a * (hemat_par * flow_parent) / flow_a < 0.99 ->
   hemat_b = 0 /\ hemat_a = share_a * (hemat_par * flow_parent) / flow_a /\
   (x_0 < flow_a / (flow_a + flow_b) -> 1 - x_0 <= flow_a / (flow_a + flow_b) ->
    hemat_a = flow_parent * hemat_par / flow_a)).
Proof.
  intros Hp Hs H.
  apply get_erythrocyte_fraction_Ok in H.
  destruct H as (x_0' & A' & B' & sa & sb & ha0 & hb0 & sa1 & sb1 &
                 Hnz & Hp' & Hs' & Hh & Hr & _).
  rewrite Hp in Hp'. injection Hp' as <- <- <-.
  rewrite Hs in Hs'. injection Hs' as <- <-.
  split.
  - intros Hfa Hlt.
    apply share_to_hemat_tiny_a in Hh; auto. destruct Hh as (Hfb & -> & ->).
    rewrite redistribute_none in Hr by lra.
    injection Hr as _ _ <- <-.
    repeat split; auto.
    intros Hlow. rewrite (rbc_shares_low _ _ A B Hlow) in Hs.
    injection Hs as _ <-. field; auto.
  - intros Hfa Hfb Hlt.
    apply share_to_hemat_tiny_b in Hh; auto. destruct Hh as (-> & ->).
    rewrite redistribute_none in Hr by lra.
    injection Hr as _ _ <- <-.
    repeat split; auto.
    intros H1 H2. rewrite (rbc_shares_high _ _ A B H1 H2) in Hs.
    injection Hs as <- _. field; lra.
Qed.

Lemma tiny_flow_guard_witness :
  (0 = 0 /\ 1 * (0.5 * 9) / 9 = 1 * (0.5 * 9) / 9 /\
   (0 / (0 + 9) <= x_o_init * (1 - 0.5) / (4e-6 * 1E6) ->
    1 * (0.5 * 9) / 9 = 9 * 0.5 / 9))
  /\
  (0 = 0 /\ 1 * (0.5 * 9) / 9 = 1 * (0.5 * 9) / 9 /\
   (x_o_init * (1 - 0.5) / (4e-6 * 1E6) < 9 / (9 + 0) ->
    1 - x_o_init * (1 - 0.5) / (4e-6 * 1E6) <= 9 / (9 + 0) ->
    1 * (0.5 * 9) / 9 = 9 * 0.5 / 9)).
Proof.
  split.
  - refine (proj1 (tiny_flow_guard 0.5 4e-6 4e-6 4e-6 9 0 9 _ _ _ 0 1 0 _ _
                     params_4um _ split_0_9) _ _).
    + apply rbc_shares_low. unfold x_o_init. lra.
    + lra.
    + lra.
  - refine (proj2 (tiny_flow_guard 0.5 4e-6 4e-6 4e-6 9 9 0 _ _ _ 1 0 _ 0 _
                     params_4um _ split_9_0) _ _ _).
    + apply rbc_shares_high; unfold x_o_init; lra.
    + lra.
    + lra.
    + lra.
Defined.

(** ** C5: the two outer regions *)

(** C5, as stated, fails.  Parent of 1 micrometre with haematocrit 0.9, flow
    10 split 1 to 9: the fractional flow of a, 0.1, is below [x_0 = 0.112],
    and the call returns (0.09, 0.99) where the claim has (0, 1). *)
Lemma low_region_not_exact :
  exists x_0 A B hemat_a hemat_b entry,
    non_dimentional_param 0.9 1e-6 1e-6 1e-6 = Ok (x_0, A, B) /\
    1 / (1 + 9) <= x_0 /\
    get_erythrocyte_fraction 0.9 1e-6 1e-6 1e-6 10 1 9 = Ok (hemat_a, hemat_b, entry) /\
    hemat_a = 0.09 /\ hemat_b = 0.99 /\ 10 * 0.9 / 9 = 1 /\
    (hemat_a, hemat_b) <> (0, 10 * 0.9 / 9).
Proof.
  eexists _, _, _, _, _, _. split; [|split; [|split; [exact split_1_9_saturated|]]].
  - unfold non_dimentional_param, x_o_init, A_o_init, B_o_init. float_eval.
    reflexivity.
  - unfold x_o_init. lra.
  - repeat split; try lra.
    intros E. injection E as E1 E2. lra.
Qed.

(** C5, amended.  Whenever the fractional flow of a is at most [x_0], the
    guard against tiny flows does not zero daughter b ([flow_a < 1E-36] or
    [flow_b >= 1E-36]) and [flow_parent * hemat_par / flow_b] is below 0.99,
    a call that returns has exactly [(0, flow_parent * hemat_par / flow_b)].
    Whenever the fractional flow of a is above [x_0] and at least [1 - x_0],
    [flow_a >= 1E-36] and [flow_parent * hemat_par / flow_a] is below 0.99,
    it has exactly [(flow_parent * hemat_par / flow_a, 0)]. *)
Theorem outer_regions_exact
  (hemat_par diam_par diam_a diam_b flow_parent flow_a flow_b : R)
  (x_0 A B hemat_a hemat_b : R) (entry : split_log) :
  non_dimentional_param hemat_par diam_par diam_a diam_b = Ok (x_0, A, B) ->
  get_erythrocyte_fraction hemat_par diam_par diam_a diam_b flow_parent flow_a flow_b
  = Ok (hemat_a, hemat_b, entry) ->
  (flow_a / (flow_a + flow_b) <= x_0 ->
   flow_a < 1E-36 \/ 1E-36 <= flow_b ->
   flow_parent * hemat_par / flow_b < 0.99 ->
   (hemat_a, hemat_b) = (0, flow_parent * hemat_par / flow_b))
  /\
  (x_0 < flow_a / (flow_a + flow_b) -> 1 - x_0 <= flow_a / (flow_a + flow_b) ->
   1E-36 <= flow_a ->
   flow_parent * hemat_par / flow_a < 0.99 ->
   (hemat_a, hemat_b) = (flow_parent * hemat_par / flow_a, 0)).
Proof.
  intros Hp H.
  apply get_erythrocyte_fraction_Ok in H.
  destruct H as (x_0' & A' & B' & sa & sb & ha0 & hb0 & sa1 & sb1 &
                 Hnz & Hp' & Hs & Hh & Hr & _).
  rewrite Hp in Hp'. injection Hp' as <- <- <-.
  split.
  - intros Hlow Hg Hlt.
    rewrite (rbc_shares_low _ _ A B Hlow) in Hs. injection Hs as <- <-.
    assert (E : ha0 = 0 /\ hb0 = flow_parent * hemat_par / flow_b).
    { destruct (Rlt_le_dec flow_a 1E-36) as [Hfa|Hfa].
      - apply share_to_hemat_tiny_a in Hh; auto. destruct Hh as (Hfb & -> & ->).
        split; [reflexivity | field; auto].
      - destruct Hg as [Hg|Hg]; [lra|].
        apply share_to_hemat_valid in Hh; auto. destruct Hh as (-> & ->).
        split; field; lra. }
    destruct E as [-> ->].
    rewrite redistribute_none in Hr by lra.
    injection Hr as _ _ <- <-. reflexivity.
  - intros H1 H2 Hfa Hlt.
    rewrite (rbc_shares_high _ _ A B H1 H2) in Hs. injection Hs as <- <-.
    assert (E : ha0 = flow_parent * hemat_par / flow_a /\ hb0 = 0).
    { destruct (Rlt_le_dec flow_b 1E-36) as [Hfb|Hfb].
      - apply share_to_hemat_tiny_b in Hh; auto. destruct Hh as (-> & ->).
        split; [field; lra | reflexivity].
      - pose proof Hh as Hh'. apply share_to_hemat_valid in Hh; auto.
        destruct Hh as (-> & ->). split; field; lra. }
    destruct E as [-> ->].
    rewrite redistribute_none in Hr by lra.
    injection Hr as _ _ <- <-. reflexivity.
Qed.

Lemma outer_regions_exact_witness :
  (0 * (0.5 * 10) / 1, 1 * (0.5 * 10) / 9) = (0, 10 * 0.5 / 9) /\
  (1 * (0.5 * 9) / 9, 0) = (9 * 0.5 / 9, 0).
Proof.
  split.
  - refine (proj1 (outer_regions_exact 0.5 4e-6 4e-6 4e-6 10 1 9 _ _ _ _ _ _
                     params_4um split_1_9) _ _ _).
    + unfold x_o_init. lra.
    + right. lra.
    + lra.
  - refine (proj2 (outer_regions_exact 0.5 4e-6 4e-6 4e-6 9 9 0 _ _ _ _ _ _
                     params_4um split_9_0) _ _ _ _).
    + unfold x_o_init. lra.
    + unfold x_o_init. lra.
    + lra.
    + lra.
Defined.

(** ** C6: the redistribution above 0.99 *)

(** The three ways through [redistribute] for haematocrits computed from
    the shares. *)
Lemma redistribute_cases (sa sb q fa fb sa1 sb1 ha hb : R) :
  fa <> 0 -> fb <> 0 ->
  redistribute sa sb (sa * q / fa) (sb * q / fb) q fa fb = Ok (sa1, sb1, ha, hb) ->
  (0.99 <= sb * q / fb /\ hb = 0.99 /\
   ha = sa * q / fa + (sb * q / fb - 0.99) * fb / fa)
  \/ (sb * q / fb < 0.99 /\ 0.99 <= sa * q / fa /\ ha = 0.99 /\
      hb = sb * q / fb + (sa * q / fa - 0.99) * fa / fb)
  \/ (sb * q / fb < 0.99 /\ sa * q / fa < 0.99 /\
      ha = sa * q / fa /\ hb = sb * q / fb).
Proof.
  intros Hfa Hfb. unfold redistribute, threshold.
  destruct (sb * q / fb >=? 0.99) eqn:E1.
  - intros H. open_bind H. open_bind H. open_bind H.
    open_div Ha. open_div Ha0. open_div Ha1.
    injection H as <- <- <- <-. subst. reflect_tests.
    left. repeat split; auto; field; auto.
  - destruct (sa * q / fa >=? 0.99) eqn:E2.
    + intros H. open_bind H. open_bind H. open_bind H.
      open_div Ha. open_div Ha0. open_div Ha1.
      injection H as <- <- <- <-. subst. reflect_tests.
      right; left. repeat split; auto; field; auto.
    + intros H. injection H as <- <- <- <-. reflect_tests.
      right; right. auto.
Qed.

(** C6, as stated, fails.  Parent of 1 micrometre with haematocrit 0.9901,
    flow 1000 split 11 to 989: the haematocrit computed for b is above 0.99,
    b is set back to 0.99, and a, which takes the surplus, is returned with
    10.99 / 11, above 0.999. *)
Lemma redistribution_exceeds_threshold :
  exists hemat_a hemat_b entry,
    get_erythrocyte_fraction 0.9901 1e-6 1e-6 1e-6 1000 11 989
    = Ok (hemat_a, hemat_b, entry) /\
    0.99 <= 1 * (0.9901 * 1000) / 989 /\
    hemat_b = 0.99 /\ hemat_a = 10.99 / 11 /\ 0.999 < hemat_a.
Proof.
  eexists _, _, _. split; [exact split_11_989|].
  repeat split; lra.
Qed.

(** C6, amended.  On a valid split, when the haematocrit computed for one
    daughter is 0.99 or more, the call moves the surplus to the other
    daughter: the daughter that was over is returned with exactly 0.99, the
    other with what it had plus the surplus (b is looked at first, and only
    one daughter is treated).  The daughter that takes the surplus can come
    out above 0.99; neither does when the flows add up
    ([flow_parent = flow_a + flow_b]) and the parent is at most at 0.99. *)
Theorem redistribution_result
  (hemat_par diam_par diam_a diam_b flow_parent flow_a flow_b : R)
  (x_0 A B share_a share_b hemat_a hemat_b : R) (entry : split_log) :
  1E-36 <= flow_a -> 1E-36 <= flow_b ->
  non_dimentional_param hemat_par diam_par diam_a diam_b = Ok (x_0, A, B) ->
  rbc_shares (flow_a / (flow_a + flow_b)) x_0 A B = Ok (share_a, share_b) ->
  get_erythrocyte_fraction hemat_par diam_par diam_a diam_b flow_parent flow_a flow_b
  = Ok (hemat_a, hemat_b, entry) ->
  let computed_a := share_a * (hemat_par * flow_parent) / flow_a in
  let computed_b := share_b * (hemat_par * flow_parent) / flow_b in
  (0.99 <= computed_b ->
   hemat_b = 0.99 /\ hemat_a = computed_a + (computed_b - 0.99) * flow_b / flow_a)
  /\ (computed_b < 0.99 -> 0.99 <= computed_a ->
      hemat_a = 0.99 /\ hemat_b = computed_b + (computed_a - 0.99) * flow_a / flow_b)
  /\ (computed_b < 0.99 -> computed_a < 0.99 ->
      hemat_a = computed_a /\ hemat_b = computed_b)
  /\ (flow_parent = flow_a + flow_b -> hemat_par <= 0.99 ->
      hemat_a <= 0.99 /\ hemat_b <= 0.99).
Proof.
  intros Hfa Hfb Hp Hs H computed_a computed_b.
  pose proof (get_erythrocyte_fraction_balance_exact _ _ _ _ _ _ _ _ _ _ Hfa Hfb H)
    as Hbal.
  apply get_erythrocyte_fraction_Ok in H.
  destruct H as (x_0' & A' & B' & sa & sb & ha0 & hb0 & sa1 & sb1 &
                 Hnz & Hp' & Hs' & Hh & Hr & _).
  rewrite Hp in Hp'. injection Hp' as <- <- <-.
  rewrite Hs in Hs'. injection Hs' as <- <-.
  apply share_to_hemat_valid in Hh; auto. destruct Hh as (-> & ->).
  apply redistribute_cases in Hr; try lra.
  fold computed_a computed_b in Hr.
  assert (Hcap : flow_parent = flow_a + flow_b -> hemat_par <= 0.99 ->
                 hemat_par * flow_parent <= 0.99 * (flow_a + flow_b)).
  { intros -> Hle. apply Rmult_le_compat_r; lra. }
  destruct Hr as [(C1 & -> & ->) | [(C1 & C2 & -> & ->) | (C1 & C2 & -> & ->)]].
  - split; [intros _; split; reflexivity|].
    split; [intros; lra|]. split; [intros; lra|].
    intros Hsum Hle. specialize (Hcap Hsum Hle). rewrite <- Hbal in Hcap.
    split; [|lra].
    apply (Rmult_le_reg_r flow_a); [lra|]. lra.
  - split; [intros; lra|].
    split; [intros _ _; split; reflexivity|]. split; [intros; lra|].
    intros Hsum Hle. specialize (Hcap Hsum Hle). rewrite <- Hbal in Hcap.
    split; [lra|].
    apply (Rmult_le_reg_r flow_b); [lra|]. lra.
  - split; [intros; lra|]. split; [intros; lra|].
    split; [intros _ _; split; reflexivity|].
    intros _ _. split; lra.
Qed.

Lemma redistribution_result_witness :
  (0 + (1 * (0.9 * 10) / 9 - 0.99) * 9 / (0.9 * 10)) * (0.9 * 10) / 1 <= 0.99 /\
  (1 - (1 * (0.9 * 10) / 9 - 0.99) * 9 / (0.9 * 10)) * (0.9 * 10) / 9 <= 0.99.
Proof.
  refine (proj2 (proj2 (proj2
    (redistribution_result 0.9 1e-6 1e-6 1e-6 10 1 9 _ _ _ 0 1 _ _ _ _ _
       params_1um _ split_1_9_saturated))) _ _).
  - lra.
  - lra.
  - apply rbc_shares_low. unfold x_o_init. lra.
  - lra.
  - lra.
Defined.

(** ** C7: the last test of the law *)





(** ** Evaluation of a pass on a literal network *)

Ltac pass_cbn :=
  cbn [update_hd pressure_node ordered_node process_nodes process_node
       boundary_node interior_node node_shape
       edges_at edge_connected_position parents_through scan_ordered
       bind_daughters bind_parents where_first boundary_value isin isin_edge
       var get update mapM argsort insert_node in_place Nat.leb num
       bind fold_right rev app map seq nth_error filter existsb length
       fst snd negb andb orb Nat.eqb Nat.ltb Nat.leb Nat.add
       diameter pressure nr_of_vs edge_list flow_rate boundary_vs ht hd
       st_hd rbc_balance plots printed vars
       single_daughter daughter_a daughter_b daughter_c
       parent parent_a parent_b parent_c].

Ltac abs_step :=
  match goal with
  | |- context [Rabs ?x] =>
      first [ replace (Rabs x) with x by (symmetry; apply Rabs_pos_eq; lra)
            | replace (Rabs x) with (- x) by (symmetry; apply Rabs_left1; lra) ]
  end.

Ltac pass_unfold :=
  unfold hematocrit_1_1, hematocrit_1_3, hematocrit_2_1, hematocrit_2_2_aux,
    hematocrit_1_2, hematocrit_3_1, qRCS, qRCS_balance, tollerance,
    store1, store2, store3, set, check_rbc_balance; pass_cbn;
  try (progress unfold comes_before; pass_cbn).

Ltac pass_eval :=
  unfold update_hd, no_locals; pass_unfold;
  repeat (first [float_step | abs_step]; pass_unfold).

Ltac law_unfold :=
  unfold get_erythrocyte_fraction, split_haematocrit, non_dimentional_param,
    x_o_init, A_o_init, B_o_init, rbc_shares, share_to_hemat, redistribute,
    threshold.

Ltac full_eval := pass_eval; repeat (law_unfold; float_eval; pass_eval).

(** ** C8: the mass balance checker and the end of a pass *)

Lemma qRCS_of_balance (case : nat) (a b c d e f g h i j k l : option R) (flag : nat) :
  qRCS_balance case a b c d e f g h i j k l = Ok flag ->
  qRCS case a b c d e f g h i j k l
  = Ok (flag, if Nat.eqb flag 1 then [NOT_BALANCED] else []).
Proof.
  intros H. unfold qRCS. rewrite H. cbn [bind]. destruct (Nat.eqb flag 1); reflexivity.
Qed.

(** Both tests of one arm of [qRCS]. *)
Lemma balance_flag (x y : R) :
  exists flag : nat,
    (if x <=? tollerance
     then if y <=? tollerance then Ok 0%nat else Ok 1%nat
     else Ok 1%nat) = Ok flag /\
    (flag = 0%nat \/ flag = 1%nat) /\
    (flag = 0%nat <-> x <= 1E-5 /\ y <= 1E-5).
Proof.
  unfold tollerance.
  destruct (x <=? 1.00E-05) eqn:E1; [destruct (y <=? 1.00E-05) eqn:E2|];
    reflect_tests.
  - exists 0%nat. split; [reflexivity|]. split; [auto|]. split; [lra|reflexivity].
  - exists 1%nat. split; [reflexivity|]. split; [auto|].
    split; [discriminate|lra].
  - exists 1%nat. split; [reflexivity|]. split; [auto|].
    split; [discriminate|lra].
Qed.

Lemma check_rbc_balance_fatal (st : pass_state) :
  ((exists e, check_rbc_balance st = Raise e) <-> rbc_balance st <> 0%nat) /\
  (rbc_balance st = 0%nat ->
   check_rbc_balance st
   = Ok (mk_pass_state (st_hd st) 0 (plots st)
           (printed st ++ [Check_RBCs_balance; Check_RBCs_balance_DONE]) (vars st))).
Proof.
  unfold check_rbc_balance.
  destruct (rbc_balance st) as [|n] eqn:E; cbn [Nat.ltb Nat.leb].
  - split.
    + split; [intros [e He]; discriminate | intros H; contradiction].
    + intros _. rewrite <- app_assoc. reflexivity.
  - split.
    + split; [intros _; discriminate | intros _; eexists; reflexivity].
    + discriminate.
Qed.

(** The pass on [chain 1] and on [chain 2], up to the check at its end: on
    the first the flows of the two edges of node 1 agree, on the second they
    differ by 1. *)
Lemma chain_order : pressure_node in_place [3; 2; 1] 3 = Ok [(3, 0%nat); (2, 1%nat); (1, 2%nat)].
Proof. pass_eval. reflexivity. Qed.

Lemma chain_nodes_balanced :
  process_nodes (chain 1) [] (map Rabs (flow_rate (chain 1))) [0; 1; 2]%nat [0; 1; 2]%nat
    (mk_pass_state (hd (chain 1)) 0 [] [] no_locals)
  = Ok (mk_pass_state [0.45; 0.45] 0 [] [has_no_parent 0]
          (mk_locals (Some 1%nat) None None None (Some 1%nat) None None None)).
Proof. unfold chain. pass_eval. reflexivity. Qed.

Lemma chain_nodes_unbalanced :
  process_nodes (chain 2) [] (map Rabs (flow_rate (chain 2))) [0; 1; 2]%nat [0; 1; 2]%nat
    (mk_pass_state (hd (chain 2)) 0 [] [] no_locals)
  = Ok (mk_pass_state [0.45; 0.45] 1 [] [has_no_parent 0; NOT_BALANCED]
          (mk_locals (Some 1%nat) None None None (Some 1%nat) None None None)).
Proof. unfold chain. pass_eval. reflexivity. Qed.

(** C8.  For each of the five shapes ([case] 1 to 5: one parent and one
    daughter, one and two, one and three, two and one, three and one) [qRCS]
    returns 0 exactly when the flows balance and the red cell fluxes balance,
    each within 1E-5, and 1 otherwise (and then prints "NOT BALANCED"); and a
    pass of [update_hd] whose nodes have all been processed ends the process
    exactly when the count [rbc_balance] is not 0. *)
Theorem qRCS_and_end_of_pass :
  (forall (fp fd hp hd : R) (b c e f h i k l : option R),
     exists flag : nat,
       qRCS 1 (Some fp) b c (Some fd) e f (Some hp) h i (Some hd) k l
       = Ok (flag, if Nat.eqb flag 1 then [NOT_BALANCED] else []) /\
       (flag = 0%nat \/ flag = 1%nat) /\
       (flag = 0%nat <->
        Rabs (fp - fd) <= 1E-5 /\ Rabs (fp * hp - fd * hd) <= 1E-5))
  /\
  (forall (fp fa fb hp ha hb : R) (b c f h i l : option R),
     exists flag : nat,
       qRCS 2 (Some fp) b c (Some fa) (Some fb) f (Some hp) h i (Some ha) (Some hb) l
       = Ok (flag, if Nat.eqb flag 1 then [NOT_BALANCED] else []) /\
       (flag = 0%nat \/ flag = 1%nat) /\
       (flag = 0%nat <->
        Rabs (fp - (fa + fb)) <= 1E-5 /\
        Rabs (fp * hp - (fa * ha + fb * hb)) <= 1E-5))
  /\
  (forall (fp fa fb fc hp ha hb hc : R) (b c h i : option R),
     exists flag : nat,
       qRCS 3 (Some fp) b c (Some fa) (Some fb) (Some fc)
              (Some hp) h i (Some ha) (Some hb) (Some hc)
       = Ok (flag, if Nat.eqb flag 1 then [NOT_BALANCED] else []) /\
       (flag = 0%nat \/ flag = 1%nat) /\
       (flag = 0%nat <->
        Rabs (fp - (fa + fb + fc)) <= 1E-5 /\
        Rabs (fp * hp - (fa * ha + fb * hb + fc * hc)) <= 1E-5))
  /\
  (forall (fpa fpb fd hpa hpb hd : R) (c e f i k l : option R),
     exists flag : nat,
       qRCS 4 (Some fpa) (Some fpb) c (Some fd) e f
              (Some hpa) (Some hpb) i (Some hd) k l
       = Ok (flag, if Nat.eqb flag 1 then [NOT_BALANCED] else []) /\
       (flag = 0%nat \/ flag = 1%nat) /\
       (flag = 0%nat <->
        Rabs (fpa + fpb - fd) <= 1E-5 /\
        Rabs (fpa * hpa + fpb * hpb - fd * hd) <= 1E-5))
  /\
  (forall (fpa fpb fpc fd hpa hpb hpc hd : R) (e f k l : option R),
     exists flag : nat,
       qRCS 5 (Some fpa) (Some fpb) (Some fpc) (Some fd) e f
              (Some hpa) (Some hpb) (Some hpc) (Some hd) k l
       = Ok (flag, if Nat.eqb flag 1 then [NOT_BALANCED] else []) /\
       (flag = 0%nat \/ flag = 1%nat) /\
       (flag = 0%nat <->
        Rabs (fpa + fpb + fpc - fd) <= 1E-5 /\
        Rabs (fpa * hpa + fpb * hpb + fpc * hpc - fd * hd) <= 1E-5))
  /\
  (forall (ties : nat -> nat -> bool) (boundary_hematocrit : list R) (fn : FlowNetwork)
          (p : list R) (pn : list (R * nat)) (st : pass_state),
     pressure fn = Some p ->
     pressure_node ties p (nr_of_vs fn) = Ok pn ->
     process_nodes fn boundary_hematocrit (map Rabs (flow_rate fn))
                   (ordered_node pn) (ordered_node pn)
                   (mk_pass_state (hd fn) 0 [] [] no_locals) = Ok st ->
     ((exists e, update_hd ties boundary_hematocrit fn = Raise e)
      <-> rbc_balance st <> 0%nat) /\
     (rbc_balance st = 0%nat ->
      update_hd ties boundary_hematocrit fn
      = Ok (mk_pass_state (st_hd st) 0 (plots st)
              (printed st ++ [Check_RBCs_balance; Check_RBCs_balance_DONE])
              (vars st)))).
Proof.
  repeat match goal with |- _ /\ _ => split end.
  - intros.
    destruct (balance_flag (Rabs (fp - fd)) (Rabs (fp * hp - fd * hd0)))
      as (flag & E & Hv & Hiff).
    exists flag. split; [|auto]. apply qRCS_of_balance. exact E.
  - intros.
    destruct (balance_flag (Rabs (fp - (fa + fb)))
                           (Rabs (fp * hp - (fa * ha + fb * hb))))
      as (flag & E & Hv & Hiff).
    exists flag. split; [|auto]. apply qRCS_of_balance. exact E.
  - intros.
    destruct (balance_flag (Rabs (fp - (fa + fb + fc)))
                           (Rabs (fp * hp - (fa * ha + fb * hb + fc * hc))))
      as (flag & E & Hv & Hiff).
    exists flag. split; [|auto]. apply qRCS_of_balance. exact E.
  - intros.
    destruct (balance_flag (Rabs (fpa + fpb - fd))
                           (Rabs (fpa * hpa + fpb * hpb - fd * hd0)))
      as (flag & E & Hv & Hiff).
    exists flag. split; [|auto]. apply qRCS_of_balance. exact E.
  - intros.
    destruct (balance_flag (Rabs (fpa + fpb + fpc - fd))
                           (Rabs (fpa * hpa + fpb * hpb + fpc * hpc - fd * hd0)))
      as (flag & E & Hv & Hiff).
    exists flag. split; [|auto]. apply qRCS_of_balance. exact E.
  - intros ties bh fn p pn st Hp Hpn Hst.
    unfold update_hd. rewrite Hp, Hpn. cbn [bind]. rewrite Hst. cbn [bind].
    apply check_rbc_balance_fatal.
Qed.

Lemma qRCS_and_end_of_pass_witness :
  (exists e, update_hd in_place [] (chain 2) = Raise e) /\
  update_hd in_place [] (chain 1)
  = Ok (mk_pass_state [0.45; 0.45] 0 []
          ([has_no_parent 0] ++ [Check_RBCs_balance; Check_RBCs_balance_DONE])
          (mk_locals (Some 1%nat) None None None (Some 1%nat) None None None)).
Proof.
  destruct qRCS_and_end_of_pass as (_ & _ & _ & _ & _ & H).
  split.
  - apply (H in_place [] (chain 2) [3; 2; 1] _ _ eq_refl chain_order
             chain_nodes_unbalanced).
    cbn. discriminate.
  - apply (H in_place [] (chain 1) [3; 2; 1] _ _ eq_refl chain_order
             chain_nodes_balanced).
    reflexivity.
Defined.

(** ** C2: what a handler writes *)

(** The arm [case 0, 1] of a boundary node never gets to a state: the pair
    returned by [hematocrit_1_1] is assigned to one element of
    [flownetwork.hd]. *)
Lemma boundary_inlet_raises (fn : FlowNetwork) (boundary_hematocrit flow : list R)
  (node : nat) (st st1 : pass_state) :
  boundary_node fn boundary_hematocrit flow node 0 1 st <> Ok st1.
Proof.
  unfold boundary_node.
  destruct (boundary_value boundary_hematocrit (boundary_vs fn) node); cbn [bind];
    [|discriminate].
  destruct (var (single_daughter (vars st))) as [sd|]; cbn [bind]; [|discriminate].
  destruct (get flow sd); cbn [bind]; [|discriminate].
  destruct (hematocrit_1_1 a a0 a0 (rbc_balance st)); cbn [bind]; discriminate.
Qed.

Lemma diamond_order :
  pressure_node in_place [5; 4; 3; 2; 1] 5
  = Ok [(5, 0%nat); (4, 1%nat); (3, 2%nat); (2, 3%nat); (1, 4%nat)].
Proof. pass_eval. reflexivity. Qed.

(** The pass on [diamond] up to node 3: node 0 has split the boundary
    haematocrit between edges 0 and 1, nodes 1 and 2 have copied it to edges
    2 and 3, and [daughter_a], [daughter_b] are still bound to the daughters
    of node 0. *)
Lemma diamond_before_node_3 :
  process_nodes diamond [0.45; 0.45; 0.45] (map Rabs (flow_rate diamond))
    [0; 1; 2; 3; 4]%nat [0; 1; 2]%nat
    (mk_pass_state (hd diamond) 0 [] [] no_locals)
  = Ok (mk_pass_state
          [0 * (0.45 * (2 + 18)) / 2; 1 * (0.45 * (2 + 18)) / 18;
           0 * (0.45 * (2 + 18)) / 2; 1 * (0.45 * (2 + 18)) / 18; 0.3]
          0
          [mk_split_log 0 1 (2 / (2 + 18)) (18 / (2 + 18)) 0.45]
          []
          (mk_locals (Some 3%nat) (Some 0%nat) (Some 1%nat) None
                     (Some 1%nat) None None None)).
Proof. unfold diamond. full_eval. reflexivity. Qed.

Lemma diamond_node_3_shape :
  node_shape diamond [0; 1; 2; 3; 4]%nat 3 = (2%nat, 1%nat) /\
  scan_ordered [0; 1; 2; 3; 4]%nat 3 (edges_at (edge_list diamond) 3 0) []
  = ([2; 3]%nat, [4]%nat).
Proof. split; reflexivity. Qed.

(** Node 3 of [diamond]: the split is computed with the flow of edge 0 in
    the place of the flow of its daughter, edge 4; the flows 2 and 19 do not
    add up to 20 and [qRCS] reports an imbalance. *)
Lemma diamond_node_3 :
  process_node diamond [0.45; 0.45; 0.45] (map Rabs (flow_rate diamond))
    [0; 1; 2; 3; 4]%nat 3
    (mk_pass_state
       [0 * (0.45 * (2 + 18)) / 2; 1 * (0.45 * (2 + 18)) / 18;
        0 * (0.45 * (2 + 18)) / 2; 1 * (0.45 * (2 + 18)) / 18; 0.3]
       0
       [mk_split_log 0 1 (2 / (2 + 18)) (18 / (2 + 18)) 0.45]
       []
       (mk_locals (Some 3%nat) (Some 0%nat) (Some 1%nat) None
                  (Some 1%nat) None None None))
  = Ok (mk_pass_state
          [0 * ((2 * (0 * (0.45 * (2 + 18)) / 2) + 18 * (1 * (0.45 * (2 + 18)) / 18))
                / (2 + 18) * (2 + 18)) / 2;
           1 * ((2 * (0 * (0.45 * (2 + 18)) / 2) + 18 * (1 * (0.45 * (2 + 18)) / 18))
                / (2 + 18) * (2 + 18)) / (2 + 18 - 1);
           0 * (0.45 * (2 + 18)) / 2; 1 * (0.45 * (2 + 18)) / 18; 0.3]
          1
          [mk_split_log 0 1 (2 / (2 + 18)) (18 / (2 + 18)) 0.45;
           mk_split_log 0 1 (2 / (2 + (2 + 18 - 1))) ((2 + 18 - 1) / (2 + (2 + 18 - 1)))
             ((2 * (0 * (0.45 * (2 + 18)) / 2) + 18 * (1 * (0.45 * (2 + 18)) / 18))
              / (2 + 18))]
          [NOT_BALANCED]
          (mk_locals (Some 4%nat) (Some 0%nat) (Some 1%nat) None
                     (Some 1%nat) (Some 2%nat) (Some 3%nat) None)).
Proof. unfold diamond. full_eval. reflexivity. Qed.

(** C2, on two networks.  On [inlet] the first node of the pass is a
    boundary node with no parent and one daughter: the pass raises at the
    assignment of the pair to [flownetwork.hd[single_daughter]]; no scalar is
    written to the edge and the count is not updated.  On [diamond] the
    boundary node 3 has the parent edges 2 and 3 and the daughter edge 4
    (outflow ghost).  Its step writes to the edges 0 and 1, which are the
    daughters of node 0 and do not touch node 3, and leaves edge 4 as it was;
    the result of [qRCS] that it adds to the count is computed with the flow
    of edge 0, and the pass ends the process on a network whose flows and red
    cell fluxes balance at every node. *)
Theorem update_hd_writes_elsewhere :
  update_hd in_place [0.45; 0.45] inlet = Raise ValueError
  /\
  (edges_at (edge_list diamond) 3 0
   = [(2, (1, 3)); (3, (2, 3)); (4, (3, 4))]%nat /\
   node_shape diamond [0; 1; 2; 3; 4]%nat 3 = (2%nat, 1%nat) /\
   exists (before after : pass_state) (h1 h1' : R),
     process_nodes diamond [0.45; 0.45; 0.45] (map Rabs (flow_rate diamond))
       [0; 1; 2; 3; 4]%nat [0; 1; 2]%nat
       (mk_pass_state (hd diamond) 0 [] [] no_locals) = Ok before /\
     process_node diamond [0.45; 0.45; 0.45] (map Rabs (flow_rate diamond))
       [0; 1; 2; 3; 4]%nat 3 before = Ok after /\
     nth_error (st_hd before) 1 = Some h1 /\ h1 = 0.5 /\
     nth_error (st_hd after) 1 = Some h1' /\ h1' = 9 / 19 /\
     nth_error (st_hd before) 4 = Some 0.3 /\
     nth_error (st_hd after) 4 = Some 0.3 /\
     rbc_balance before = 0%nat /\ rbc_balance after = 1%nat)
  /\
  update_hd in_place [0.45; 0.45; 0.45] diamond = Raise TypeError.
Proof.
  split; [|split].
  - unfold inlet. pass_eval. reflexivity.
  - split; [reflexivity|]. split; [reflexivity|].
    eexists _, _, _, _.
    split; [exact diamond_before_node_3|].
    split; [exact diamond_node_3|].
    cbn [st_hd rbc_balance nth_error].
    repeat split; lra.
  - unfold diamond. full_eval. reflexivity.
Qed.

(** ** C9: nodes of a shape that no arm handles *)

Lemma bind_daughters_fst (l : list nat) (v v' : locals) :
  fst (bind_daughters l v) = fst (bind_daughters l v').
Proof. destruct l as [|a [|b [|c [|d l]]]]; reflexivity. Qed.

Lemma bind_parents_fst (l : list nat) (v v' : locals) :
  fst (bind_parents l v) = fst (bind_parents l v').
Proof. destruct l as [|a [|b [|c [|d l]]]]; reflexivity. Qed.

(** [process_node] dispatches on the shape of the node, with the state it
    was given but for the locals. *)
Lemma process_node_dispatch (fn : FlowNetwork) (boundary_hematocrit flow : list R)
  (ordered : list nat) (node : nat) (st : pass_state) (np nd : nat) :
  node_shape fn ordered node = (np, nd) ->
  exists v : locals,
    process_node fn boundary_hematocrit flow ordered node st
    = if isin node (boundary_vs fn)
      then boundary_node fn boundary_hematocrit flow node np nd
             (mk_pass_state (st_hd st) (rbc_balance st) (plots st) (printed st) v)
      else interior_node fn flow node np nd
             (mk_pass_state (st_hd st) (rbc_balance st) (plots st) (printed st) v).
Proof.
  unfold node_shape, process_node.
  destruct (scan_ordered ordered node (edges_at (edge_list fn) node 0) [])
    as [parent_edge edge_daughter].
  intros H. injection H as Hp Hd.
  rewrite (bind_daughters_fst _ _ (vars st)) in Hd.
  destruct (bind_daughters edge_daughter (vars st)) as [n_daughter v1].
  rewrite (bind_parents_fst _ _ v1) in Hp.
  destruct (bind_parents parent_edge v1) as [n_parent v2].
  cbn [fst] in Hp, Hd. subst. exists v2. reflexivity.
Qed.

Lemma boundary_node_unhandled (fn : FlowNetwork) (boundary_hematocrit flow : list R)
  (node np nd : nat) (st : pass_state) :
  boundary_case np nd = false ->
  boundary_node fn boundary_hematocrit flow node np nd st = Ok st.
Proof.
  destruct np as [|[|[|[|np]]]]; destruct nd as [|[|[|[|nd]]]];
    cbn [boundary_case]; intros H; try discriminate H; reflexivity.
Qed.

Lemma interior_node_unhandled (fn : FlowNetwork) (flow : list R)
  (node np nd : nat) (st : pass_state) :
  interior_case np nd = false ->
  interior_node fn flow node np nd st
  = Ok (mk_pass_state (st_hd st) (rbc_balance st) (plots st)
          (printed st ++ (if Nat.eqb np 0 then [has_no_parent node] else []))
          (vars st)).
Proof.
  destruct st as [h rb pl pr v].
  destruct np as [|[|[|[|np]]]]; destruct nd as [|[|[|[|nd]]]];
    cbn [interior_case]; intros H; try discriminate H;
    cbn [interior_node Nat.eqb st_hd rbc_balance plots printed vars];
    rewrite ?app_nil_r; reflexivity.
Qed.

(** C9, as stated, fails in its first part.  Node 3 of [dead_end] is not a
    boundary node and has one parent and no daughter, a shape that no arm
    handles: processing it prints nothing, and the whole pass prints no
    warning at all. *)
Lemma unhandled_node_prints_nothing :
  node_shape dead_end [0; 2; 3; 1]%nat 3 = (1%nat, 0%nat) /\
  isin 3 (boundary_vs dead_end) = false /\
  interior_case 1 0 = false /\
  pressure_node in_place [4; 1; 3; 2] 4 = Ok [(4, 0%nat); (3, 2%nat); (2, 3%nat); (1, 1%nat)] /\
  (exists st st1,
     process_nodes dead_end [0.45; 0.45] (map Rabs (flow_rate dead_end))
       [0; 2; 3; 1]%nat [0; 2]%nat (mk_pass_state (hd dead_end) 0 [] [] no_locals)
     = Ok st /\
     process_node dead_end [0.45; 0.45] (map Rabs (flow_rate dead_end))
       [0; 2; 3; 1]%nat 3 st
     = Ok st1 /\
     printed st1 = printed st) /\
  (exists st, update_hd in_place [0.45; 0.45] dead_end = Ok st /\
     printed st = [Check_RBCs_balance; Check_RBCs_balance_DONE]).
Proof.
  split; [reflexivity|]. split; [reflexivity|]. split; [reflexivity|].
  split; [pass_eval; reflexivity|]. split.
  - eexists _, _. split; [|split].
    + unfold dead_end. full_eval. reflexivity.
    + unfold dead_end. full_eval. reflexivity.
    + reflexivity.
  - eexists. split.
    + unfold dead_end. full_eval. reflexivity.
    + reflexivity.
Qed.

(** C9, amended.  For every node whose numbers of parents and daughters
    match no computing or passing arm, the step writes no haematocrit, leaves
    the count and the plot lists as they are, and the pass goes on with the
    next node.  A line is printed only for a node that is not a boundary node
    and has no parent ("Node ... has no parent"); for every other such node
    nothing is printed. *)
Theorem unhandled_shape_no_write
  (fn : FlowNetwork) (boundary_hematocrit flow : list R)
  (ordered : list nat) (node : nat) (rest : list nat) (st : pass_state)
  (n_parent n_daughter : nat) :
  node_shape fn ordered node = (n_parent, n_daughter) ->
  (if isin node (boundary_vs fn)
   then boundary_case n_parent n_daughter
   else interior_case n_parent n_daughter) = false ->
  exists st1 : pass_state,
    process_node fn boundary_hematocrit flow ordered node st = Ok st1 /\
    st_hd st1 = st_hd st /\
    rbc_balance st1 = rbc_balance st /\
    plots st1 = plots st /\
    printed st1
    = printed st ++ (if negb (isin node (boundary_vs fn)) && Nat.eqb n_parent 0
                     then [has_no_parent node] else []) /\
    process_nodes fn boundary_hematocrit flow ordered (node :: rest) st
    = process_nodes fn boundary_hematocrit flow ordered rest st1.
Proof.
  intros Hshape Hcase.
  destruct (process_node_dispatch fn boundary_hematocrit flow ordered node st
              _ _ Hshape) as [v E].
  cbn [process_nodes]. rewrite E.
  destruct (isin node (boundary_vs fn)).
  - rewrite (boundary_node_unhandled _ _ _ _ _ _ _ Hcase).
    eexists. split; [reflexivity|]. cbn. rewrite app_nil_r. repeat split; reflexivity.
  - rewrite (interior_node_unhandled _ _ _ _ _ _ Hcase).
    eexists. split; [reflexivity|]. cbn. repeat split; reflexivity.
Qed.

Lemma unhandled_shape_no_write_witness :
  exists st1 : pass_state,
    process_node (chain 1) [] [1; 1] [0; 1; 2]%nat 0
      (mk_pass_state [0.45; 0.3] 0 [] [] no_locals) = Ok st1 /\
    st_hd st1 = [0.45; 0.3] /\
    rbc_balance st1 = 0%nat /\
    plots st1 = [] /\
    printed st1 = [] ++ [has_no_parent 0] /\
    process_nodes (chain 1) [] [1; 1] [0; 1; 2]%nat (0 :: [1; 2])%nat
      (mk_pass_state [0.45; 0.3] 0 [] [] no_locals)
    = process_nodes (chain 1) [] [1; 1] [0; 1; 2]%nat [1; 2]%nat st1.
Proof.
  apply (unhandled_shape_no_write (chain 1) [] [1; 1] [0; 1; 2]%nat 0 [1; 2]%nat
           (mk_pass_state [0.45; 0.3] 0 [] [] no_locals) 0 1).
  - reflexivity.
  - reflexivity.
Defined.

(** ** C10: the loop of the iterative routine *)

Section LoopFacts.

Variable iterative_routine : nat -> result berg_fields.
Variable PARAMETERS_boundary_hematocrit : R.
Variable berg_criteria : R.

Let body := loop_body iterative_routine PARAMETERS_boundary_hematocrit berg_criteria.
Let loop := while_loop iterative_routine PARAMETERS_boundary_hematocrit berg_criteria.

(** One turn: the counter goes up by one, and the flag is set exactly on
    convergence after iteration 2000 or at iteration 2000. *)
Lemma loop_body_turn (st st1 : loop_state) :
  body st = Ok st1 ->
  iteration st1 = S (iteration st) /\
  (convergence_check st1 = true <->
   ((2 < iteration st1)%nat /\
    (exists r, residual_berg st1 = Some r /\ r <= berg_criteria) /\
    (2000 < iteration st1)%nat)
   \/ iteration st1 = 2000%nat).
Proof.
  unfold body, loop_body. intros H.
  open_bind H. open_bind H. destruct a0 as [res berg]. open_bind H.
  assert (Hconv : a0 = true <->
            ((2 < S (iteration st))%nat /\
             (exists r, res = Some r /\ r <= berg_criteria) /\
             (2000 < S (iteration st))%nat)).
  { destruct (Nat.ltb 2 (S (iteration st))) eqn:E2.
    - destruct res as [r|]; [|discriminate].
      injection Ha1 as <-. apply Nat.ltb_lt in E2.
      rewrite andb_true_iff, Rle_b_true, Nat.ltb_lt. split.
      + intros [Hr Hi]. repeat split; eauto.
      + intros (_ & (r' & Er & Hr) & Hi). injection Er as <-. auto.
    - injection Ha1 as <-. apply Nat.ltb_ge in E2. split; [discriminate|].
      intros (Hi & _). lia. }
  destruct a0.
  - injection H as <-. cbn. split; [reflexivity|].
    split; [intros _; left; apply Hconv; reflexivity | reflexivity].
  - destruct (Nat.eqb (S (iteration st)) 2000) eqn:E; injection H as <-; cbn.
    + apply Nat.eqb_eq in E. split; [reflexivity|].
      split; [intros _; right; exact E | reflexivity].
    + apply Nat.eqb_neq in E. split; [reflexivity|].
      split; [discriminate|].
      intros [Hc|Hc]; [apply Hconv in Hc; discriminate | contradiction].
Qed.

(** From a counter below 2000 the loop stops within the turns that are
    left up to 2000. *)
Lemma while_loop_capped (n : nat) (st : loop_state) :
  convergence_check st = false ->
  (iteration st + S n = 2000)%nat ->
  exists r, loop (S n) st = Some r /\
    forall st1, r = Ok st1 ->
      iteration st1 = 2000%nat /\ convergence_check st1 = true.
Proof.
  revert st. induction n as [|n IH]; intros st Hc Hi.
  - unfold loop. cbn [while_loop]. rewrite Hc.
    fold body. destruct (body st) as [st1|e] eqn:E.
    + apply loop_body_turn in E. destruct E as [Ei Ec].
      assert (Hst1 : convergence_check st1 = true) by (apply Ec; right; lia).
      rewrite Hst1. eexists. split; [reflexivity|].
      intros st2 H2. injection H2 as <-. split; [lia|assumption].
    + eexists. split; [reflexivity|]. intros st1 H1. discriminate.
  - unfold loop. cbn [while_loop]. rewrite Hc.
    fold body. destruct (body st) as [st1|e] eqn:E.
    + apply loop_body_turn in E. destruct E as [Ei Ec].
      assert (Hst1 : convergence_check st1 = false).
      { destruct (convergence_check st1); [|reflexivity].
        destruct (proj1 Ec eq_refl) as [(_ & _ & Hgt)|Heq]; lia. }
      apply (IH st1 Hst1). lia.
    + eexists. split; [reflexivity|]. intros st1 H1. discriminate.
Qed.

(** The test for the cap is an equality: a run entered with the counter at
    2000 or above stops on convergence only, and goes on for ever when the
    residual stays above the criterion. *)
Lemma while_loop_beyond_cap (fuel : nat) (st : loop_state) :
  (forall n, exists f r, iterative_routine n = Ok f /\
     berg_convergence PARAMETERS_boundary_hematocrit f = Ok r /\ berg_criteria < r) ->
  convergence_check st = false ->
  (2000 <= iteration st)%nat ->
  loop fuel st = None.
Proof.
  intros Hres. revert st. induction fuel as [|fuel IH]; intros st Hc Hi.
  - unfold loop. cbn [while_loop]. now rewrite Hc.
  - unfold loop. cbn [while_loop]. rewrite Hc. unfold loop_body.
    destruct (Hres (iteration st)) as (f & r & -> & Hr & Hgt). cbn [bind].
    assert (E1 : Nat.eqb (S (iteration st)) 1 = false) by (apply Nat.eqb_neq; lia).
    assert (E2 : Nat.ltb 2 (S (iteration st)) = true) by (apply Nat.ltb_lt; lia).
    assert (E3 : (r <=? berg_criteria) = false) by (apply Rle_b_false; lra).
    assert (E4 : Nat.eqb (S (iteration st)) 2000 = false) by (apply Nat.eqb_neq; lia).
    rewrite E1, Hr. cbn [bind]. rewrite E2. cbn [bind]. rewrite E3, E4. cbn [andb].
    apply IH; cbn [convergence_check iteration]; [reflexivity | lia].
Qed.

(** A run entered with the counter at 2000 or above that comes to an end
    has stopped on convergence, with the counter above 2000. *)
Lemma while_loop_after_cap (fuel : nat) (st st' : loop_state) :
  convergence_check st = false ->
  (2000 <= iteration st)%nat ->
  loop fuel st = Some (Ok st') ->
  (2000 < iteration st')%nat /\
  exists r, residual_berg st' = Some r /\ r <= berg_criteria.
Proof.
  revert st. induction fuel as [|fuel IH]; intros st Hc Hi; unfold loop;
    cbn [while_loop]; rewrite Hc; [discriminate|].
  fold body. destruct (body st) as [st1|e] eqn:E; [|discriminate].
  apply loop_body_turn in E. destruct E as [Ei Ec].
  destruct (convergence_check st1) eqn:Hst1.
  - destruct fuel; cbn [while_loop]; rewrite Hst1; intros H; injection H as <-;
      (destruct (proj1 Ec eq_refl) as [(_ & Hr & Hgt)|Heq]; [auto | lia]).
  - intros H. apply (IH st1 Hst1); [lia | exact H].
Qed.

End LoopFacts.

(** C10, as stated, fails: the loop need not terminate, and a run can go
    beyond 2000 iterations.  [flownetwork.iteration] is never reset and the
    test for the cap is [iteration == 2000].  A run entered with the counter
    at 2000, as a second call of [_iterative_method] on the same network is,
    is past the cap at its first turn; when the residual stays above
    [berg_criteria] (here it is 1 at every turn, the criterion 1e-6) the run
    has no end, whatever number of turns it is given. *)
Lemma run_from_the_cap_has_no_end :
  ~ exists fuel r,
      _iterative_method (fun _ => Ok (mk_berg_fields 1 [1] 0 0 0)) 1 1e-6 fuel 2000
      = Some r.
Proof.
  intros (fuel & r & H).
  unfold _iterative_method in H.
  rewrite (while_loop_beyond_cap (fun _ => Ok (mk_berg_fields 1 [1] 0 0 0)) 1 1e-6)
    in H.
  - discriminate.
  - intros n. eexists _, _. split; [reflexivity|]. split.
    + unfold berg_convergence. cbn [inflow]. rewrite fdiv_Ok by lra. reflexivity.
    + cbn [local_balance_rbc sum_abs fold_right pressure_convergence_criteria_berg
           flow_convergence_criteria_berg hd_convergence_criteria_berg].
      rewrite Rabs_R1. lra.
  - reflexivity.
  - cbn [iteration]. lia.
Qed.

(** C10, amended.  Each turn of the loop of [_iterative_method] adds one to
    [flownetwork.iteration] and sets [convergence_check] exactly when the
    iteration is above 2, the Berg residual is at most [berg_criteria] and
    the iteration is above 2000, or else when the iteration is 2000.  A run
    entered with the counter below 2000 (0 on a new network) always ends,
    after at most [2000 - iteration0] turns: either a collaborator ends the
    process, or the loop is stopped by the cap, with the counter at 2000; it
    never stops on convergence.  A run entered with the counter at 2000 or
    above is not capped: when it ends normally it has stopped on
    convergence, with the counter above 2000 and the residual at most
    [berg_criteria], and it has no end when the residual stays above
    [berg_criteria]. *)
Theorem iterative_method_terminates
  (iterative_routine : nat -> result berg_fields)
  (PARAMETERS_boundary_hematocrit berg_criteria : R) (iteration0 : nat) :
  (forall st st1,
     loop_body iterative_routine PARAMETERS_boundary_hematocrit berg_criteria st
     = Ok st1 ->
     iteration st1 = S (iteration st) /\
     (convergence_check st1 = true <->
      ((2 < iteration st1)%nat /\
       (exists r, residual_berg st1 = Some r /\ r <= berg_criteria) /\
       (2000 < iteration st1)%nat)
      \/ iteration st1 = 2000%nat))
  /\
  ((iteration0 < 2000)%nat ->
   exists r,
     _iterative_method iterative_routine PARAMETERS_boundary_hematocrit berg_criteria
       (2000 - iteration0) iteration0 = Some r /\
     forall st, r = Ok st ->
       iteration st = 2000%nat /\ convergence_check st = true)
  /\
  ((2000 <= iteration0)%nat ->
   (forall fuel st,
      _iterative_method iterative_routine PARAMETERS_boundary_hematocrit berg_criteria
        fuel iteration0 = Some (Ok st) ->
      (2000 < iteration st)%nat /\
      exists r, residual_berg st = Some r /\ r <= berg_criteria) /\
   ((forall n, exists f r,
       iterative_routine n = Ok f /\
       berg_convergence PARAMETERS_boundary_hematocrit f = Ok r /\
       berg_criteria < r) ->
    forall fuel,
      _iterative_method iterative_routine PARAMETERS_boundary_hematocrit berg_criteria
        fuel iteration0 = None)).
Proof.
  split; [|split].
  - apply loop_body_turn.
  - intros Hlt. unfold _iterative_method.
    replace (2000 - iteration0)%nat with (S (1999 - iteration0)) by lia.
    apply while_loop_capped; cbn [convergence_check iteration]; [reflexivity | lia].
  - intros Hge. split.
    + intros fuel st H. unfold _iterative_method in H.
      apply while_loop_after_cap in H; [exact H | reflexivity | exact Hge].
    + intros Hres fuel. unfold _iterative_method.
      apply while_loop_beyond_cap; [exact Hres | reflexivity | exact Hge].
Qed.

Lemma iterative_method_terminates_witness :
  (exists r,
     _iterative_method (fun _ => Ok (mk_berg_fields 1 [] 0 0 0)) 0.45 1e-6
       (2000 - 0) 0 = Some r /\
     forall st, r = Ok st ->
       iteration st = 2000%nat /\ convergence_check st = true) /\
  (forall fuel st,
     _iterative_method (fun _ => Ok (mk_berg_fields 1 [] 0 0 0)) 0.45 1e-6
       fuel 2000 = Some (Ok st) ->
     (2000 < iteration st)%nat /\
     exists r, residual_berg st = Some r /\ r <= 1e-6).
Proof.
  split.
  - apply (proj1 (proj2 (iterative_method_terminates
                           (fun _ => Ok (mk_berg_fields 1 [] 0 0 0)) 0.45 1e-6 0))).
    lia.
  - assert (Hge : (2000 <= 2000)%nat) by lia.
    exact (proj1 (proj2 (proj2 (iterative_method_terminates
                                  (fun _ => Ok (mk_berg_fields 1 [] 0 0 0))
                                  0.45 1e-6 2000)) Hge)).
Defined.

(** ** C3: the order of the nodes *)

(** The order on rows [pressure, node] that the ascending sort gives,
    whatever the order in which it leaves rows of equal pressure. *)
Section Order.

Let row : Type := (R * nat)%type.

Variable ties : nat -> nat -> bool.

Let asc (x y : row) : Prop := fst x <= fst y.

Let desc (x y : row) : Prop := fst x >= fst y.

Lemma insert_node_perm (x : row) (l : list row) :
  Permutation (insert_node ties x l) (x :: l).
Proof.
  induction l as [|y l IH]; cbn [insert_node]; [reflexivity|].
  destruct (comes_before ties x y); [reflexivity|].
  rewrite IH. apply perm_swap.
Qed.

Lemma argsort_perm (l : list row) : Permutation (argsort ties l) l.
Proof.
  induction l as [|x l IH]; cbn [argsort fold_right]; [reflexivity|].
  fold (argsort ties l). rewrite insert_node_perm. now constructor.
Qed.

(** A row goes before another one only if its pressure is not higher, and
    behind it only if its pressure is not lower. *)
Lemma comes_before_pressure (x y : row) :
  (comes_before ties x y = true -> fst x <= fst y) /\
  (comes_before ties x y = false -> fst y <= fst x).
Proof.
  unfold comes_before.
  destruct (fst x <? fst y) eqn:E1; [|destruct (fst y <? fst x) eqn:E2];
    reflect_tests; split; intros H; try discriminate; lra.
Qed.

(** Inserting a row into a sorted list keeps the list sorted. *)
Lemma insert_node_sorted (x : row) (l : list row) :
  StronglySorted asc l -> StronglySorted asc (insert_node ties x l).
Proof.
  induction l as [|y l IH]; intros Hs; cbn [insert_node].
  - repeat constructor.
  - apply StronglySorted_inv in Hs. destruct Hs as [Hs Hy].
    destruct (comes_before_pressure x y) as [Ht Hf].
    destruct (comes_before ties x y).
    + specialize (Ht eq_refl).
      constructor; [constructor; assumption|].
      constructor; [exact Ht|].
      rewrite Forall_forall in *. intros z Hz.
      specialize (Hy z Hz). unfold asc in *. lra.
    + specialize (Hf eq_refl).
      constructor; [apply IH; assumption|].
      rewrite Forall_forall in *. intros z Hz.
      apply (Permutation_in _ (insert_node_perm x l)) in Hz.
      destruct Hz as [<-|Hz]; [exact Hf | apply Hy; assumption].
Qed.

Lemma argsort_sorted (l : list row) : StronglySorted asc (argsort ties l).
Proof.
  induction l as [|x l IH]; cbn [argsort fold_right].
  - constructor.
  - fold (argsort ties l). apply insert_node_sorted. exact IH.
Qed.

Lemma rev_sorted (l : list row) :
  StronglySorted asc l -> StronglySorted desc (rev l).
Proof.
  induction l as [|a l IH]; intros Hs; cbn [rev]; [constructor|].
  apply StronglySorted_inv in Hs. destruct Hs as [Hs Ha].
  specialize (IH Hs).
  assert (G : forall l1, StronglySorted desc l1 ->
                         Forall (fun y => desc y a) l1 ->
                         StronglySorted desc (l1 ++ [a])).
  { induction l1 as [|b l1 IH1]; intros Hd Hf; cbn [app].
    - repeat constructor.
    - apply StronglySorted_inv in Hd. destruct Hd as [Hd Hb].
      inversion Hf; subst.
      constructor; [apply IH1; assumption|].
      apply Forall_app. split; [assumption|].
      constructor; [assumption | constructor]. }
  apply G; [assumption|].
  apply Forall_rev. rewrite Forall_forall in *. intros y Hy.
  specialize (Ha y Hy). unfold asc, desc in *. lra.
Qed.

(** The rows built at lines 371-372. *)
Lemma rows_spec (p : list R) (start n : nat) (rows : list row) :
  mapM (fun pres => x <- get p pres ;; Ok (x, pres)) (seq start n) = Ok rows ->
  map snd rows = seq start n /\
  Forall (fun r => nth_error p (snd r) = Some (fst r)) rows.
Proof.
  revert start rows. induction n as [|n IH]; intros start rows; cbn [seq mapM].
  - intros H. injection H as <-. split; [reflexivity|constructor].
  - intros H. open_bind H. open_bind H. injection H as <-.
    open_bind Ha. injection Ha as <-.
    destruct (IH _ _ Ha0) as [E F].
    unfold get in Ha1. destruct (nth_error p start) eqn:En; [|discriminate].
    injection Ha1 as <-.
    split; [cbn [map snd]; now rewrite E|].
    constructor; [exact En | exact F].
Qed.

Lemma seq_rows_sorted (rows : list row) (start n : nat) :
  map snd rows = seq start n ->
  StronglySorted (fun x y => (snd x < snd y)%nat) rows.
Proof.
  revert start n. induction rows as [|r rows IH]; intros start n E; [constructor|].
  destruct n as [|n]; [discriminate|].
  cbn [map seq] in E. injection E as Er E.
  constructor; [eapply IH; eassumption|].
  rewrite Forall_forall. intros y Hy.
  assert (Hin : In (snd y) (seq (S start) n)) by (rewrite <- E; now apply in_map).
  apply in_seq in Hin. lia.
Qed.

(** What [pressure_node] returns: every node once, with its pressure, and
    no row before a row of higher pressure. *)
Lemma pressure_node_spec (p : list R) (n : nat) (pn : list row) :
  pressure_node ties p n = Ok pn ->
  Permutation (ordered_node pn) (seq 0 n) /\
  Forall (fun r => nth_error p (snd r) = Some (fst r)) pn /\
  StronglySorted desc pn.
Proof.
  unfold pressure_node. intros H. open_bind H. injection H as <-.
  destruct (rows_spec _ _ _ _ Ha) as [E F].
  split; [|split].
  - unfold ordered_node. rewrite <- E.
    apply Permutation_map. rewrite <- Permutation_rev. apply argsort_perm.
  - apply Forall_rev. rewrite Forall_forall in *. intros r Hr. apply F.
    apply (Permutation_in _ (argsort_perm a)). assumption.
  - apply rev_sorted, argsort_sorted.
Qed.

End Order.

Section AnyOrder.

Let row : Type := (R * nat)%type.

Variable ties : nat -> nat -> bool.

(** [x] is put before [y], and [y] is not put before [x]. *)
Let precedes (x y : row) : Prop :=
  comes_before ties x y = true /\ comes_before ties y x = false.

Lemma insert_node_place (x : row) (t1 t2 : list row) :
  Forall (fun y => comes_before ties x y = false) t1 ->
  Forall (fun y => comes_before ties x y = true) t2 ->
  insert_node ties x (t1 ++ t2) = t1 ++ x :: t2.
Proof.
  intros H1 H2. induction t1 as [|y t1 IH]; cbn [app].
  - destruct t2 as [|y t2]; [reflexivity|].
    cbn [insert_node]. inversion H2 as [|? ? Hy H2']; subst. now rewrite Hy.
  - inversion H1 as [|? ? Hy H1']; subst.
    cbn [insert_node]. rewrite Hy. now rewrite (IH H1').
Qed.

Lemma sorted_without (x : row) (t1 t2 : list row) :
  StronglySorted precedes (t1 ++ x :: t2) ->
  StronglySorted precedes (t1 ++ t2) /\
  Forall (fun y => precedes y x) t1 /\ Forall (fun y => precedes x y) t2.
Proof.
  induction t1 as [|y t1 IH]; cbn [app]; intros H.
  - apply StronglySorted_inv in H. destruct H as [Hs Hx].
    split; [exact Hs|]. split; [constructor | exact Hx].
  - apply StronglySorted_inv in H. destruct H as [Hs Hy].
    destruct (IH Hs) as (Hs' & H1 & H2).
    apply Forall_app in Hy. destruct Hy as [Hy1 Hy2].
    inversion Hy2 as [|? ? Hyx Hy2']; subst.
    split; [|split].
    + constructor; [exact Hs'|]. apply Forall_app. split; assumption.
    + constructor; assumption.
    + exact H2.
Qed.

(** The sort by insertion returns any arrangement of the rows in which each
    row is put before the rows behind it. *)
Lemma argsort_arrangement (l t : list row) :
  Permutation t l -> StronglySorted precedes t -> argsort ties l = t.
Proof.
  revert t. induction l as [|x l IH]; intros t Hp Hs.
  - apply Permutation_sym, Permutation_nil in Hp. now subst.
  - assert (Hin : In x t) by (apply (Permutation_in _ (Permutation_sym Hp)); now left).
    apply in_split in Hin. destruct Hin as (t1 & t2 & ->).
    destruct (sorted_without _ _ _ Hs) as (Hs' & H1 & H2).
    cbn [argsort fold_right]. fold (argsort ties l).
    rewrite (IH (t1 ++ t2)).
    + apply insert_node_place.
      * rewrite Forall_forall in *. intros y Hy. apply (H1 y Hy).
      * rewrite Forall_forall in *. intros y Hy. apply (H2 y Hy).
    + apply Permutation_sym, Permutation_cons_app_inv with (a := x).
      apply Permutation_sym. exact Hp.
    + exact Hs'.
Qed.

End AnyOrder.

Lemma listed_before_first (l : list nat) (i j : nat) :
  i <> j -> listed_before (i :: l) i j = true /\ listed_before (i :: l) j i = false.
Proof.
  intros Hne. cbn [listed_before]. rewrite Nat.eqb_refl.
  destruct (Nat.eqb i j) eqn:E; [apply Nat.eqb_eq in E; contradiction|].
  split; reflexivity.
Qed.

Lemma listed_before_skip (l : list nat) (k i j : nat) :
  k <> i -> k <> j -> listed_before (k :: l) i j = listed_before l i j.
Proof.
  intros Hi Hj. cbn [listed_before].
  destruct (Nat.eqb k i) eqn:E1; [apply Nat.eqb_eq in E1; contradiction|].
  destruct (Nat.eqb k j) eqn:E2; [apply Nat.eqb_eq in E2; contradiction|].
  reflexivity.
Qed.

(** Every arrangement of the rows in ascending order of their pressure is
    what [argsort] returns for some order of the ties: the parameter [ties]
    covers all that a sort can do with rows of equal pressure. *)
Lemma argsort_any_order (rows target : list (R * nat)) :
  NoDup (map snd rows) ->
  Permutation target rows ->
  StronglySorted (fun x y => fst x <= fst y) target ->
  argsort (listed_before (map snd target)) rows = target.
Proof.
  intros Hnd Hp Hs.
  apply argsort_arrangement; [exact Hp|].
  assert (Hnd' : NoDup (map snd target)).
  { apply (Permutation_NoDup (l := map snd rows)); [|exact Hnd].
    apply Permutation_map, Permutation_sym, Hp. }
  clear Hp Hnd rows.
  assert (G : forall pre t,
            NoDup (pre ++ map snd t) ->
            StronglySorted (fun x y => fst x <= fst y) t ->
            StronglySorted
              (fun x y =>
                 comes_before (listed_before (pre ++ map snd t)) x y = true /\
                 comes_before (listed_before (pre ++ map snd t)) y x = false) t).
  { intros pre t. revert pre. induction t as [|x t IH]; intros pre Hnd Hs'.
    - constructor.
    - apply StronglySorted_inv in Hs'. destruct Hs' as [Hs' Hx].
      cbn [map] in *.
      constructor.
      + specialize (IH (pre ++ [snd x])).
        rewrite <- app_assoc in IH. cbn [app] in IH. apply IH; assumption.
      + rewrite Forall_forall in *. intros y Hy. specialize (Hx y Hy).
        assert (Hne : snd x <> snd y).
        { apply NoDup_remove_2 in Hnd. intros E. apply Hnd.
          apply in_or_app. right. rewrite E. now apply in_map. }
        assert (Hpre : forall k, In k pre -> k <> snd x /\ k <> snd y).
        { intros k Hk. split; intros ->.
          - apply NoDup_remove_2 in Hnd. apply Hnd, in_or_app. now left.
          - assert (Hd : NoDup (pre ++ map snd t))
              by (apply NoDup_remove_1 in Hnd; exact Hnd).
            clear - Hd Hk Hy. induction pre as [|k pre IHp]; [destruct Hk|].
            cbn [app] in Hd. inversion Hd as [|? ? Hn Hd']; subst.
            destruct Hk as [->|Hk].
            + apply Hn, in_or_app. right. now apply in_map.
            + apply IHp; assumption. }
        assert (Hl : listed_before (pre ++ snd x :: map snd t) (snd x) (snd y) = true /\
                     listed_before (pre ++ snd x :: map snd t) (snd y) (snd x) = false).
        { clear - Hpre Hne. induction pre as [|k pre IHp]; cbn [app].
          - apply listed_before_first. exact Hne.
          - destruct (Hpre k (or_introl eq_refl)) as [Hkx Hky].
            rewrite !listed_before_skip by assumption.
            apply IHp. intros k' Hk'. apply Hpre. now right. }
        destruct Hl as [Hl1 Hl2].
        unfold comes_before.
        destruct (fst x <? fst y) eqn:E1; destruct (fst y <? fst x) eqn:E2;
          reflect_tests; try lra; auto. }
  apply (G [] target); assumption.
Qed.

(** The edges found at a node are edges of [edge_list] that touch it. *)
Lemma edges_at_spec (edges : list (nat * nat)) (node start i : nat) (e : nat * nat) :
  In (i, e) (edges_at edges node start) ->
  (start <= i)%nat /\ nth_error edges (i - start) = Some e /\
  isin_edge node e = true.
Proof.
  revert start. induction edges as [|x edges IH]; intros start; cbn [edges_at].
  - intros [].
  - assert (Hrec : In (i, e) (edges_at edges node (S start)) ->
                   (start <= i)%nat /\ nth_error (x :: edges) (i - start) = Some e /\
                   isin_edge node e = true).
    { intros H. apply IH in H. destruct H as (Hle & Hn & Hin).
      split; [lia|]. split; [|assumption].
      replace (i - start)%nat with (S (i - S start)) by lia. exact Hn. }
    destruct (Nat.eqb (fst x) node || Nat.eqb (snd x) node) eqn:E; [|exact Hrec].
    intros [H|H]; [|exact (Hrec H)].
    injection H as <- <-. split; [lia|]. rewrite Nat.sub_diag. split; [reflexivity|].
    unfold isin_edge. rewrite (Nat.eqb_sym node (fst x)), (Nat.eqb_sym node (snd x)).
    exact E.
Qed.

(** The scan up to the node: the parent edges are the connected edges that
    have a node met before it as an end; the daughters are the others. *)
Lemma scan_ordered_spec (before : list nat) (node : nat) (after : list nat)
  (connected : list (nat * (nat * nat))) (acc parent_edge edge_daughter : list nat) :
  ~ In node before ->
  scan_ordered (before ++ node :: after) node connected acc
  = (parent_edge, edge_daughter) ->
  (forall e, In e parent_edge <->
     In e acc \/ exists on edge, In on before /\ In (e, edge) connected /\
                                 isin_edge on edge = true) /\
  edge_daughter
  = filter (fun element => negb (isin element parent_edge))
           (edge_connected_position connected).
Proof.
  revert acc. induction before as [|on before IH]; intros acc Hnin H.
  - cbn [app scan_ordered] in H. rewrite Nat.eqb_refl in H.
    injection H as <- <-. split; [|reflexivity].
    intros e. split; [auto|]. intros [H|(on & edge & [] & _)]. exact H.
  - cbn [app scan_ordered] in H.
    assert (Hne : Nat.eqb on node = false).
    { apply Nat.eqb_neq. intros ->. apply Hnin. left. reflexivity. }
    rewrite Hne in H.
    assert (Hnin' : ~ In node before) by (intros Hb; apply Hnin; right; exact Hb).
    assert (Hthrough : forall e, In e (parents_through on connected) <->
              exists edge, In (e, edge) connected /\ isin_edge on edge = true).
    { intros e. unfold parents_through. rewrite in_map_iff. split.
      - intros ([i edge] & <- & Hf). apply filter_In in Hf. cbn [fst snd] in *.
        exists edge. exact Hf.
      - intros (edge & Hin & Hon). exists (e, edge). split; [reflexivity|].
        apply filter_In. auto. }
    destruct (existsb (fun pe => isin_edge on (snd pe)) connected) eqn:Ex.
    + destruct (IH _ Hnin' H) as [Hp Hd]. split; [|exact Hd].
      intros e. rewrite Hp, in_app_iff, Hthrough. split.
      * intros [[Ha|(edge & Hin & Hon)]|(on' & edge & Hb & Hin & Hon)].
        -- left; exact Ha.
        -- right. exists on, edge. split; [left; reflexivity|auto].
        -- right. exists on', edge. split; [right; exact Hb|auto].
      * intros [Ha|(on' & edge & [<-|Hb] & Hin & Hon)].
        -- left; left; exact Ha.
        -- left; right. exists edge. auto.
        -- right. exists on', edge. auto.
    + destruct (IH _ Hnin' H) as [Hp Hd]. split; [|exact Hd].
      intros e. rewrite Hp. split.
      * intros [Ha|(on' & edge & Hb & Hin & Hon)]; [left; exact Ha|].
        right. exists on', edge. split; [right; exact Hb|auto].
      * intros [Ha|(on' & edge & [<-|Hb] & Hin & Hon)]; [left; exact Ha| |].
        -- exfalso. rewrite <- not_true_iff_false in Ex. apply Ex.
           apply existsb_exists. exists (e, edge). auto.
        -- right. exists on', edge. auto.
Qed.

(** The nodes of a pass are processed one after the other, in the order of
    the list. *)
Lemma process_nodes_app (fn : FlowNetwork) (boundary_hematocrit flow : list R)
  (ordered l1 l2 : list nat) (st : pass_state) :
  process_nodes fn boundary_hematocrit flow ordered (l1 ++ l2) st
  = (st1 <- process_nodes fn boundary_hematocrit flow ordered l1 st ;;
     process_nodes fn boundary_hematocrit flow ordered l2 st1).
Proof.
  revert st. induction l1 as [|x l1 IH]; intros st; cbn [app process_nodes bind].
  - reflexivity.
  - destruct (process_node fn boundary_hematocrit flow ordered x st) as [st1|e];
      cbn [bind]; [apply IH | reflexivity].
Qed.

(** C3, as stated, fails on the ties.  Two nodes at the same pressure are
    processed highest id first: on an array of two elements [argsort] sorts
    by insertion and leaves them in the order of their ids, and [[::-1]]
    turns the order round. *)
Lemma ties_not_in_id_order :
  pressure_node in_place [1; 1] 2 = Ok [(1, 1%nat); (1, 0%nat)] /\
  ordered_node [(1, 1%nat); (1, 0%nat)] = [1; 0]%nat /\
  [1; 0]%nat <> seq 0 2.
Proof.
  split; [|split].
  - pass_eval. reflexivity.
  - reflexivity.
  - discriminate.
Qed.

(** C3, amended.  Within one pass the nodes are processed in a total order:
    every node once, and no node before a node of higher pressure, whatever
    the order in which [argsort] leaves nodes of equal pressure.  When a node
    is processed, all nodes before it in that order have been processed, and
    each of its parent edges is an edge that joins it to one of them. *)
Theorem nodes_in_descending_pressure
  (ties : nat -> nat -> bool)
  (fn : FlowNetwork) (boundary_hematocrit flow p : list R) (pn : list (R * nat)) :
  pressure_node ties p (nr_of_vs fn) = Ok pn ->
  Permutation (ordered_node pn) (seq 0 (nr_of_vs fn)) /\
  Forall (fun r => nth_error p (snd r) = Some (fst r)) pn /\
  StronglySorted (fun x y => fst x >= fst y) pn /\
  forall before node after,
    ordered_node pn = before ++ node :: after ->
    (forall st,
       process_nodes fn boundary_hematocrit flow (ordered_node pn) (ordered_node pn) st
       = (st1 <- process_nodes fn boundary_hematocrit flow (ordered_node pn) before st ;;
          st2 <- process_node fn boundary_hematocrit flow (ordered_node pn) node st1 ;;
          process_nodes fn boundary_hematocrit flow (ordered_node pn) after st2)) /\
    (forall parent_edge edge_daughter,
       scan_ordered (ordered_node pn) node (edges_at (edge_list fn) node 0) []
       = (parent_edge, edge_daughter) ->
       forall e, In e parent_edge ->
         exists on edge,
           In on before /\ on <> node /\
           nth_error (edge_list fn) e = Some edge /\
           isin_edge on edge = true /\ isin_edge node edge = true).
Proof.
  intros H.
  destruct (pressure_node_spec _ _ _ _ H) as (Hperm & Hrows & Hsorted).
  split; [exact Hperm|]. split; [exact Hrows|]. split; [exact Hsorted|].
  intros before node after E.
  assert (Hnd : NoDup (before ++ node :: after)).
  { rewrite <- E. apply (Permutation_NoDup (Permutation_sym Hperm)), seq_NoDup. }
  assert (Hnin : ~ In node before).
  { apply NoDup_remove_2 in Hnd. intros Hb. apply Hnd, in_or_app. left. exact Hb. }
  split.
  - intros st. rewrite E at 2. rewrite process_nodes_app. reflexivity.
  - intros parent_edge edge_daughter Hscan e He.
    rewrite E in Hscan.
    destruct (scan_ordered_spec _ _ _ _ _ _ _ Hnin Hscan) as [Hp _].
    apply Hp in He. destruct He as [[]|(on & edge & Hb & Hin & Hon)].
    apply edges_at_spec in Hin. destruct Hin as (_ & Hn & Hnode).
    rewrite Nat.sub_0_r in Hn.
    exists on, edge. repeat split; auto.
    intros ->. contradiction.
Qed.

(** The nodes 1 and 2 of [diamond] at the same pressure. *)
Lemma level_order :
  pressure_node in_place [5; 4; 4; 2; 1] (nr_of_vs diamond)
  = Ok [(5, 0%nat); (4, 2%nat); (4, 1%nat); (2, 3%nat); (1, 4%nat)].
Proof. unfold diamond. pass_eval. reflexivity. Qed.

Lemma nodes_in_descending_pressure_witness :
  Permutation
    (ordered_node [(5, 0%nat); (4, 2%nat); (4, 1%nat); (2, 3%nat); (1, 4%nat)])
    (seq 0 (nr_of_vs diamond)) /\
  StronglySorted (fun x y => fst x >= fst y)
    [(5, 0%nat); (4, 2%nat); (4, 1%nat); (2, 3%nat); (1, 4%nat)].
Proof.
  destruct (nodes_in_descending_pressure in_place diamond [0.45] [2; 18; 2; 18; 1]
              [5; 4; 4; 2; 1] _ level_order) as (H1 & _ & H3 & _).
  split; assumption.
Defined.

(** * Further properties of the code *)

(** ** The parameters of the split law *)

Lemma fdiv_zero (x y : R) : y = 0 -> x // y = Raise ZeroDivisionError.
Proof. intros ->. unfold fdiv. replace (0 =? 0) with true; [reflexivity|].
  symmetry. now apply Req_b_true. Qed.

Lemma micrometres_zero (d : R) : d * 1E6 = 0 <-> d = 0.
Proof. split; intros H; lra. Qed.

Lemma squares_zero (a b : R) : a ^ 2 + b ^ 2 = 0 <-> a = 0 /\ b = 0.
Proof.
  split.
  - intros H. split; nra.
  - intros [-> ->]. lra.
Qed.

(** X1.  [non_dimentional_param] divides by the parent diameter and by the
    sum of the squares of the daughter diameters: it returns exactly when the
    parent diameter is not 0 and the daughter diameters are not both 0;
    otherwise one of its divisions is by zero ([ZeroDivisionError]; inf or nan
    with numpy scalars). *)
Theorem non_dimentional_param_defined (hemat_par diam_par diam_a diam_b : R) :
  ((diam_par <> 0 /\ ~ (diam_a = 0 /\ diam_b = 0)) <->
   exists x_0 A B,
     non_dimentional_param hemat_par diam_par diam_a diam_b = Ok (x_0, A, B))
  /\
  ((diam_par = 0 \/ (diam_a = 0 /\ diam_b = 0)) <->
   non_dimentional_param hemat_par diam_par diam_a diam_b = Raise ZeroDivisionError).
Proof.
  unfold non_dimentional_param.
  destruct (Req_dec_T diam_par 0) as [Hp|Hp].
  - rewrite (fdiv_zero _ (diam_par * 1E6)) by (apply micrometres_zero; exact Hp).
    cbn [bind]. split; split.
    + intros [H _]. contradiction.
    + intros (x & A & B & H). discriminate.
    + reflexivity.
    + auto.
  - rewrite (fdiv_Ok _ (diam_par * 1E6)) by (rewrite micrometres_zero; exact Hp).
    cbn [bind].
    destruct (Req_dec_T ((diam_a * 1E6) ^ 2 + (diam_b * 1E6) ^ 2) 0) as [Hd|Hd].
    + rewrite (fdiv_zero _ _ Hd). cbn [bind].
      apply squares_zero in Hd. rewrite !micrometres_zero in Hd.
      split; split.
      * intros [_ H]. contradiction.
      * intros (x & A & B & H). discriminate.
      * reflexivity.
      * auto.
    + rewrite (fdiv_Ok _ _ Hd). cbn [bind].
      rewrite !(fdiv_Ok _ (diam_par * 1E6)) by (rewrite micrometres_zero; exact Hp).
      cbn [bind].
      assert (Hn : ~ (diam_a = 0 /\ diam_b = 0)).
      { intros [-> ->]. apply Hd. lra. }
      split; split.
      * intros _. eexists _, _, _. reflexivity.
      * auto.
      * intros [H|H]; contradiction.
      * discriminate.
Qed.

(** What [non_dimentional_param] returns. *)
Lemma non_dimentional_param_inv (hemat_par diam_par diam_a diam_b x_0 A B : R) :
  non_dimentional_param hemat_par diam_par diam_a diam_b = Ok (x_0, A, B) ->
  diam_par * 1E6 <> 0 /\
  (diam_a * 1E6) ^ 2 + (diam_b * 1E6) ^ 2 <> 0 /\
  x_0 = x_o_init * (1 - hemat_par) / (diam_par * 1E6) /\
  A = - A_o_init * (((diam_a * 1E6) ^ 2 - (diam_b * 1E6) ^ 2)
                    / ((diam_a * 1E6) ^ 2 + (diam_b * 1E6) ^ 2))
      * (1 - hemat_par) / (diam_par * 1E6) /\
  B = 1 + B_o_init * (1 - hemat_par) / (diam_par * 1E6).
Proof.
  unfold non_dimentional_param. intros H.
  open_bind H. open_bind H. open_bind H. open_bind H.
  injection H as <- <- <-.
  open_div Ha. open_div Ha0. open_div Ha1. open_div Ha2. subst. auto.
Qed.

Lemma non_dimentional_param_signs (hemat_par diam_par : R) :
  hemat_par <= 1 -> 0 < diam_par ->
  0 <= x_o_init * (1 - hemat_par) / (diam_par * 1E6) /\
  1 <= 1 + B_o_init * (1 - hemat_par) / (diam_par * 1E6) /\
  (hemat_par < 1 -> 0 < x_o_init * (1 - hemat_par) / (diam_par * 1E6)).
Proof.
  intros Hh Hd. unfold x_o_init, B_o_init.
  assert (Hp : 0 < diam_par * 1E6) by lra.
  assert (Hi : 0 < / (diam_par * 1E6)) by (apply Rinv_0_lt_compat; exact Hp).
  replace (1.12 * (1 - hemat_par) / (diam_par * 1E6))
    with (1.12 * ((1 - hemat_par) * / (diam_par * 1E6))) by (field; lra).
  replace (8.13 * (1 - hemat_par) / (diam_par * 1E6))
    with (8.13 * ((1 - hemat_par) * / (diam_par * 1E6))) by (field; lra).
  assert (0 <= (1 - hemat_par) * / (diam_par * 1E6)) by (apply Rmult_le_pos; lra).
  split; [lra|]. split; [lra|].
  intros Hlt.
  assert (0 < (1 - hemat_par) * / (diam_par * 1E6)) by (apply Rmult_lt_0_compat; lra).
  lra.
Qed.

(** X2.  The threshold [x_0] and the scale [B] do not depend on the
    daughters, and exchanging the two daughter diameters changes the sign of
    the asymmetry [A]; [A] is 0 for daughters of equal diameter.  For a
    parent haematocrit of at most 1 and a positive parent diameter, [x_0] is
    not negative and [B] is at least 1. *)
Theorem non_dimentional_param_swap
  (hemat_par diam_par diam_a diam_b x_0 A B : R) :
  non_dimentional_param hemat_par diam_par diam_a diam_b = Ok (x_0, A, B) ->
  non_dimentional_param hemat_par diam_par diam_b diam_a = Ok (x_0, - A, B) /\
  (diam_a = diam_b -> A = 0) /\
  (hemat_par <= 1 -> 0 < diam_par -> 0 <= x_0 /\ 1 <= B).
Proof.
  intros H.
  destruct (non_dimentional_param_inv _ _ _ _ _ _ _ H) as (Hp & Hd & -> & -> & ->).
  split; [|split].
  - unfold non_dimentional_param.
    rewrite (fdiv_Ok _ (diam_par * 1E6)) by assumption. cbn [bind].
    rewrite (fdiv_Ok _ ((diam_b * 1E6) ^ 2 + (diam_a * 1E6) ^ 2)) by lra.
    cbn [bind].
    repeat (rewrite (fdiv_Ok _ (diam_par * 1E6)) by assumption; cbn [bind]).
    f_equal. f_equal. f_equal. field. repeat split; first [assumption | lra].
  - intros ->. field. repeat split; first [assumption | lra].
  - intros Hh Hpos.
    destruct (non_dimentional_param_signs hemat_par diam_par Hh Hpos) as (H1 & H2 & _).
    auto.
Qed.

Lemma non_dimentional_param_swap_witness :
  non_dimentional_param 0.5 4e-6 4e-6 4e-6
  = Ok (x_o_init * (1 - 0.5) / (4e-6 * 1E6),
        - (- A_o_init * (((4e-6 * 1E6) ^ 2 - (4e-6 * 1E6) ^ 2)
                         / ((4e-6 * 1E6) ^ 2 + (4e-6 * 1E6) ^ 2)) * (1 - 0.5)
           / (4e-6 * 1E6)),
        1 + B_o_init * (1 - 0.5) / (4e-6 * 1E6)).
Proof.
  exact (proj1 (non_dimentional_param_swap 0.5 4e-6 4e-6 4e-6 _ _ _ params_4um)).
Defined.

Lemma non_dimentional_param_defined_witness :
  exists x_0 A B, non_dimentional_param 0.45 4e-6 4e-6 3e-6 = Ok (x_0, A, B).
Proof.
  apply (proj1 (proj1 (non_dimentional_param_defined 0.45 4e-6 4e-6 3e-6))).
  split; [lra|]. intros [H _]. lra.
Defined.


(** ** The three regions *)

Lemma rbc_shares_total_aux (ff x_0 A B : R) :
  0 <= x_0 ->
  exists share_a share_b,
    rbc_shares ff x_0 A B = Ok (share_a, share_b) /\
    0 <= share_a <= 1 /\ share_b = 1 - share_a.
Proof.
  intros Hx. unfold rbc_shares.
  destruct (ff <=? x_0) eqn:E1.
  { exists 0, 1. split; [reflexivity|]. split; lra. }
  destruct ((x_0 <? ff) && (ff <? 1 - x_0)) eqn:E2.
  + reflect_tests.
    rewrite fdiv_Ok by lra. cbn [bind]. unfold _logit.
    assert (Hd : 0 < 1 - x_0) by lra.
    assert (Ht : 0 < (ff - x_0) / (1 - x_0) < 1).
    { split.
      - apply Rdiv_lt_0_compat; lra.
      - apply (Rmult_lt_reg_r (1 - x_0)); [lra|].
        unfold Rdiv. rewrite Rmult_assoc, Rinv_l by lra. lra. }
    rewrite fdiv_Ok by lra. cbn [bind].
    assert (Hq : 0 < (ff - x_0) / (1 - x_0) / (1 - (ff - x_0) / (1 - x_0))).
    { apply Rdiv_lt_0_compat; lra. }
    apply Rlt_b_true in Hq. rewrite Hq.
    eexists _, _. split; [reflexivity|].
    pose proof (logistic_range
      (A + B * ln ((ff - x_0) / (1 - x_0) / (1 - (ff - x_0) / (1 - x_0))))).
    split; lra.
  + reflect_tests.
    assert (E3 : (ff >=? 1 - x_0) = true).
    { apply Rle_b_true. apply andb_false_iff in E2.
      destruct E2 as [E2|E2]; reflect_tests; lra. }
    rewrite E3. exists 1, 0. split; [reflexivity|]. split; lra.
Qed.

(** X3.  For a threshold [x_0] that is not negative the three region law
    always yields the two shares: none of its divisions is by zero and the
    logarithm is taken of a positive number; the share of a lies in [0, 1] and
    the share of b is the rest.  Whatever [x_0], the three tests of the source
    leave no case in which the shares stay unbound.  A negative [x_0] can make
    the law divide by zero: for [x_0 = -1] and all the flow in daughter a the
    argument of the logit is 1. *)
Theorem rbc_shares_defined (ff x_0 A B : R) :
  (0 <= x_0 ->
   exists share_a share_b,
     rbc_shares ff x_0 A B = Ok (share_a, share_b) /\
     0 <= share_a <= 1 /\ share_b = 1 - share_a)
  /\ rbc_shares ff x_0 A B <> Raise UnboundLocalError
  /\ rbc_shares 1 (-1) A B = Raise ZeroDivisionError.
Proof.
  split; [|split].
  - apply rbc_shares_total_aux.
  - unfold rbc_shares, _logit, fdiv.
    destruct (ff <=? x_0) eqn:E1; [discriminate|].
    destruct ((x_0 <? ff) && (ff <? 1 - x_0)) eqn:E2.
    + repeat (match goal with
              | |- context [if ?b then _ else _] => destruct b
              end; cbn [bind]); discriminate.
    + assert (E3 : (ff >=? 1 - x_0) = true).
      { apply Rle_b_true. apply andb_false_iff in E2. reflect_tests.
        destruct E2 as [E2|E2]; reflect_tests; lra. }
      rewrite E3. discriminate.
  - unfold rbc_shares. float_eval. unfold _logit.
    rewrite fdiv_zero by lra. reflexivity.
Qed.

Lemma rbc_shares_defined_witness :
  exists share_a share_b,
    rbc_shares (1 / 2) (1 / 4) 0 1 = Ok (share_a, share_b) /\
    0 <= share_a <= 1 /\ share_b = 1 - share_a.
Proof.
  apply (proj1 (rbc_shares_defined (1 / 2) (1 / 4) 0 1)). lra.
Defined.

(** X4.  The law does not treat the two daughters alike.  For daughters of
    equal diameter that take the same flow, a parent haematocrit below 1 and a
    threshold [x_0] below one half, daughter a, the one passed first, gets
    less than half of the red cells and daughter b more than half: the
    argument of the logit is [(ff_a - x_0) / (1 - x_0)], which is below one
    half at [ff_a = 1/2]. *)
Theorem even_split_favours_b
  (hemat_par diam_par diam flow x_0 A B share_a share_b : R) :
  non_dimentional_param hemat_par diam_par diam diam = Ok (x_0, A, B) ->
  hemat_par < 1 -> 0 < diam_par -> x_0 < 1 / 2 -> flow <> 0 ->
  rbc_shares (flow / (flow + flow)) x_0 A B = Ok (share_a, share_b) ->
  share_a < 1 / 2 /\ 1 / 2 < share_b.
Proof.
  intros Hp Hh Hd Hx Hf Hs.
  destruct (non_dimentional_param_inv _ _ _ _ _ _ _ Hp) as (Hnz & Hsq & Ex & EA & EB).
  destruct (non_dimentional_param_signs hemat_par diam_par (Rlt_le _ _ Hh) Hd)
    as (_ & HB & Hx0).
  specialize (Hx0 Hh). rewrite <- Ex in Hx0. rewrite <- EB in HB.
  assert (A0 : A = 0).
  { rewrite EA. field. repeat split; first [assumption | lra | nra]. }
  replace (flow / (flow + flow)) with (1 / 2) in Hs
    by (field; try assumption; intros E; apply Hf; lra).
  clear Ex EA EB Hp. subst A.
  revert Hs. unfold rbc_shares.
  assert (E1 : (1 / 2 <=? x_0) = false) by (apply Rle_b_false; lra).
  assert (E2 : (x_0 <? 1 / 2) = true) by (apply Rlt_b_true; lra).
  assert (E3 : (1 / 2 <? 1 - x_0) = true) by (apply Rlt_b_true; lra).
  rewrite E1, E2, E3. cbn [andb].
  intros H. open_bind H. open_bind H. injection H as <- <-.
  open_div Ha. subst a. unfold _logit in Ha0.
  open_bind Ha0. open_div Ha.
  destruct (0 <? a) eqn:Eq; [|discriminate]. injection Ha0 as <-.
  reflect_tests.
  assert (Hq : a = 1 - 2 * x_0).
  { subst a. field. split; lra. }
  assert (Hln : ln a < 0).
  { rewrite <- ln_1. apply ln_increasing; lra. }
  assert (HL : 0 + B * ln a < 0).
  { assert (B * ln a < 0) by nra. lra. }
  assert (He : exp (0 + B * ln a) < 1).
  { rewrite <- exp_0. apply exp_increasing. exact HL. }
  pose proof (exp_pos (0 + B * ln a)) as Hpos.
  assert (Hhalf : exp (0 + B * ln a) / (1 + exp (0 + B * ln a)) < 1 / 2).
  { apply (Rmult_lt_reg_r (1 + exp (0 + B * ln a))); [lra|].
    unfold Rdiv at 1. rewrite Rmult_assoc, Rinv_l by lra. lra. }
  split; lra.
Qed.

Lemma even_split_favours_b_witness :
  exists share_a share_b : R,
    rbc_shares (1 / (1 + 1)) (x_o_init * (1 - 0.5) / (4e-6 * 1E6))
      (- A_o_init * (((4e-6 * 1E6) ^ 2 - (4e-6 * 1E6) ^ 2)
                     / ((4e-6 * 1E6) ^ 2 + (4e-6 * 1E6) ^ 2)) * (1 - 0.5)
       / (4e-6 * 1E6))
      (1 + B_o_init * (1 - 0.5) / (4e-6 * 1E6))
    = Ok (share_a, share_b) /\
    share_a < 1 / 2 /\ 1 / 2 < share_b.
Proof.
  assert (Hx : 0 <= x_o_init * (1 - 0.5) / (4e-6 * 1E6)) by (unfold x_o_init; lra).
  destruct (rbc_shares_total_aux (1 / (1 + 1)) _
              (- A_o_init * (((4e-6 * 1E6) ^ 2 - (4e-6 * 1E6) ^ 2)
                             / ((4e-6 * 1E6) ^ 2 + (4e-6 * 1E6) ^ 2)) * (1 - 0.5)
               / (4e-6 * 1E6))
              (1 + B_o_init * (1 - 0.5) / (4e-6 * 1E6)) Hx)
    as (sa & sb & E & _).
  exists sa, sb. split; [exact E|].
  apply (even_split_favours_b 0.5 4e-6 4e-6 1 _ _ _ sa sb params_4um);
    try lra; [unfold x_o_init; lra | exact E].
Defined.


(** ** The handlers *)

Ltac balanced_tests :=
  unfold qRCS, qRCS_balance, tollerance; cbn [num bind];
  repeat match goal with
    | |- context [Rle_b ?x ?y] =>
        replace (Rle_b x y) with true by (symmetry; apply Rle_b_true; assumption)
    end;
  cbn [bind Nat.eqb].

Lemma Rabs_small (x y : R) : x = y -> Rabs (x - y) <= 1.00E-05.
Proof. intros ->. rewrite Rminus_diag, Rabs_R0. lra. Qed.

(** X5.  A split that the law computes never counts as an imbalance:
    when [get_erythrocyte_fraction] returns for daughter flows of at least
    1E-36 each and the flows balance within 1E-5, [hematocrit_1_2] returns the
    same two haematocrits, leaves [rbc_balance] as it was and prints
    nothing. *)
Theorem hematocrit_1_2_balanced
  (flow_parent hemat_parent flow_daughter_a flow_daughter_b : R) (rbc_balance : nat)
  (diameter_parent diameter_a diameter_b hematocrit_a hematocrit_b : R)
  (entry : split_log) :
  1E-36 <= flow_daughter_a -> 1E-36 <= flow_daughter_b ->
  Rabs (flow_parent - (flow_daughter_a + flow_daughter_b)) <= 1E-5 ->
  get_erythrocyte_fraction hemat_parent diameter_parent diameter_a diameter_b
    flow_parent flow_daughter_a flow_daughter_b
  = Ok (hematocrit_a, hematocrit_b, entry) ->
  hematocrit_1_2 flow_parent hemat_parent flow_daughter_a flow_daughter_b rbc_balance
    diameter_parent diameter_a diameter_b
  = Ok (hematocrit_a, hematocrit_b, rbc_balance, entry, []).
Proof.
  intros Ha Hb Hflow H.
  pose proof (get_erythrocyte_fraction_balance_exact _ _ _ _ _ _ _ _ _ _ Ha Hb H) as E.
  unfold hematocrit_1_2. rewrite H. cbn [bind].
  assert (Hrbc : Rabs (flow_parent * hemat_parent
                       - (flow_daughter_a * hematocrit_a
                          + flow_daughter_b * hematocrit_b)) <= 1.00E-05).
  { apply Rabs_small. lra. }
  assert (Hflow' : Rabs (flow_parent - (flow_daughter_a + flow_daughter_b))
                   <= 1.00E-05) by lra.
  balanced_tests. rewrite Nat.add_0_r. reflexivity.
Qed.

Lemma hematocrit_1_2_balanced_witness :
  hematocrit_1_2 10 0.5 1 9 0 4e-6 4e-6 4e-6
  = Ok (0 * (0.5 * 10) / 1, 1 * (0.5 * 10) / 9, 0%nat,
        mk_split_log 0 1 (1 / (1 + 9)) (9 / (1 + 9)) 0.5, []).
Proof.
  apply hematocrit_1_2_balanced.
  - lra.
  - lra.
  - replace (10 - (1 + 9)) with 0 by lra. rewrite Rabs_R0. lra.
  - exact split_1_9.
Defined.

(** The flow weighted mean of two numbers lies between them. *)
Lemma weighted_mean_between (fa fb ha hb : R) :
  0 < fa -> 0 < fb ->
  Rmin ha hb <= (fa * ha + fb * hb) / (fa + fb) <= Rmax ha hb.
Proof.
  intros Hfa Hfb.
  assert (Hs : 0 < fa + fb) by lra.
  pose proof (Rmin_l ha hb). pose proof (Rmin_r ha hb).
  pose proof (Rmax_l ha hb). pose proof (Rmax_r ha hb).
  split.
  - apply (Rmult_le_reg_r (fa + fb)); [exact Hs|].
    unfold Rdiv. rewrite Rmult_assoc, Rinv_l by lra. nra.
  - apply (Rmult_le_reg_r (fa + fb)); [exact Hs|].
    unfold Rdiv. rewrite Rmult_assoc, Rinv_l by lra. nra.
Qed.

(** X6.  [hematocrit_2_1] divides by the sum of the two parent flows: by
    zero ([ZeroDivisionError]; nan or inf with numpy scalars) exactly when
    they add up to 0.  Otherwise, when the daughter carries the sum
    of the parent flows, it returns the flow weighted mean of the parent
    haematocrits, which carries the red cell flux of both parents, leaves
    [rbc_balance] as it was and prints nothing; the result is the same with
    the parents exchanged, and lies between the two parent haematocrits when
    both parent flows are positive. *)
Theorem hematocrit_2_1_mean
  (flow_parent_a flow_parent_b flow_daughter hemat_parent_a hemat_parent_b : R)
  (rbc_balance : nat) :
  (flow_parent_a + flow_parent_b = 0 <->
   hematocrit_2_1 flow_parent_a flow_parent_b flow_daughter
     hemat_parent_a hemat_parent_b rbc_balance = Raise ZeroDivisionError)
  /\
  (flow_parent_a + flow_parent_b <> 0 ->
   flow_daughter = flow_parent_a + flow_parent_b ->
   let hematocrit := (flow_parent_a * hemat_parent_a + flow_parent_b * hemat_parent_b)
                     / (flow_parent_a + flow_parent_b) in
   hematocrit_2_1 flow_parent_a flow_parent_b flow_daughter
     hemat_parent_a hemat_parent_b rbc_balance = Ok (hematocrit, rbc_balance, []) /\
   hematocrit_2_1 flow_parent_b flow_parent_a flow_daughter
     hemat_parent_b hemat_parent_a rbc_balance = Ok (hematocrit, rbc_balance, []) /\
   hematocrit * flow_daughter
   = flow_parent_a * hemat_parent_a + flow_parent_b * hemat_parent_b /\
   (0 < flow_parent_a -> 0 < flow_parent_b ->
    Rmin hemat_parent_a hemat_parent_b <= hematocrit
    <= Rmax hemat_parent_a hemat_parent_b)).
Proof.
  split.
  - unfold hematocrit_2_1. split.
    + intros H. rewrite (fdiv_zero _ _ H). reflexivity.
    + destruct (Req_dec_T (flow_parent_a + flow_parent_b) 0) as [E|E]; [auto|].
      rewrite (fdiv_Ok _ _ E). cbn [bind]. unfold qRCS, qRCS_balance. cbn [num bind].
      repeat (match goal with
              | |- context [if ?b then _ else _] => destruct b
              end; cbn [bind]); discriminate.
  - intros Hnz Hd hematocrit.
    assert (Hflux : hematocrit * flow_daughter
                    = flow_parent_a * hemat_parent_a + flow_parent_b * hemat_parent_b).
    { unfold hematocrit. rewrite Hd. field. exact Hnz. }
    assert (Hsame : (flow_parent_b * hemat_parent_b + flow_parent_a * hemat_parent_a)
                    / (flow_parent_b + flow_parent_a) = hematocrit).
    { unfold hematocrit. field.
      repeat split; try assumption; intros E0; apply Hnz; lra. }
    split; [|split; [|split]].
    + unfold hematocrit_2_1. rewrite (fdiv_Ok _ _ Hnz). cbn [bind].
      fold hematocrit.
      assert (H1 : Rabs (flow_parent_a + flow_parent_b - flow_daughter) <= 1.00E-05)
        by (apply Rabs_small; lra).
      assert (H2 : Rabs (flow_parent_a * hemat_parent_a + flow_parent_b * hemat_parent_b
                         - flow_daughter * hematocrit) <= 1.00E-05)
        by (apply Rabs_small; lra).
      balanced_tests. rewrite Nat.add_0_r. reflexivity.
    + unfold hematocrit_2_1. rewrite fdiv_Ok by lra. cbn [bind].
      rewrite Hsame.
      assert (H1 : Rabs (flow_parent_b + flow_parent_a - flow_daughter) <= 1.00E-05)
        by (apply Rabs_small; lra).
      assert (H2 : Rabs (flow_parent_b * hemat_parent_b + flow_parent_a * hemat_parent_a
                         - flow_daughter * hematocrit) <= 1.00E-05)
        by (apply Rabs_small; lra).
      balanced_tests. rewrite Nat.add_0_r. reflexivity.
    + exact Hflux.
    + intros Ha Hb. apply weighted_mean_between; assumption.
Qed.

Lemma hematocrit_2_1_mean_witness :
  hematocrit_2_1 0.5 0.5 1 0.4 0.6 0
  = Ok ((0.5 * 0.4 + 0.5 * 0.6) / (0.5 + 0.5), 0%nat, []) /\
  hematocrit_2_1 0.5 0.5 1 0.6 0.4 0
  = Ok ((0.5 * 0.4 + 0.5 * 0.6) / (0.5 + 0.5), 0%nat, []).
Proof.
  assert (H1 : 0.5 + 0.5 <> 0) by lra.
  assert (H2 : 1 = 0.5 + 0.5) by lra.
  destruct (proj2 (hematocrit_2_1_mean 0.5 0.5 1 0.4 0.6 0) H1 H2) as (A & B & _).
  split; assumption.
Defined.


Lemma weighted_mean3_between (fa fb fc ha hb hc : R) :
  0 < fa -> 0 < fb -> 0 < fc ->
  Rmin ha (Rmin hb hc) <= (fa * ha + fb * hb + fc * hc) / (fa + fb + fc)
  <= Rmax ha (Rmax hb hc).
Proof.
  intros Hfa Hfb Hfc.
  assert (Hs : 0 < fa + fb + fc) by lra.
  pose proof (Rmin_l ha (Rmin hb hc)). pose proof (Rmin_r ha (Rmin hb hc)).
  pose proof (Rmin_l hb hc). pose proof (Rmin_r hb hc).
  pose proof (Rmax_l ha (Rmax hb hc)). pose proof (Rmax_r ha (Rmax hb hc)).
  pose proof (Rmax_l hb hc). pose proof (Rmax_r hb hc).
  split.
  - apply (Rmult_le_reg_r (fa + fb + fc)); [exact Hs|].
    unfold Rdiv. rewrite Rmult_assoc, Rinv_l by lra. nra.
  - apply (Rmult_le_reg_r (fa + fb + fc)); [exact Hs|].
    unfold Rdiv. rewrite Rmult_assoc, Rinv_l by lra. nra.
Qed.

(** X7.  [hematocrit_3_1] divides by the sum of the three parent flows: by
    zero ([ZeroDivisionError]; nan or inf with numpy scalars) exactly when
    they add up to 0.  Otherwise, when the daughter carries the
    sum of the parent flows, it returns the flow weighted mean of the three
    parent haematocrits, which carries the red cell flux of the parents,
    leaves [rbc_balance] as it was and prints nothing; the mean lies between
    the least and the greatest parent haematocrit when the three flows are
    positive. *)
Theorem hematocrit_3_1_mean
  (flow_parent_a flow_parent_b flow_parent_c flow_daughter
   hemat_parent_a hemat_parent_b hemat_parent_c : R) (rbc_balance : nat) :
  (flow_parent_a + flow_parent_b + flow_parent_c = 0 <->
   hematocrit_3_1 flow_parent_a flow_parent_b flow_parent_c flow_daughter
     hemat_parent_a hemat_parent_b hemat_parent_c rbc_balance
   = Raise ZeroDivisionError)
  /\
  (flow_parent_a + flow_parent_b + flow_parent_c <> 0 ->
   flow_daughter = flow_parent_a + flow_parent_b + flow_parent_c ->
   let hematocrit := (flow_parent_a * hemat_parent_a + flow_parent_b * hemat_parent_b
                      + flow_parent_c * hemat_parent_c)
                     / (flow_parent_a + flow_parent_b + flow_parent_c) in
   hematocrit_3_1 flow_parent_a flow_parent_b flow_parent_c flow_daughter
     hemat_parent_a hemat_parent_b hemat_parent_c rbc_balance
   = Ok (hematocrit, rbc_balance, []) /\
   hematocrit * flow_daughter
   = flow_parent_a * hemat_parent_a + flow_parent_b * hemat_parent_b
     + flow_parent_c * hemat_parent_c /\
   (0 < flow_parent_a -> 0 < flow_parent_b -> 0 < flow_parent_c ->
    Rmin hemat_parent_a (Rmin hemat_parent_b hemat_parent_c) <= hematocrit
    <= Rmax hemat_parent_a (Rmax hemat_parent_b hemat_parent_c))).
Proof.
  split.
  - unfold hematocrit_3_1. split.
    + intros H. rewrite (fdiv_zero _ _ H). reflexivity.
    + destruct (Req_dec_T (flow_parent_a + flow_parent_b + flow_parent_c) 0)
        as [E|E]; [auto|].
      rewrite (fdiv_Ok _ _ E). cbn [bind]. unfold qRCS, qRCS_balance. cbn [num bind].
      repeat (match goal with
              | |- context [if ?b then _ else _] => destruct b
              end; cbn [bind]); discriminate.
  - intros Hnz Hd hematocrit.
    assert (Hflux : hematocrit * flow_daughter
                    = flow_parent_a * hemat_parent_a + flow_parent_b * hemat_parent_b
                      + flow_parent_c * hemat_parent_c).
    { unfold hematocrit. rewrite Hd. field. exact Hnz. }
    split; [|split].
    + unfold hematocrit_3_1. rewrite (fdiv_Ok _ _ Hnz). cbn [bind].
      fold hematocrit.
      assert (H1 : Rabs (flow_parent_a + flow_parent_b + flow_parent_c - flow_daughter)
                   <= 1.00E-05) by (apply Rabs_small; lra).
      assert (H2 : Rabs (flow_parent_a * hemat_parent_a + flow_parent_b * hemat_parent_b
                         + flow_parent_c * hemat_parent_c
                         - flow_daughter * hematocrit) <= 1.00E-05)
        by (apply Rabs_small; lra).
      balanced_tests. rewrite Nat.add_0_r. reflexivity.
    + exact Hflux.
    + intros Ha Hb Hc. apply weighted_mean3_between; assumption.
Qed.

Lemma hematocrit_3_1_mean_witness :
  hematocrit_3_1 1 1 2 4 0.2 0.4 0.5 0
  = Ok ((1 * 0.2 + 1 * 0.4 + 2 * 0.5) / (1 + 1 + 2), 0%nat, []).
Proof.
  assert (H1 : 1 + 1 + 2 <> 0) by lra.
  assert (H2 : 4 = 1 + 1 + 2) by lra.
  exact (proj1 (proj2 (hematocrit_3_1_mean 1 1 2 4 0.2 0.4 0.5 0) H1 H2)).
Defined.

(** X8.  A node with two parents and two daughters keeps the red cells:
    [hematocrit_2_2_aux] merges the parents into one stream with the sum of
    their flows and the sum of their red cell fluxes (it divides by
    zero exactly when the flows add up to 0), and when [hematocrit_1_2]
    then splits that stream between daughters with flows of at least 1E-36,
    the red cell flux of the two daughters is the red cell flux of the two
    parents. *)
Theorem hematocrit_2_2_keeps_red_cells
  (hemat_a hemat_b flow_a flow_b diameter_a diameter_b : R) :
  (flow_a + flow_b = 0 <->
   hematocrit_2_2_aux hemat_a hemat_b flow_a flow_b diameter_a diameter_b
   = Raise ZeroDivisionError)
  /\
  (forall diameter_parent flow_parent hemat_parent,
     hematocrit_2_2_aux hemat_a hemat_b flow_a flow_b diameter_a diameter_b
     = Ok (diameter_parent, flow_parent, hemat_parent) ->
     diameter_parent = (diameter_a + diameter_b) / 2 /\
     flow_parent = flow_a + flow_b /\
     hemat_parent * flow_parent = flow_a * hemat_a + flow_b * hemat_b /\
     forall flow_daughter_a flow_daughter_b (rbc_balance rbc_balance1 : nat)
            diameter_da diameter_db hematocrit_a hematocrit_b entry printed,
       1E-36 <= flow_daughter_a -> 1E-36 <= flow_daughter_b ->
       hematocrit_1_2 flow_parent hemat_parent flow_daughter_a flow_daughter_b
         rbc_balance diameter_parent diameter_da diameter_db
       = Ok (hematocrit_a, hematocrit_b, rbc_balance1, entry, printed) ->
       hematocrit_a * flow_daughter_a + hematocrit_b * flow_daughter_b
       = flow_a * hemat_a + flow_b * hemat_b).
Proof.
  split.
  - unfold hematocrit_2_2_aux. split.
    + intros H. rewrite (fdiv_zero _ _ H). reflexivity.
    + destruct (Req_dec_T (flow_a + flow_b) 0) as [E|E]; [auto|].
      rewrite (fdiv_Ok _ _ E). cbn [bind]. discriminate.
  - unfold hematocrit_2_2_aux. intros dp fp hp H.
    open_bind H. injection H as <- <- <-. open_div Ha. subst a.
    assert (Hflux : (flow_a * hemat_a + flow_b * hemat_b) / (flow_a + flow_b)
                    * (flow_a + flow_b) = flow_a * hemat_a + flow_b * hemat_b)
      by (field; exact Hnz).
    split; [reflexivity|]. split; [reflexivity|]. split; [exact Hflux|].
    intros fda fdb rb rb1 dda ddb ha hb entry printed Hfa Hfb H.
    unfold hematocrit_1_2 in H. open_bind H. destruct a as [[ha' hb'] e'].
    open_bind H. destruct a as [flag pr]. injection H as <- <- _ _ _.
    rewrite (get_erythrocyte_fraction_balance_exact _ _ _ _ _ _ _ _ _ _ Hfa Hfb Ha).
    exact Hflux.
Qed.

Lemma hematocrit_2_2_keeps_red_cells_witness :
  (1 + 19) / 2 = (1 + 19) / 2 /\
  1 + 9 = 1 + 9 /\
  (1 * 0.3 + 9 * 0.7) / (1 + 9) * (1 + 9) = 1 * 0.3 + 9 * 0.7.
Proof.
  assert (E : hematocrit_2_2_aux 0.3 0.7 1 9 1 19
              = Ok ((1 + 19) / 2, 1 + 9, (1 * 0.3 + 9 * 0.7) / (1 + 9))).
  { unfold hematocrit_2_2_aux. float_eval. reflexivity. }
  destruct (proj2 (hematocrit_2_2_keeps_red_cells 0.3 0.7 1 9 1 19) _ _ _ E)
    as (H1 & H2 & H3 & _).
  auto.
Defined.

(** X9.  The handlers without a split pass the haematocrit of the parent
    on.  [hematocrit_1_1] never fails and returns it for the daughter.
    [hematocrit_1_3] divides by [flow_parent * hemat_parent] and by
    [flow_parent] for its plot lists: one of these divisions is by zero
    ([ZeroDivisionError]; inf or nan with numpy scalars) exactly when the flow
    or the haematocrit of the parent is 0; otherwise it returns the
    haematocrit of the parent for each of the three daughters, and the
    entries it appends to the two plot lists are the same, the share of each
    daughter in the flow of the parent.  When the flow of the parent is the
    flow of the daughter, or the sum of the flows of the three daughters,
    [rbc_balance] stays as it was and nothing is printed. *)
Theorem pass_through_handlers (hemat_parent flow_parent : R) (rbc_balance : nat) :
  (forall flow_daughter,
     exists flag printed,
       hematocrit_1_1 hemat_parent flow_parent flow_daughter rbc_balance
       = Ok (hemat_parent, (rbc_balance + flag)%nat, printed) /\
       (flag = 0%nat \/ flag = 1%nat) /\
       (flow_parent = flow_daughter -> flag = 0%nat /\ printed = []))
  /\
  (forall flow_daughter_a flow_daughter_b flow_daughter_c,
     ((flow_parent = 0 \/ hemat_parent = 0) <->
      hematocrit_1_3 flow_parent hemat_parent
        flow_daughter_a flow_daughter_b flow_daughter_c rbc_balance
      = Raise ZeroDivisionError) /\
     (flow_parent <> 0 -> hemat_parent <> 0 ->
      exists flag printed,
        hematocrit_1_3 flow_parent hemat_parent
          flow_daughter_a flow_daughter_b flow_daughter_c rbc_balance
        = Ok (hemat_parent, hemat_parent, hemat_parent, (rbc_balance + flag)%nat,
              mk_trifurc_log
                [flow_daughter_a / flow_parent; flow_daughter_b / flow_parent;
                 flow_daughter_c / flow_parent]
                [flow_daughter_a / flow_parent; flow_daughter_b / flow_parent;
                 flow_daughter_c / flow_parent],
              printed) /\
        (flag = 0%nat \/ flag = 1%nat) /\
        (flow_parent = flow_daughter_a + flow_daughter_b + flow_daughter_c ->
         flag = 0%nat /\ printed = []))).
Proof.
  split.
  - intros fd. unfold hematocrit_1_1.
    destruct (balance_flag (Rabs (flow_parent - fd))
                (Rabs (flow_parent * hemat_parent - fd * hemat_parent)))
      as (flag & E & Hv & Hiff).
    rewrite (qRCS_of_balance 1 (Some flow_parent) None None (Some fd) None None
               (Some hemat_parent) None None (Some hemat_parent) None None flag E).
    cbn [bind].
    eexists _, _. split; [reflexivity|]. split; [exact Hv|].
    intros ->. assert (F : flag = 0%nat).
    { apply Hiff. rewrite !Rminus_diag, Rabs_R0. lra. }
    subst flag. split; reflexivity.
  - intros fa fb fc. unfold hematocrit_1_3.
    destruct (balance_flag (Rabs (flow_parent - (fa + fb + fc)))
                (Rabs (flow_parent * hemat_parent
                       - (fa * hemat_parent + fb * hemat_parent + fc * hemat_parent))))
      as (flag & E & Hv & Hiff).
    rewrite (qRCS_of_balance 3 (Some flow_parent) None None (Some fa) (Some fb) (Some fc)
               (Some hemat_parent) None None
               (Some hemat_parent) (Some hemat_parent) (Some hemat_parent) flag E).
    cbn [bind].
    destruct (Req_dec_T (flow_parent * hemat_parent) 0) as [Hz|Hnz].
    + rewrite (fdiv_zero _ _ Hz). cbn [bind]. split.
      * split; [reflexivity|]. intros _.
        destruct (Req_dec_T flow_parent 0) as [Hf|Hf]; [left; exact Hf|].
        right. apply Rmult_integral in Hz. destruct Hz; [contradiction|assumption].
      * intros Hf Hh. exfalso.
        apply Rmult_integral in Hz. destruct Hz; contradiction.
    + assert (Hf : flow_parent <> 0) by (intros ->; apply Hnz; lra).
      assert (Hh : hemat_parent <> 0) by (intros ->; apply Hnz; lra).
      rewrite !(fdiv_Ok _ (flow_parent * hemat_parent)) by exact Hnz.
      cbn [bind].
      rewrite !(fdiv_Ok _ flow_parent) by exact Hf.
      cbn [bind]. split.
      * split; [intros [H|H]; contradiction | discriminate].
      * intros _ _. eexists _, _. split.
        -- replace (fa * hemat_parent / (flow_parent * hemat_parent))
             with (fa / flow_parent) by (field; split; assumption).
           replace (fb * hemat_parent / (flow_parent * hemat_parent))
             with (fb / flow_parent) by (field; split; assumption).
           replace (fc * hemat_parent / (flow_parent * hemat_parent))
             with (fc / flow_parent) by (field; split; assumption).
           reflexivity.
        -- split; [exact Hv|].
           intros ->. assert (F : flag = 0%nat).
           { apply Hiff. rewrite Rminus_diag, Rabs_R0. split; [lra|].
             replace ((fa + fb + fc) * hemat_parent
                      - (fa * hemat_parent + fb * hemat_parent + fc * hemat_parent))
               with 0 by lra.
             rewrite Rabs_R0. lra. }
           subst flag. split; reflexivity.
Qed.

Lemma pass_through_handlers_witness :
  exists flag printed,
    hematocrit_1_1 0.45 1 1 0 = Ok (0.45, (0 + flag)%nat, printed) /\
    flag = 0%nat /\ printed = [].
Proof.
  destruct (proj1 (pass_through_handlers 0.45 1 0) 1) as (flag & printed & E & _ & H).
  exists flag, printed. split; [exact E|]. apply H. reflexivity.
Defined.


(** ** The steps of a pass *)

Lemma update_length {A : Type} (a : list A) (i : nat) (v : A) :
  length (update a i v) = length a.
Proof.
  revert i. induction a as [|x a IH]; intros i; [reflexivity|].
  destruct i; cbn [update length]; [reflexivity|]. now rewrite IH.
Qed.

Lemma update_other {A : Type} (a : list A) (i j : nat) (v : A) :
  j <> i -> nth_error (update a i v) j = nth_error a j.
Proof.
  revert i j. induction a as [|x a IH]; intros i j Hne; [reflexivity|].
  destruct i, j; cbn [update nth_error]; try reflexivity; try contradiction.
  apply IH. intros ->. apply Hne. reflexivity.
Qed.

Lemma set_inv {A : Type} (a a1 : list A) (i : nat) (v : A) :
  set a i v = Ok a1 ->
  length a1 = length a /\ forall j, j <> i -> nth_error a1 j = nth_error a j.
Proof.
  unfold set. destruct (Nat.ltb i (length a)); [|discriminate].
  intros H. injection H as <-. split; [apply update_length|].
  intros j Hj. apply update_other. exact Hj.
Qed.

(** The flag of [qRCS] is 0 or 1. *)
Lemma qRCS_flag (case : nat) (a b c d e f g h i j k l : option R)
  (flag : nat) (lines : list event) :
  qRCS case a b c d e f g h i j k l = Ok (flag, lines) -> (flag <= 1)%nat.
Proof.
  unfold qRCS. intros H. open_bind H.
  assert (Hf : (a0 <= 1)%nat).
  { revert Ha. unfold qRCS_balance.
    destruct case as [|[|[|[|[|[|n]]]]]];
      try (intros E; injection E as <-; lia);
      intros E;
      repeat (open_bind E);
      repeat match type of E with
        | (if ?t then _ else _) = _ => destruct t
        | _ => open_bind E
        end;
      try (injection E as <-; lia). }
  destruct (Nat.eqb a0 1); injection H as <- _; exact Hf.
Qed.


(** Each handler adds the flag of [qRCS] to the count. *)
Ltac handler_count H :=
  repeat first
    [ match type of H with
      | bind _ _ = Ok _ =>
          let a := fresh "a" in
          let Ha := fresh "Ha" in
          apply bind_Ok in H; destruct H as (a & Ha & H)
      | (let '(_, _) := ?x in _) = Ok _ => destruct x
      end ];
  match goal with
  | Hq : qRCS _ _ _ _ _ _ _ _ _ _ _ _ _ = Ok _ |- _ => apply qRCS_flag in Hq
  end;
  repeat match goal with
    | E : Ok _ = Ok _ |- _ => injection E as <-
    end;
  try (injection H; intros; subst); lia.

Lemma hematocrit_1_1_count (hp fp fd h : R) (rb rb1 : nat) (lines : list event) :
  hematocrit_1_1 hp fp fd rb = Ok (h, rb1, lines) -> (rb <= rb1 <= rb + 1)%nat.
Proof. unfold hematocrit_1_1. intros H. handler_count H. Qed.

Lemma hematocrit_1_3_count (fp hp fa fb fc ha hb hc : R) (rb rb1 : nat)
  (e : trifurc_log) (lines : list event) :
  hematocrit_1_3 fp hp fa fb fc rb = Ok (ha, hb, hc, rb1, e, lines) ->
  (rb <= rb1 <= rb + 1)%nat.
Proof. unfold hematocrit_1_3. intros H. handler_count H. Qed.

Lemma hematocrit_2_1_count (fa fb fd ha hb h : R) (rb rb1 : nat) (lines : list event) :
  hematocrit_2_1 fa fb fd ha hb rb = Ok (h, rb1, lines) -> (rb <= rb1 <= rb + 1)%nat.
Proof. unfold hematocrit_2_1. intros H. handler_count H. Qed.

Lemma hematocrit_1_2_count (fp hp fa fb dp da db ha hb : R) (rb rb1 : nat)
  (e : split_log) (lines : list event) :
  hematocrit_1_2 fp hp fa fb rb dp da db = Ok (ha, hb, rb1, e, lines) ->
  (rb <= rb1 <= rb + 1)%nat.
Proof. unfold hematocrit_1_2. intros H. handler_count H. Qed.

Lemma hematocrit_3_1_count (fa fb fc fd ha hb hc h : R) (rb rb1 : nat)
  (lines : list event) :
  hematocrit_3_1 fa fb fc fd ha hb hc rb = Ok (h, rb1, lines) ->
  (rb <= rb1 <= rb + 1)%nat.
Proof. unfold hematocrit_3_1. intros H. handler_count H. Qed.


(** Opens the binds, the pairs and the tests of one arm of a step. *)
Ltac open_arm H :=
  repeat first
    [ progress cbn [bind var vars st_hd rbc_balance plots printed
                    single_daughter daughter_a daughter_b daughter_c
                    parent parent_a parent_b parent_c] in H
    | match type of H with
      | bind _ _ = Ok _ =>
          let a := fresh "a" in
          let Ha := fresh "Ha" in
          apply bind_Ok in H; destruct H as (a & Ha & H);
          cbn [var vars single_daughter daughter_a daughter_b daughter_c
               parent parent_a parent_b parent_c] in Ha;
          try (injection Ha as <-)
      | (let '(_, _) := ?x in _) = Ok _ => destruct x
      | (if ?t then _ else _) = Ok _ => destruct t eqn:?
      end ].

Ltac use_counts :=
  repeat match goal with
    | Hh : hematocrit_1_1 _ _ _ _ = Ok _ |- _ => apply hematocrit_1_1_count in Hh
    | Hh : hematocrit_1_3 _ _ _ _ _ _ = Ok _ |- _ => apply hematocrit_1_3_count in Hh
    | Hh : hematocrit_2_1 _ _ _ _ _ _ = Ok _ |- _ => apply hematocrit_2_1_count in Hh
    | Hh : hematocrit_1_2 _ _ _ _ _ _ _ _ = Ok _ |- _ => apply hematocrit_1_2_count in Hh
    | Hh : hematocrit_3_1 _ _ _ _ _ _ _ _ = Ok _ |- _ => apply hematocrit_3_1_count in Hh
    end.

Ltac use_sets :=
  repeat match goal with
    | Hs : set _ _ _ = Ok _ |- _ =>
        let L := fresh "L" in
        let F := fresh "F" in
        apply set_inv in Hs; destruct Hs as [L F]
    end.

Ltac frame_goal :=
  let j := fresh "j" in
  let Hj := fresh "Hj" in
  intros j Hj;
  repeat match goal with
    | F : forall k, k <> ?i -> nth_error ?a k = _ |- context [nth_error ?a ?j0] =>
        rewrite (F j0) by (intros ->; apply Hj; cbn [In]; tauto)
    end;
  reflexivity.

Ltac finish_effect H :=
  injection H as <-;
  use_counts; use_sets;
  unfold step_effect;
  cbn [st_hd rbc_balance plots printed vars];
  split; [lia|]; split; [frame_goal|]; split; [lia|];
  first [ eexists; reflexivity
        | exists []; rewrite app_nil_r; reflexivity ].

Ltac close_effect H :=
  unfold store1, store2, store3 in H; open_arm H;
  first [ discriminate H | finish_effect H ].

(** The effect of one step, whatever the arm: the array keeps its length,
    the count goes up by one at most and lines are only added; but for the
    arm of a boundary node with two parents and one daughter, the array
    changes at daughter edges of the node only. *)
Lemma process_node_effect (fn : FlowNetwork) (boundary_hematocrit flow : list R)
  (ordered : list nat) (node : nat) (st st1 : pass_state)
  (parent_edge edge_daughter : list nat) :
  scan_ordered ordered node (edges_at (edge_list fn) node 0) []
  = (parent_edge, edge_daughter) ->
  process_node fn boundary_hematocrit flow ordered node st = Ok st1 ->
  (exists written, step_effect written st st1) /\
  (~ (isin node (boundary_vs fn) = true /\
      length parent_edge = 2%nat /\ length edge_daughter = 1%nat) ->
   step_effect edge_daughter st st1).
Proof.
  intros Hscan H. unfold process_node in H. rewrite Hscan in H.
  destruct edge_daughter as [|d1 [|d2 [|d3 [|d4 ed]]]];
    destruct parent_edge as [|p1 [|p2 [|p3 [|p4 pe]]]];
    cbn [bind_daughters bind_parents] in H;
    destruct (isin node (boundary_vs fn)) eqn:Eb;
    cbn [boundary_node interior_node] in H.
  all: try (match goal with
            | |- _ /\ (_ -> step_effect ?w _ _) =>
                assert (G : step_effect w st st1) by (close_effect H);
                split; [exists w; exact G | intros _; exact G]
            end; fail).
  split.
  - unfold store1, store2, store3 in H. open_arm H;
      match goal with
      | Hs1 : set _ ?i _ = Ok ?x, Hs2 : set ?x ?k _ = Ok _ |- _ => exists [i; k]
      | Hs : set _ ?i _ = Ok _ |- _ => exists [i]
      end; finish_effect H.
  - intros Hex. exfalso. apply Hex. auto.
Qed.


Lemma process_nodes_effect_aux (fn : FlowNetwork) (boundary_hematocrit flow : list R)
  (ordered nodes : list nat) (st st1 : pass_state) :
  process_nodes fn boundary_hematocrit flow ordered nodes st = Ok st1 ->
  length (st_hd st1) = length (st_hd st) /\
  (rbc_balance st <= rbc_balance st1 <= rbc_balance st + length nodes)%nat /\
  exists lines, printed st1 = printed st ++ lines.
Proof.
  revert st. induction nodes as [|node nodes IH]; intros st H; cbn [process_nodes] in H.
  - injection H as <-. split; [reflexivity|]. split; [cbn [length]; lia|].
    exists []. now rewrite app_nil_r.
  - open_bind H.
    destruct (scan_ordered ordered node (edges_at (edge_list fn) node 0) [])
      as [pe ed] eqn:Hscan.
    destruct (proj1 (process_node_effect _ _ _ _ _ _ _ _ _ Hscan Ha))
      as (w & L & _ & C & (l1 & P)).
    destruct (IH _ H) as (L' & C' & (l2 & P')).
    split; [congruence|]. split; [cbn [length]; lia|].
    exists (l1 ++ l2). rewrite P', P. now rewrite app_assoc.
Qed.


(** X10.  Whatever its arm, a step that returns keeps the length of
    [flownetwork.hd], adds 0 or 1 to [rbc_balance] and only adds to what was
    printed; so a run over a list of nodes that returns keeps the length of
    the array and counts at most as many imbalances as it has processed
    nodes. *)
Theorem process_nodes_invariants (fn : FlowNetwork) (boundary_hematocrit flow : list R)
  (ordered nodes : list nat) (st st1 : pass_state) :
  process_nodes fn boundary_hematocrit flow ordered nodes st = Ok st1 ->
  length (st_hd st1) = length (st_hd st) /\
  (rbc_balance st <= rbc_balance st1 <= rbc_balance st + length nodes)%nat /\
  exists lines, printed st1 = printed st ++ lines.
Proof. apply process_nodes_effect_aux. Qed.

Lemma process_nodes_invariants_witness :
  length [0.45; 0.45] = length (hd (chain 1)) /\
  (0 <= 0 <= 0 + length [0; 1; 2]%nat)%nat /\
  exists lines, [has_no_parent 0] = [] ++ lines.
Proof.
  exact (process_nodes_invariants _ _ _ _ _ _ _ chain_nodes_balanced).
Defined.

(** X11.  But for the arm of a boundary node with two parents and one
    daughter, a step that returns changes [flownetwork.hd] at daughter edges
    of the node only: every other entry, and so every parent edge and every
    edge elsewhere in the network, keeps its value. *)
Theorem step_writes_daughters_only
  (fn : FlowNetwork) (boundary_hematocrit flow : list R)
  (ordered : list nat) (node : nat) (st st1 : pass_state)
  (parent_edge edge_daughter : list nat) :
  scan_ordered ordered node (edges_at (edge_list fn) node 0) []
  = (parent_edge, edge_daughter) ->
  process_node fn boundary_hematocrit flow ordered node st = Ok st1 ->
  ~ (isin node (boundary_vs fn) = true /\
     length parent_edge = 2%nat /\ length edge_daughter = 1%nat) ->
  forall j, ~ In j edge_daughter ->
    nth_error (st_hd st1) j = nth_error (st_hd st) j.
Proof.
  intros Hscan H Hex.
  destruct (proj2 (process_node_effect _ _ _ _ _ _ _ _ _ Hscan H) Hex)
    as (_ & F & _).
  exact F.
Qed.

(** The step of the pass on [chain 1] at node 1, which has the parent edge 0
    and the daughter edge 1. *)
Lemma chain_node_1 :
  process_node (chain 1) [] [1; 1] [0; 1; 2]%nat 1
    (mk_pass_state [0.45; 0.3] 0 [] [has_no_parent 0]
       (mk_locals (Some 0%nat) None None None None None None None))
  = Ok (mk_pass_state [0.45; 0.45] 0 [] [has_no_parent 0]
          (mk_locals (Some 1%nat) None None None (Some 0%nat) None None None)).
Proof. unfold chain. pass_eval. pass_eval. reflexivity. Qed.

Lemma step_writes_daughters_only_witness :
  nth_error [0.45; 0.45] 0 = nth_error [0.45; 0.3] 0.
Proof.
  refine (step_writes_daughters_only (chain 1) [] [1; 1] [0; 1; 2]%nat 1
            _ _ [0]%nat [1]%nat _ chain_node_1 _ 0%nat _).
  - reflexivity.
  - intros (E & _). discriminate E.
  - intros [E|[]]. discriminate E.
Defined.

(** X12.  What [update_hd] returns.  Without pressures
    ([flownetwork.pressure is None]) the new array is the tube haematocrit
    and no node is looked at.  With pressures, a pass that returns has
    counted no imbalance, has kept the length of [flownetwork.hd], and the
    last two lines it printed are those of the check.  This holds whatever
    the order in which [argsort] leaves nodes of equal pressure. *)
Theorem update_hd_returns (ties : nat -> nat -> bool) (boundary_hematocrit : list R)
  (fn : FlowNetwork) :
  (pressure fn = None ->
   update_hd ties boundary_hematocrit fn
   = Ok (mk_pass_state (ht fn) 0 [] [] no_locals))
  /\
  (forall p st,
     pressure fn = Some p ->
     update_hd ties boundary_hematocrit fn = Ok st ->
     rbc_balance st = 0%nat /\
     length (st_hd st) = length (hd fn) /\
     exists lines,
       printed st = lines ++ [Check_RBCs_balance; Check_RBCs_balance_DONE]).
Proof.
  split.
  - intros E. unfold update_hd. now rewrite E.
  - intros p st E H. unfold update_hd in H. rewrite E in H.
    open_bind H. open_bind H.
    apply process_nodes_effect_aux in Ha0.
    destruct Ha0 as (L & C & (lines & P)).
    cbn [st_hd rbc_balance printed] in L, C, P.
    unfold check_rbc_balance in H.
    destruct (Nat.ltb 0 (rbc_balance a0)) eqn:E0; [discriminate|].
    injection H as <-. cbn [st_hd rbc_balance printed].
    apply Nat.ltb_ge in E0.
    split; [lia|]. split; [exact L|].
    exists lines. rewrite P. cbn [app]. now rewrite <- app_assoc.
Qed.


Lemma chain_pass :
  update_hd in_place [] (chain 1)
  = Ok (mk_pass_state [0.45; 0.45] 0 []
          [has_no_parent 0; Check_RBCs_balance; Check_RBCs_balance_DONE]
          (mk_locals (Some 1%nat) None None None (Some 1%nat) None None None)).
Proof. unfold chain. pass_eval. reflexivity. Qed.

Lemma update_hd_returns_witness :
  0%nat = 0%nat /\
  length [0.45; 0.45] = length (hd (chain 1)) /\
  exists lines,
    [has_no_parent 0; Check_RBCs_balance; Check_RBCs_balance_DONE]
    = lines ++ [Check_RBCs_balance; Check_RBCs_balance_DONE].
Proof.
  exact (proj2 (update_hd_returns in_place [] (chain 1)) [3; 2; 1] _ eq_refl
           chain_pass).
Defined.

(** ** Parents and daughters *)

Lemma isin_In (x : nat) (l : list nat) : isin x l = true <-> In x l.
Proof.
  unfold isin. rewrite existsb_exists. split.
  - intros (y & Hy & E). apply Nat.eqb_eq in E. now subst.
  - intros H. exists x. split; [exact H | apply Nat.eqb_refl].
Qed.

Lemma isin_edge_ends (x : nat) (e : nat * nat) :
  isin_edge x e = true <-> fst e = x \/ snd e = x.
Proof.
  unfold isin_edge. rewrite orb_true_iff, !Nat.eqb_eq. split; intros [H|H]; auto.
Qed.

Lemma edges_at_found (edges : list (nat * nat)) (node start k : nat) (e : nat * nat) :
  nth_error edges k = Some e -> isin_edge node e = true ->
  In ((start + k)%nat, e) (edges_at edges node start).
Proof.
  revert start k. induction edges as [|x edges IH]; intros start k Hn Hin.
  - destruct k; discriminate.
  - cbn [edges_at]. destruct k as [|k]; cbn [nth_error] in Hn.
    + injection Hn as ->.
      assert (E : Nat.eqb (fst e) node || Nat.eqb (snd e) node = true).
      { unfold isin_edge in Hin.
        now rewrite (Nat.eqb_sym (fst e)), (Nat.eqb_sym (snd e)). }
      rewrite E, Nat.add_0_r. left. reflexivity.
    + specialize (IH (S start) k Hn Hin).
      replace (start + S k)%nat with (S start + k)%nat by lia.
      destruct (Nat.eqb (fst x) node || Nat.eqb (snd x) node); [right|]; exact IH.
Qed.

Lemma first_occurrence (x : nat) (l : list nat) :
  In x l -> exists before after, l = before ++ x :: after /\ ~ In x before.
Proof.
  induction l as [|y l IH]; intros H; [destruct H|].
  destruct (Nat.eq_dec y x) as [->|Hne].
  - exists [], l. split; [reflexivity | intros []].
  - destruct H as [H|H]; [contradiction|].
    destruct (IH H) as (b & a & -> & Hb).
    exists (y :: b), a. split; [reflexivity|].
    intros [E|E]; [contradiction | exact (Hb E)].
Qed.

(** X13.  The edges that the classification finds at a node are exactly
    the edges of [edge_list] that have the node as an end, each with its
    position in [edge_list].  When the node is in the ordered list, every
    such edge is a parent or a daughter and none is both; the parents are the
    edges whose other end comes before the node in the order, and an edge
    from the node to itself is a daughter. *)
Theorem parents_and_daughters (edges : list (nat * nat)) (ordered : list nat)
  (node : nat) (parent_edge edge_daughter : list nat) :
  In node ordered ->
  scan_ordered ordered node (edges_at edges node 0) [] = (parent_edge, edge_daughter) ->
  (forall i e, In (i, e) (edges_at edges node 0) <->
     nth_error edges i = Some e /\ (fst e = node \/ snd e = node)) /\
  (forall i, In i parent_edge \/ In i edge_daughter <->
     exists e, nth_error edges i = Some e /\ (fst e = node \/ snd e = node)) /\
  (forall i, ~ (In i parent_edge /\ In i edge_daughter)) /\
  (exists before after,
     ordered = before ++ node :: after /\ ~ In node before /\
     forall i, In i parent_edge <->
       exists on e, In on before /\ nth_error edges i = Some e /\
                    (fst e = node \/ snd e = node) /\ (fst e = on \/ snd e = on)) /\
  (forall i, nth_error edges i = Some (node, node) -> In i edge_daughter).
Proof.
  intros Hin Hscan.
  assert (Hat : forall i e, In (i, e) (edges_at edges node 0) <->
            nth_error edges i = Some e /\ (fst e = node \/ snd e = node)).
  { intros i e. split.
    - intros H. apply edges_at_spec in H. destruct H as (_ & Hn & Ht).
      rewrite Nat.sub_0_r in Hn. apply isin_edge_ends in Ht. auto.
    - intros [Hn Ht]. apply isin_edge_ends in Ht.
      exact (edges_at_found edges node 0 i e Hn Ht). }
  destruct (first_occurrence _ _ Hin) as (before & after & E & Hnb).
  rewrite E in Hscan.
  destruct (scan_ordered_spec _ _ _ _ _ _ _ Hnb Hscan) as [Hp Hd].
  assert (Hpar : forall i, In i parent_edge <->
            exists on e, In on before /\ nth_error edges i = Some e /\
                         (fst e = node \/ snd e = node) /\ (fst e = on \/ snd e = on)).
  { intros i. rewrite Hp. split.
    - intros [[]|(on & e & Hb & Hc & Ho)].
      apply Hat in Hc. apply isin_edge_ends in Ho. exists on, e. tauto.
    - intros (on & e & Hb & Hn & Ht & Ho). right. exists on, e.
      split; [exact Hb|]. split; [apply Hat; auto | apply isin_edge_ends; exact Ho]. }
  assert (Hdau : forall i, In i edge_daughter <->
            ~ In i parent_edge /\ exists e, In (i, e) (edges_at edges node 0)).
  { intros i. rewrite Hd, filter_In. unfold edge_connected_position.
    rewrite in_map_iff, negb_true_iff, <- not_true_iff_false, isin_In. split.
    - intros [([k e] & <- & Hc) Hn]. cbn [fst]. split; [exact Hn | exists e; exact Hc].
    - intros [Hn (e & Hc)]. split; [exists (i, e); auto | exact Hn]. }
  split; [exact Hat|]. split; [|split; [|split]].
  - intros i. split.
    + intros [H|H].
      * apply Hpar in H. destruct H as (on & e & _ & Hn & Ht & _). exists e. auto.
      * apply Hdau in H. destruct H as (_ & e & Hc). apply Hat in Hc. exists e. exact Hc.
    + intros (e & Hn & Ht).
      destruct (in_dec Nat.eq_dec i parent_edge) as [Hi|Hi]; [left; exact Hi|].
      right. apply Hdau. split; [exact Hi|]. exists e. apply Hat. auto.
  - intros i [H1 H2]. apply Hdau in H2. tauto.
  - exists before, after. auto.
  - intros i Hn. apply Hdau. split.
    + intros H. apply Hpar in H. destruct H as (on & e & Hb & Hn' & _ & Ho).
      rewrite Hn in Hn'. injection Hn' as <-. cbn [fst snd] in Ho.
      destruct Ho as [<-|<-]; contradiction.
    + exists (node, node). apply Hat. cbn [fst]. auto.
Qed.

Lemma parents_and_daughters_witness :
  exists before after,
    [0; 1; 2; 3; 4]%nat = before ++ 3%nat :: after /\ ~ In 3%nat before.
Proof.
  assert (Hin : In 3%nat [0; 1; 2; 3; 4]%nat) by (cbn [In]; auto).
  assert (Hscan : scan_ordered [0; 1; 2; 3; 4]%nat 3
                    (edges_at (edge_list diamond) 3 0) [] = ([2; 3]%nat, [4]%nat))
    by reflexivity.
  destruct (parents_and_daughters (edge_list diamond) [0; 1; 2; 3; 4]%nat 3
              [2; 3]%nat [4]%nat Hin Hscan)
    as (_ & _ & _ & (before & after & E & Hb & _) & _).
  exists before, after. split; [exact E | exact Hb].
Defined.


Lemma boundary_node_no_daughter (fn : FlowNetwork) (boundary_hematocrit flow : list R)
  (node np : nat) (st : pass_state) :
  boundary_node fn boundary_hematocrit flow node np 0 st = Ok st.
Proof. destruct np as [|[|[|[|np]]]]; reflexivity. Qed.

(** X14.  The two [match] statements on the numbers of daughters and of
    parents have arms for one, two and three only.  A node with four or more
    daughter edges is treated as a node without daughters: its step writes no
    haematocrit and counts nothing, so none of its daughters gets a value.
    A node with four or more parent edges is treated as a node without
    parent: when it is not a boundary node its step only prints
    "Node ... has no parent". *)
Theorem crowded_node_is_skipped
  (fn : FlowNetwork) (boundary_hematocrit flow : list R)
  (ordered : list nat) (node : nat) (st : pass_state)
  (parent_edge edge_daughter : list nat) :
  scan_ordered ordered node (edges_at (edge_list fn) node 0) []
  = (parent_edge, edge_daughter) ->
  ((4 <= length edge_daughter)%nat ->
   exists st1,
     process_node fn boundary_hematocrit flow ordered node st = Ok st1 /\
     st_hd st1 = st_hd st /\ rbc_balance st1 = rbc_balance st /\
     plots st1 = plots st)
  /\
  ((4 <= length parent_edge)%nat -> isin node (boundary_vs fn) = false ->
   exists st1,
     process_node fn boundary_hematocrit flow ordered node st = Ok st1 /\
     st_hd st1 = st_hd st /\ rbc_balance st1 = rbc_balance st /\
     plots st1 = plots st /\
     printed st1 = printed st ++ [has_no_parent node]).
Proof.
  intros Hscan. split.
  - intros Hlen.
    assert (Hshape : exists np, node_shape fn ordered node = (np, 0%nat)).
    { unfold node_shape. rewrite Hscan.
      destruct edge_daughter as [|d1 [|d2 [|d3 [|d4 ed]]]];
        cbn [length] in Hlen; try lia.
      eexists. reflexivity. }
    destruct Hshape as [np Hshape].
    destruct (process_node_dispatch fn boundary_hematocrit flow ordered node st
                _ _ Hshape) as [v E].
    rewrite E. destruct (isin node (boundary_vs fn)).
    + rewrite boundary_node_no_daughter. eexists. split; [reflexivity|].
      cbn. auto.
    + rewrite interior_node_unhandled
        by (destruct np as [|[|[|[|np]]]]; reflexivity).
      eexists. split; [reflexivity|]. cbn. auto.
  - intros Hlen Hb.
    assert (Hshape : exists nd, node_shape fn ordered node = (0%nat, nd)).
    { unfold node_shape. rewrite Hscan.
      destruct parent_edge as [|p1 [|p2 [|p3 [|p4 pe]]]];
        cbn [length] in Hlen; try lia.
      eexists. reflexivity. }
    destruct Hshape as [nd Hshape].
    destruct (process_node_dispatch fn boundary_hematocrit flow ordered node st
                _ _ Hshape) as [v E].
    rewrite E, Hb.
    rewrite interior_node_unhandled
      by (destruct nd as [|[|[|[|nd]]]]; reflexivity).
    eexists. split; [reflexivity|]. cbn. auto.
Qed.

Lemma crowded_node_is_skipped_witness :
  exists st1,
    process_node star [0.45; 0.45; 0.45; 0.45; 0.45] [1; 1; 1; 1; 4]
      [0; 1; 2; 3; 4; 5]%nat 4
      (mk_pass_state [0.3; 0.3; 0.3; 0.3; 0.3] 0 [] [] no_locals) = Ok st1 /\
    st_hd st1 = [0.3; 0.3; 0.3; 0.3; 0.3] /\ rbc_balance st1 = 0%nat /\
    plots st1 = [] /\
    printed st1 = [] ++ [has_no_parent 4].
Proof.
  refine (proj2 (crowded_node_is_skipped star [0.45; 0.45; 0.45; 0.45; 0.45]
                   [1; 1; 1; 1; 4] [0; 1; 2; 3; 4; 5]%nat 4
                   (mk_pass_state [0.3; 0.3; 0.3; 0.3; 0.3] 0 [] [] no_locals)
                   [0; 1; 2; 3]%nat [4]%nat _) _ _).
  - reflexivity.
  - cbn [length]. lia.
  - reflexivity.
Defined.


(** ** The order of the nodes and the boundary values *)

Lemma rows_defined (p : list R) (start n : nat) :
  ((start + n <= length p)%nat ->
   exists rows, mapM (fun pres => x <- get p pres ;; Ok (x, pres)) (seq start n)
                = Ok rows) /\
  ((start <= length p < start + n)%nat ->
   mapM (fun pres => x <- get p pres ;; Ok (x, pres)) (seq start n)
   = Raise IndexError).
Proof.
  revert start. induction n as [|n IH]; intros start; cbn [seq mapM].
  - split; [intros _; eexists; reflexivity | lia].
  - unfold get at 1 3. destruct (nth_error p start) as [x|] eqn:E; cbn [bind].
    + assert (Hs : (start < length p)%nat) by (apply nth_error_Some; congruence).
      destruct (IH (S start)) as [IH1 IH2]. split.
      * intros Hle. destruct IH1 as [rows ->]; [lia|]. eexists. reflexivity.
      * intros Hlt. rewrite IH2 by lia. reflexivity.
    + apply nth_error_None in E. split; [lia | reflexivity].
Qed.

Lemma rows_firstn (p : list R) (n : nat) (l : list nat) :
  (forall k, In k l -> (k < n)%nat) ->
  mapM (fun pres => x <- get (firstn n p) pres ;; Ok (x, pres)) l
  = mapM (fun pres => x <- get p pres ;; Ok (x, pres)) l.
Proof.
  induction l as [|k l IH]; intros Hk; [reflexivity|].
  cbn [mapM]. unfold get at 1 3.
  rewrite nth_error_firstn.
  assert (E : Nat.ltb k n = true) by (apply Nat.ltb_lt, Hk; left; reflexivity).
  rewrite E. rewrite IH by (intros k' Hk'; apply Hk; right; exact Hk').
  reflexivity.
Qed.

(** X15.  [pressure_node] needs a pressure for each of the [nr_of_vs]
    nodes: it returns exactly when the pressure array has at least
    [nr_of_vs] entries and raises [IndexError] exactly when it is shorter.
    The result has one row per node, and pressures beyond the first
    [nr_of_vs] have no influence on it. *)
Theorem pressure_node_defined (ties : nat -> nat -> bool) (p : list R) (n : nat) :
  ((n <= length p)%nat <-> exists pn, pressure_node ties p n = Ok pn) /\
  ((length p < n)%nat <-> pressure_node ties p n = Raise IndexError) /\
  (forall pn, pressure_node ties p n = Ok pn ->
     length pn = n /\ pressure_node ties (firstn n p) n = Ok pn).
Proof.
  unfold pressure_node.
  destruct (rows_defined p 0 n) as [H1 H2]. cbn [Nat.add] in H1, H2.
  split; [|split].
  - split.
    + intros Hle. destruct (H1 Hle) as [rows ->]. eexists. reflexivity.
    + intros [pn H]. destruct (Nat.le_gt_cases n (length p)) as [Hle|Hgt]; [exact Hle|].
      rewrite H2 in H by lia. discriminate.
  - split.
    + intros Hlt. rewrite H2 by lia. reflexivity.
    + intros H. destruct (Nat.le_gt_cases n (length p)) as [Hle|Hgt]; [|exact Hgt].
      destruct (H1 Hle) as [rows E]. rewrite E in H. discriminate.
  - intros pn H. open_bind H. injection H as <-.
    destruct (rows_spec _ _ _ _ Ha) as [E F].
    split.
    + rewrite length_rev.
      rewrite (Permutation_length (argsort_perm ties a)).
      rewrite <- (length_map snd a), E. apply length_seq.
    + rewrite rows_firstn by (intros k Hk; apply in_seq in Hk; lia).
      rewrite Ha. reflexivity.
Qed.

(** X16.  The boundary haematocrit of a node is the entry of
    [boundary_hematocrit] at the first position of the node in
    [boundary_vs].  For a boundary node it is found whenever
    [boundary_hematocrit] is as long as [boundary_vs]; for a node that is not
    in [boundary_vs] the lookup raises [IndexError]. *)
Theorem boundary_value_defined (boundary_hematocrit : list R) (boundary_vs : list nat)
  (node : nat) :
  (isin node boundary_vs = false ->
   boundary_value boundary_hematocrit boundary_vs node = Raise IndexError)
  /\
  (isin node boundary_vs = true ->
   exists i,
     nth_error boundary_vs i = Some node /\
     (forall k, (k < i)%nat -> nth_error boundary_vs k <> Some node) /\
     boundary_value boundary_hematocrit boundary_vs node = get boundary_hematocrit i /\
     ((length boundary_vs <= length boundary_hematocrit)%nat ->
      exists x, boundary_value boundary_hematocrit boundary_vs node = Ok x /\
                nth_error boundary_hematocrit i = Some x)).
Proof.
  assert (G : forall l start,
            (isin node l = false -> where_first l node start = Raise IndexError) /\
            (isin node l = true ->
             exists i, nth_error l i = Some node /\
                       (forall k, (k < i)%nat -> nth_error l k <> Some node) /\
                       where_first l node start = Ok (start + i)%nat)).
  { induction l as [|x l IH]; intros start; cbn [isin existsb where_first].
    - split; [reflexivity | discriminate].
    - rewrite (Nat.eqb_sym node x).
      destruct (Nat.eqb x node) eqn:E; cbn [orb].
      + apply Nat.eqb_eq in E. subst x. split; [discriminate|].
        intros _. exists 0%nat. split; [reflexivity|]. split; [lia|].
        now rewrite Nat.add_0_r.
      + apply Nat.eqb_neq in E. destruct (IH (S start)) as [IH1 IH2]. split.
        * exact IH1.
        * intros H. destruct (IH2 H) as (i & Hn & Hk & Hw).
          exists (S i). split; [exact Hn|]. split.
          -- intros [|k] Hlt; cbn [nth_error].
             ++ intros E'. injection E' as ->. contradiction.
             ++ apply Hk. lia.
          -- rewrite Hw. f_equal. lia. }
  unfold boundary_value. destruct (G boundary_vs 0%nat) as [G1 G2]. split.
  - intros H. now rewrite (G1 H).
  - intros H. destruct (G2 H) as (i & Hn & Hk & Hw). exists i.
    rewrite Hw. cbn [bind Nat.add]. split; [exact Hn|]. split; [exact Hk|].
    split; [reflexivity|].
    intros Hlen. unfold get.
    assert (Hi : (i < length boundary_hematocrit)%nat).
    { assert (i < length boundary_vs)%nat by (apply nth_error_Some; congruence). lia. }
    destruct (nth_error boundary_hematocrit i) as [x|] eqn:E.
    + exists x. auto.
    + apply nth_error_None in E. lia.
Qed.

Lemma boundary_value_defined_witness :
  exists x, boundary_value [0.45; 0.4; 0.5] [0; 3; 4]%nat 3 = Ok x.
Proof.
  assert (H : isin 3 [0; 3; 4]%nat = true) by reflexivity.
  destruct (proj2 (boundary_value_defined [0.45; 0.4; 0.5] [0; 3; 4]%nat 3) H)
    as (i & _ & _ & _ & G).
  destruct G as (x & E & _); [cbn [length]; lia|].
  exists x. exact E.
Defined.

Lemma pressure_node_defined_witness :
  (exists pn, pressure_node in_place [3; 2; 1] 3 = Ok pn) /\
  pressure_node in_place [3; 2] 3 = Raise IndexError.
Proof.
  split.
  - apply (proj1 (proj1 (pressure_node_defined in_place [3; 2; 1] 3))).
    cbn [length]. lia.
  - apply (proj1 (proj1 (proj2 (pressure_node_defined in_place [3; 2] 3)))).
    cbn [length]. lia.
Defined.


(** ** The flow balance *)

Lemma skipn_nth {A : Type} (l : list A) (i : nat) (x : A) :
  nth_error l i = Some x -> skipn i l = x :: skipn (S i) l.
Proof.
  revert i. induction l as [|y l IH]; intros [|i] H; cbn [nth_error] in H;
    try discriminate.
  - injection H as ->. reflexivity.
  - cbn [skipn]. rewrite (IH i H). reflexivity.
Qed.

Lemma update_same {A : Type} (a : list A) (i : nat) (v : A) :
  (i < length a)%nat -> nth_error (update a i v) i = Some v.
Proof.
  revert i. induction a as [|x a IH]; intros [|i] H; cbn [length] in H;
    try lia; cbn [update nth_error]; [reflexivity|].
  apply IH. lia.
Qed.

Lemma sum_list_update (a : list R) (i : nat) (v w : R) :
  nth_error a i = Some v -> sum_list (update a i w) = sum_list a - v + w.
Proof.
  revert i. induction a as [|x a IH]; intros [|i] H; cbn [nth_error] in H;
    try discriminate.
  - injection H as ->. unfold sum_list. cbn [update fold_right]. lra.
  - unfold sum_list in *. cbn [update fold_right]. rewrite (IH i H). lra.
Qed.

Lemma add_at_inv (a a1 : list R) (i : nat) (x : R) :
  add_at a i x = Ok a1 ->
  exists v, nth_error a i = Some v /\ a1 = update a i (v + x).
Proof.
  unfold add_at, get, set. destruct (nth_error a i) as [v|]; [|discriminate].
  cbn [bind]. destruct (Nat.ltb i (length a)); [|discriminate].
  intros H. injection H as <-. exists v. auto.
Qed.

Lemma sub_at_inv (a a1 : list R) (i : nat) (x : R) :
  sub_at a i x = Ok a1 ->
  exists v, nth_error a i = Some v /\ a1 = update a i (v - x).
Proof.
  unfold sub_at, get, set. destruct (nth_error a i) as [v|]; [|discriminate].
  cbn [bind]. destruct (Nat.ltb i (length a)); [|discriminate].
  intros H. injection H as <-. exists v. auto.
Qed.

Lemma add_at_Ok (a : list R) (i : nat) (x : R) :
  (i < length a)%nat -> exists a1, add_at a i x = Ok a1 /\ length a1 = length a.
Proof.
  intros H. unfold add_at, get, set.
  destruct (nth_error a i) as [v|] eqn:E; [|apply nth_error_None in E; lia].
  cbn [bind]. apply Nat.ltb_lt in H. rewrite H. eexists. split; [reflexivity|].
  apply update_length.
Qed.

Lemma sub_at_Ok (a : list R) (i : nat) (x : R) :
  (i < length a)%nat -> exists a1, sub_at a i x = Ok a1 /\ length a1 = length a.
Proof.
  intros H. unfold sub_at, get, set.
  destruct (nth_error a i) as [v|] eqn:E; [|apply nth_error_None in E; lia].
  cbn [bind]. apply Nat.ltb_lt in H. rewrite H. eexists. split; [reflexivity|].
  apply update_length.
Qed.

(** One turn of the loop of [_get_flow_balance]. *)
Lemma balance_turn (fb0 fb1 fb2 : list R) (a b : nat) (q : R) :
  add_at fb0 a q = Ok fb1 -> sub_at fb1 b q = Ok fb2 ->
  (a < length fb0)%nat /\ (b < length fb0)%nat /\
  length fb2 = length fb0 /\ sum_list fb2 = sum_list fb0 /\
  forall v x0, nth_error fb0 v = Some x0 ->
    nth_error fb2 v
    = Some (x0 + ((if Nat.eqb a v then q else 0) - (if Nat.eqb b v then q else 0))).
Proof.
  intros H1 H2.
  destruct (add_at_inv _ _ _ _ H1) as (v1 & E1 & ->).
  destruct (sub_at_inv _ _ _ _ H2) as (v2 & E2 & ->).
  assert (La : (a < length fb0)%nat) by (apply nth_error_Some; congruence).
  assert (Lb : (b < length fb0)%nat).
  { rewrite <- (update_length fb0 a (v1 + q)). apply nth_error_Some. congruence. }
  split; [exact La|]. split; [exact Lb|].
  split; [now rewrite !update_length|].
  split.
  - rewrite (sum_list_update _ _ _ _ E2), (sum_list_update _ _ _ _ E1). lra.
  - intros v x0 Hv.
    destruct (Nat.eqb b v) eqn:Eb.
    + apply Nat.eqb_eq in Eb. subst v.
      rewrite update_same by (rewrite update_length; exact Lb).
      destruct (Nat.eqb a b) eqn:Ea.
      * apply Nat.eqb_eq in Ea. subst b.
        rewrite update_same in E2 by exact La.
        injection E2 as <-. rewrite E1 in Hv. injection Hv as <-.
        f_equal. lra.
      * apply Nat.eqb_neq in Ea.
        rewrite update_other in E2 by (intros E; apply Ea; now rewrite E).
        rewrite E2 in Hv. injection Hv as <-. f_equal. lra.
    + apply Nat.eqb_neq in Eb.
      rewrite update_other by (intros E; apply Eb; now rewrite E).
      destruct (Nat.eqb a v) eqn:Ea.
      * apply Nat.eqb_eq in Ea. subst v.
        rewrite update_same by exact La.
        rewrite E1 in Hv. injection Hv as <-. f_equal. lra.
      * apply Nat.eqb_neq in Ea.
        rewrite update_other by (intros E; apply Ea; now rewrite E).
        rewrite Hv. f_equal. lra.
Qed.

Lemma flow_balance_loop_raises (edges : list (nat * nat)) (flows : list R)
  (eids : list nat) (fb0 : list R) (e : exn) :
  flow_balance_loop edges flows eids fb0 = Raise e -> e = IndexError.
Proof.
  revert fb0. induction eids as [|eid rest IH]; intros fb0; cbn [flow_balance_loop].
  - discriminate.
  - unfold get at 1 2. destruct (nth_error edges eid) as [ed|]; cbn [bind];
      [|intros H; now injection H].
    destruct (nth_error flows eid) as [q|]; cbn [bind]; [|intros H; now injection H].
    unfold add_at at 1, get, set.
    destruct (nth_error fb0 (fst ed)) as [v1|]; cbn [bind]; [|intros H; now injection H].
    destruct (Nat.ltb (fst ed) (length fb0)); cbn [bind]; [|intros H; now injection H].
    unfold sub_at at 1, get, set.
    destruct (nth_error _ (snd ed)) as [v2|]; cbn [bind]; [|intros H; now injection H].
    destruct (Nat.ltb (snd ed) _); cbn [bind]; [|intros H; now injection H].
    apply IH.
Qed.

Lemma flow_balance_loop_Ok (edges : list (nat * nat)) (flows : list R) (n : nat) :
  forall start fb0,
    edges_in_range edges flows start n (length fb0) ->
    exists fb, flow_balance_loop edges flows (seq start n) fb0 = Ok fb.
Proof.
  induction n as [|n IH]; intros start fb0 Hr; cbn [seq flow_balance_loop].
  - eexists. reflexivity.
  - destruct (Hr start) as (ed & q & He & Hq & Ha & Hb); [lia|].
    unfold get at 1 2. rewrite He, Hq. cbn [bind].
    destruct (add_at_Ok fb0 (fst ed) q Ha) as (fb1 & -> & L1). cbn [bind].
    destruct (sub_at_Ok fb1 (snd ed) q) as (fb2 & -> & L2); [lia|]. cbn [bind].
    apply IH. intros eid Heid. rewrite L2, L1. apply Hr. lia.
Qed.

Lemma flow_balance_loop_inv (edges : list (nat * nat)) (flows : list R) (n : nat) :
  forall start fb0 fb,
    flow_balance_loop edges flows (seq start n) fb0 = Ok fb ->
    edges_in_range edges flows start n (length fb0) /\
    length fb = length fb0 /\ sum_list fb = sum_list fb0 /\
    forall v x0, nth_error fb0 v = Some x0 ->
      nth_error fb v
      = Some (x0 + net_outflow (firstn n (skipn start edges))
                               (firstn n (skipn start flows)) v).
Proof.
  induction n as [|n IH]; intros start fb0 fb; cbn [seq flow_balance_loop].
  - intros H. injection H as <-. split; [intros eid Heid; lia|].
    split; [reflexivity|]. split; [reflexivity|].
    intros v x0 Hv. cbn [firstn net_outflow]. rewrite Hv. f_equal. lra.
  - intros H. unfold get at 1 2 in H.
    destruct (nth_error edges start) as [ed|] eqn:He; [|discriminate].
    destruct (nth_error flows start) as [q|] eqn:Hq; [|discriminate].
    cbn [bind] in H. open_bind H. open_bind H.
    destruct (balance_turn _ _ _ _ _ _ Ha Ha0) as (La & Lb & L2 & S2 & V2).
    destruct (IH _ _ _ H) as (Hr & L & S & V).
    split; [|split; [|split]].
    + intros eid Heid. destruct (Nat.eq_dec eid start) as [->|Hne].
      * exists ed, q. auto.
      * rewrite <- L2. apply Hr. lia.
    + congruence.
    + congruence.
    + intros v x0 Hv.
      rewrite (V v _ (V2 v x0 Hv)).
      rewrite (skipn_nth _ _ _ He), (skipn_nth _ _ _ Hq).
      cbn [firstn net_outflow]. f_equal. lra.
Qed.

Lemma nth_error_repeat_0 (n v : nat) :
  (v < n)%nat -> nth_error (repeat 0 n) v = Some 0.
Proof.
  revert v. induction n as [|n IH]; intros [|v] H; try lia; cbn [repeat nth_error];
    [reflexivity|]. apply IH. lia.
Qed.

Lemma sum_list_repeat_0 (n : nat) : sum_list (repeat 0 n) = 0.
Proof.
  induction n as [|n IH]; unfold sum_list in *; cbn [repeat fold_right];
    [reflexivity|]. rewrite IH. lra.
Qed.

(** X17.  [_get_flow_balance] returns exactly when every edge id below
    [nr_of_es] has an edge and a flow rate and the ends of the edge are below
    [nr_of_vs]; the only way it fails is an [IndexError]. *)
Theorem get_flow_balance_defined (fn : FlowNetwork) (nr_of_es : nat) :
  (edges_in_range (edge_list fn) (flow_rate fn) 0 nr_of_es (nr_of_vs fn) <->
   exists fb, _get_flow_balance fn nr_of_es = Ok fb) /\
  (forall e, _get_flow_balance fn nr_of_es = Raise e -> e = IndexError).
Proof.
  unfold _get_flow_balance. split; [split|].
  - intros Hr. apply flow_balance_loop_Ok. now rewrite repeat_length.
  - intros [fb H]. apply flow_balance_loop_inv in H.
    rewrite repeat_length in H. apply H.
  - intros e. apply flow_balance_loop_raises.
Qed.

(** X18.  The flow balance that [_get_flow_balance] returns has one entry per
    node; the entry of node [v] is the flow of the first [nr_of_es] edges that
    start at [v] minus the flow of those that end at [v] (an edge from a node
    to itself adds nothing), and the entries of all nodes sum to 0. *)
Theorem get_flow_balance_values (fn : FlowNetwork) (nr_of_es : nat) (fb : list R) :
  _get_flow_balance fn nr_of_es = Ok fb ->
  length fb = nr_of_vs fn /\
  sum_list fb = 0 /\
  forall v, (v < nr_of_vs fn)%nat ->
    nth_error fb v
    = Some (net_outflow (firstn nr_of_es (edge_list fn))
                        (firstn nr_of_es (flow_rate fn)) v).
Proof.
  unfold _get_flow_balance. intros H.
  destruct (flow_balance_loop_inv _ _ _ _ _ _ H) as (_ & L & S & V).
  rewrite repeat_length in L. rewrite sum_list_repeat_0 in S.
  split; [exact L|]. split; [exact S|].
  intros v Hv. rewrite (V v 0 (nth_error_repeat_0 _ _ Hv)).
  cbn [skipn]. f_equal. lra.
Qed.

Lemma diamond_flow_balance :
  _get_flow_balance diamond 5 = Ok [20; 0; 0; -19; -1].
Proof.
  unfold _get_flow_balance, diamond.
  cbn [edge_list flow_rate nr_of_vs seq repeat flow_balance_loop get nth_error bind
       fst snd add_at sub_at set update length Nat.ltb Nat.leb].
  repeat f_equal; lra.
Qed.

Lemma get_flow_balance_values_witness :
  length [20; 0; 0; -19; -1] = nr_of_vs diamond /\
  sum_list [20; 0; 0; -19; -1] = 0.
Proof.
  destruct (get_flow_balance_values diamond 5 _ diamond_flow_balance) as (L & S & _).
  split; [exact L | exact S].
Defined.

Lemma get_flow_balance_defined_witness :
  exists fb, _get_flow_balance inlet 1 = Ok fb.
Proof.
  apply (proj1 (proj1 (get_flow_balance_defined inlet 1))).
  intros eid Heid. assert (E : eid = 0%nat) by lia. subst eid.
  exists (0, 1)%nat, 1. cbn [inlet edge_list flow_rate nr_of_vs nth_error fst snd].
  repeat split; lia.
Defined.


(** ** The check of the flow balance *)

Lemma inside_entries_In (boundary_vs : list nat) (fb : list R) (start : nat) (x : R) :
  In x (inside_entries boundary_vs fb start) <->
  exists v, nth_error fb v = Some x /\ isin (start + v) boundary_vs = false.
Proof.
  revert start. induction fb as [|y fb IH]; intros start; cbn [inside_entries].
  - split; [intros []|]. intros ([|v] & H & _); discriminate.
  - destruct (isin start boundary_vs) eqn:E.
    + rewrite IH. split.
      * intros (v & Hv & Hb). exists (S v). split; [exact Hv|].
        now replace (start + S v)%nat with (S start + v)%nat by lia.
      * intros ([|v] & Hv & Hb).
        -- rewrite Nat.add_0_r in Hb. congruence.
        -- exists v. split; [exact Hv|].
           now replace (S start + v)%nat with (start + S v)%nat by lia.
    + cbn [In]. rewrite IH. split.
      * intros [->|(v & Hv & Hb)].
        -- exists 0%nat. split; [reflexivity|]. now rewrite Nat.add_0_r.
        -- exists (S v). split; [exact Hv|].
           now replace (start + S v)%nat with (S start + v)%nat by lia.
      * intros ([|v] & Hv & Hb).
        -- left. cbn [nth_error] in Hv. congruence.
        -- right. exists v. split; [exact Hv|].
           now replace (S start + v)%nat with (start + S v)%nat by lia.
Qed.

Lemma all_locally_balanced (l : list R) (tol_flow : R) :
  existsb (fun x => negb (x <? tol_flow)) (map Rabs l) = false <->
  forall x, In x l -> Rabs x < tol_flow.
Proof.
  induction l as [|y l IH]; cbn [map existsb].
  - split; [intros _ x []|reflexivity].
  - rewrite orb_false_iff, IH, negb_false_iff, Rlt_b_true. cbn [In]. split.
    + intros [Hy Hl] x [<-|Hx]; auto.
    + intros H. split; [apply H; now left|]. intros x Hx. apply H. now right.
Qed.

Lemma sum_abs_nonneg (l : list R) : 0 <= sum_list (map Rabs l).
Proof.
  induction l as [|x l IH]; unfold sum_list in *; cbn [map fold_right]; [lra|].
  pose proof (Rabs_pos x). lra.
Qed.

(** X19.  The first call of [check_flow_balance], with
    [flownetwork.tollerance] still [None], checks nothing: it never exits,
    whatever the imbalance and the value of [tol]; when it returns it has set
    [tollerance] to a number that is not negative, the mean of the absolute
    balances of the inner nodes. *)
Theorem first_check_flow_balance (fn : FlowNetwork) (nr_of_es : nat) (tol : R) :
  (forall tol', check_flow_balance fn nr_of_es None tol'
                = check_flow_balance fn nr_of_es None tol) /\
  (forall e, check_flow_balance fn nr_of_es None tol = Raise e ->
             e = IndexError \/ e = ZeroDivisionError) /\
  (forall r, check_flow_balance fn nr_of_es None tol = Ok r ->
     exists flow_balance m,
       _get_flow_balance fn nr_of_es = Ok flow_balance /\
       r = Some m /\ 0 <= m /\
       mean (map Rabs (inside_entries (boundary_vs fn) flow_balance 0)) = Ok m).
Proof.
  unfold check_flow_balance. split; [|split].
  - intros tol'. reflexivity.
  - intros e.
    destruct (_get_flow_balance fn nr_of_es) as [fb|e0] eqn:Efb; cbn [bind].
    + unfold get at 1. destruct (nth_error (boundary_vs fn) 0); cbn [bind];
        [|intros H; injection H as <-; now left].
      unfold get at 1. destruct (nth_error (flow_rate fn) n); cbn [bind];
        [|intros H; injection H as <-; now left].
      unfold mean, fdiv. destruct (_ =? 0); cbn [bind]; [|discriminate].
      intros H; injection H as <-; now right.
    + intros H. injection H as <-. left.
      unfold _get_flow_balance in Efb. eapply flow_balance_loop_raises. exact Efb.
  - intros r H. open_bind H. open_bind H. open_bind H. open_bind H.
    injection H as <-. exists a, a2. split; [exact Ha|]. split; [reflexivity|].
    split; [|exact Ha2].
    unfold mean in Ha2. apply fdiv_inv in Ha2. destruct Ha2 as [Hn ->].
    apply Rmult_le_pos; [apply sum_abs_nonneg|].
    apply Rlt_le, Rinv_0_lt_compat.
    pose proof (pos_INR (length (map Rabs (inside_entries (boundary_vs fn) a 0)))).
    lra.
Qed.

(** X20.  A later call of [check_flow_balance], with [tollerance] set,
    returns exactly when the absolute balance of every inner node and the
    absolute value of the sum of the balances of the boundary nodes are below
    [tol * abs(flow_rate[boundary_vs[0]])], the flow rate at the index that is
    the id of the first boundary node; it leaves [tollerance] as it is.  In
    particular no call returns when [tol] is not positive or that flow rate
    is 0. *)
Theorem later_check_flow_balance (fn : FlowNetwork) (nr_of_es : nat) (t tol : R) :
  (forall r,
     check_flow_balance fn nr_of_es (Some t) tol = Ok r <->
     r = Some t /\
     exists flow_balance b0 q0 balance_boundaries,
       _get_flow_balance fn nr_of_es = Ok flow_balance /\
       nth_error (boundary_vs fn) 0 = Some b0 /\
       nth_error (flow_rate fn) b0 = Some q0 /\
       mapM (get flow_balance) (boundary_vs fn) = Ok balance_boundaries /\
       (forall v x, isin v (boundary_vs fn) = false ->
                    nth_error flow_balance v = Some x -> Rabs x < tol * Rabs q0) /\
       Rabs (sum_list balance_boundaries) < tol * Rabs q0) /\
  (forall b0 q0,
     nth_error (boundary_vs fn) 0 = Some b0 ->
     nth_error (flow_rate fn) b0 = Some q0 ->
     tol * Rabs q0 <= 0 ->
     forall r, check_flow_balance fn nr_of_es (Some t) tol <> Ok r).
Proof.
  assert (Hiff : forall r,
     check_flow_balance fn nr_of_es (Some t) tol = Ok r <->
     r = Some t /\
     exists flow_balance b0 q0 balance_boundaries,
       _get_flow_balance fn nr_of_es = Ok flow_balance /\
       nth_error (boundary_vs fn) 0 = Some b0 /\
       nth_error (flow_rate fn) b0 = Some q0 /\
       mapM (get flow_balance) (boundary_vs fn) = Ok balance_boundaries /\
       (forall v x, isin v (boundary_vs fn) = false ->
                    nth_error flow_balance v = Some x -> Rabs x < tol * Rabs q0) /\
       Rabs (sum_list balance_boundaries) < tol * Rabs q0).
  { intros r. unfold check_flow_balance. split.
    - intros H. open_bind H. open_bind H. open_bind H.
      destruct (existsb _ _) eqn:Eloc in H; [discriminate|].
      open_bind H.
      destruct (_ <? _) eqn:Eglob in H; [|discriminate].
      injection H as <-. split; [reflexivity|].
      exists a, a0, a1, a2.
      unfold get in Ha0, Ha1.
      destruct (nth_error (boundary_vs fn) 0) as [b|]; [|discriminate].
      injection Ha0 as ->.
      destruct (nth_error (flow_rate fn) a0) as [q|]; [|discriminate].
      injection Ha1 as ->.
      repeat split; try reflexivity; try assumption.
      + intros v x Hb Hv.
        apply (proj1 (all_locally_balanced _ _) Eloc).
        apply inside_entries_In. exists v. auto.
      + now apply Rlt_b_true.
    - intros (-> & fb & b0 & q0 & bal & Hfb & Hb0 & Hq0 & Hbal & Hloc & Hglob).
      rewrite Hfb. cbn [bind]. unfold get at 1. rewrite Hb0. cbn [bind].
      unfold get at 1. rewrite Hq0. cbn [bind].
      replace (existsb _ _) with false.
      + rewrite Hbal. cbn [bind].
        apply Rlt_b_true in Hglob. rewrite Hglob. reflexivity.
      + symmetry. apply all_locally_balanced. intros x Hx.
        apply inside_entries_In in Hx. destruct Hx as (v & Hv & Hb).
        apply (Hloc v x); assumption. }
  split; [exact Hiff|].
  intros b0 q0 Hb0 Hq0 Htol r H.
  apply Hiff in H.
  destruct H as (_ & fb & b0' & q0' & bal & _ & Hb0' & Hq0' & _ & _ & Hglob).
  rewrite Hb0 in Hb0'. injection Hb0' as <-.
  rewrite Hq0 in Hq0'. injection Hq0' as <-.
  pose proof (Rabs_pos (sum_list bal)). lra.
Qed.

Lemma inlet_flow_balance : _get_flow_balance inlet 1 = Ok [1; -1].
Proof.
  unfold _get_flow_balance, inlet.
  cbn [edge_list flow_rate nr_of_vs seq repeat flow_balance_loop get nth_error bind
       fst snd add_at sub_at set update length Nat.ltb Nat.leb].
  repeat f_equal; lra.
Qed.

Lemma later_check_flow_balance_witness :
  check_flow_balance inlet 1 (Some 0) 1e-5 = Ok (Some 0).
Proof.
  apply (proj1 (later_check_flow_balance inlet 1 0 1e-5)).
  split; [reflexivity|].
  exists [1; -1], 0%nat, 1, [1; -1].
  split; [exact inlet_flow_balance|].
  split; [reflexivity|]. split; [reflexivity|]. split; [reflexivity|].
  split.
  - intros [|[|[|v]]] x Hb Hv; first [discriminate Hb | discriminate Hv].
  - unfold sum_list. cbn [fold_right].
    replace (1 + (-1 + 0)) with 0 by lra. rewrite Rabs_R0, Rabs_R1. lra.
Defined.

Lemma first_check_flow_balance_witness :
  check_flow_balance diamond 5 None 1e-5 <> Raise SystemExit.
Proof.
  intros H.
  destruct (proj1 (proj2 (first_check_flow_balance diamond 5 1e-5)) _ H);
    discriminate.
Defined.


(** ** The in vitro models of the discharge haematocrit *)

(** Equation 10 gives the root of [ht = hd * (x + (1 - x) * hd)] that is not
    negative. *)
Lemma hd_of_ht_root (x ht : R) :
  x < 1 -> 0 <= ht ->
  exists hd, hd_of_ht x ht = Ok hd /\
             ht = hd * (x + (1 - x) * hd) /\ 0 <= hd /\
             (ht <= 1 -> ht <= hd <= 1).
Proof.
  intros Hx Hht. unfold hd_of_ht.
  rewrite !(fdiv_Ok _ (2 - 2 * x)) by lra. cbn [bind].
  rewrite fdiv_Ok by lra. cbn [bind].
  set (h := x / (2 - 2 * x)).
  set (q := ht / (1 - x)).
  assert (Hh : h * (2 - 2 * x) = x) by (unfold h; field; lra).
  assert (Hq : q * (1 - x) = ht) by (unfold q; field; lra).
  assert (Hq0 : 0 <= q).
  { unfold q. apply Rmult_le_pos; [exact Hht|].
    apply Rlt_le, Rinv_0_lt_compat. lra. }
  assert (Hr : 0 <= h * h + q) by nra.
  replace (0 <=? h * h + q) with true by (symmetry; now apply Rle_b_true).
  replace (- x / (2 - 2 * x)) with (- h) by (unfold h; field; lra).
  pose proof (sqrt_sqrt _ Hr) as Hs.
  pose proof (sqrt_pos (h * h + q)) as Hs0.
  set (s := sqrt (h * h + q)) in *.
  exists (- h + s). split; [reflexivity|].
  assert (Hhd : 0 <= - h + s) by nra.
  assert (Heq : ht = (- h + s) * (x + (1 - x) * (- h + s))).
  { assert (Hqt : q = (- h + s) * (- h + s) + 2 * h * (- h + s)) by (ring_simplify; lra).
    rewrite <- Hq.
    transitivity ((1 - x) * ((- h + s) * (- h + s)) + h * (2 - 2 * x) * (- h + s));
      [rewrite Hqt at 1; ring | rewrite Hh; ring]. }
  split; [exact Heq|]. split; [exact Hhd|].
  intros H1.
  assert (Hle : - h + s <= 1).
  { destruct (Rle_dec (- h + s) 1) as [Hle|Hgt]; [exact Hle|].
    exfalso. apply Rnot_le_lt in Hgt.
    set (t := - h + s) in *.
    assert (0 < (t - 1) * ((1 - x) * t + 1)).
    { apply Rmult_lt_0_compat; [lra|]. nra. }
    nra. }
  split; [|exact Hle].
  set (t := - h + s) in *.
  assert (x + (1 - x) * t <= 1) by nra.
  nra.
Qed.

(** X21.  One vessel of the models of Pries and co-workers, for a tube
    haematocrit between 0 and 1: the discharge haematocrit is defined, lies
    between the tube haematocrit and 1, equals the tube haematocrit where
    [x_tmp > 0.99], and elsewhere solves [ht = hd * (x + (1 - x) * hd)] (the
    relation of the papers, [ht / hd = x + (1 - x) * hd]).  The value put into
    [x_bound] where [x_tmp > 0.99] does not matter. *)
Theorem vessel_hd_range (x_tmp bound ht : R) :
  0 <= ht <= 1 ->
  exists hd,
    vessel_hd x_tmp bound ht = Ok hd /\
    ht <= hd <= 1 /\
    (x_tmp > 0.99 -> hd = ht) /\
    (x_tmp <= 0.99 -> ht = hd * (x_tmp + (1 - x_tmp) * hd)) /\
    forall bound', vessel_hd x_tmp bound' ht = Ok hd.
Proof.
  intros Hht. unfold vessel_hd.
  destruct (x_tmp >? 0.99) eqn:E.
  - apply Rlt_b_true in E. exists ht. split; [reflexivity|].
    split; [lra|]. split; [reflexivity|]. split; [lra|]. reflexivity.
  - apply Rlt_b_false in E.
    destruct (hd_of_ht_root x_tmp ht) as (hd & H & Heq & H0 & Hr); [lra|lra|].
    exists hd. split; [exact H|]. split; [apply Hr; lra|].
    split; [lra|]. split; [intros _; exact Heq|]. intros _. exact H.
Qed.

Lemma vessel_hd_range_witness :
  exists hd, vessel_hd 0.5 0.99 0.45 = Ok hd /\ 0.45 <= hd <= 1.
Proof.
  assert (H : 0 <= 0.45 <= 1) by lra.
  destruct (vessel_hd_range 0.5 0.99 0.45 H) as (hd & E & R & _).
  exists hd. split; [exact E | exact R].
Defined.

Lemma vessel_hd_between (x_tmp bound ht : R) :
  0 <= ht <= 1 -> exists hd, vessel_hd x_tmp bound ht = Ok hd /\ ht <= hd <= 1.
Proof.
  intros Hht. unfold vessel_hd.
  destruct (x_tmp >? 0.99) eqn:E.
  - exists ht. split; [reflexivity | lra].
  - apply Rlt_b_false in E.
    destruct (hd_of_ht_root x_tmp ht) as (hd & H & _ & _ & Hr); [lra|lra|].
    exists hd. split; [exact H | apply Hr; lra].
Qed.

Lemma zipM_range (f : R -> R -> result R) (hts ds : list R) :
  length hts = length ds ->
  Forall (fun h => forall d, exists y, f h d = Ok y /\ h <= y <= 1) hts ->
  exists hds, zipM f hts ds = Ok hds /\ Forall2 (fun h y => h <= y <= 1) hts hds.
Proof.
  revert ds. induction hts as [|h hts IH]; intros [|d ds] L F; try discriminate.
  - exists []. split; [reflexivity|constructor].
  - inversion F as [|? ? Hh Ht]; subst.
    destruct (Hh d) as (y & Ey & Hy).
    destruct (IH ds) as (hds & Eh & Hf); [now injection L | exact Ht|].
    exists (y :: hds). cbn [zipM]. rewrite Ey. cbn [bind]. rewrite Eh. cbn [bind].
    split; [reflexivity|]. constructor; assumption.
Qed.

Lemma elementwise_lengths (f : R -> R -> result R) (l1 l2 l : list R) :
  elementwise f l1 l2 = Ok l -> length l1 = length l2.
Proof.
  unfold elementwise. destruct (Nat.eqb (length l1) (length l2)) eqn:E.
  - intros _. now apply Nat.eqb_eq.
  - destruct (_ || _); discriminate.
Qed.

(** X22.  Both in vitro models, on a network with as many diameters as tube
    haematocrits, all between 0 and 1: [update_hd] returns one discharge
    haematocrit per vessel, each between the tube haematocrit of the vessel
    and 1.  With arrays of different lengths neither model returns. *)
Theorem Pries_update_hd_range (fn : FlowNetwork) :
  (length (ht fn) = length (diameter fn) ->
   Forall (fun h => 0 <= h <= 1) (ht fn) ->
   exists hd92 hd05,
     update_hd_Pries1992 fn = Ok hd92 /\
     update_hd_Pries2005 fn = Ok hd05 /\
     Forall2 (fun h y => h <= y <= 1) (ht fn) hd92 /\
     Forall2 (fun h y => h <= y <= 1) (ht fn) hd05) /\
  (length (ht fn) <> length (diameter fn) ->
   forall hd, update_hd_Pries1992 fn <> Ok hd /\ update_hd_Pries2005 fn <> Ok hd).
Proof.
  split.
  - intros L F. unfold update_hd_Pries1992, update_hd_Pries2005, elementwise.
    apply Nat.eqb_eq in L. rewrite L. apply Nat.eqb_eq in L.
    destruct (zipM_range
                (fun ht diameter => vessel_hd (x_tmp_1992 (1e6 * diameter)) 0.99 ht)
                (ht fn) (diameter fn) L) as (hd92 & E92 & F92).
    { rewrite Forall_forall in *. intros h Hh d.
      apply vessel_hd_between, F, Hh. }
    destruct (zipM_range
                (fun ht diameter => vessel_hd (x_tmp_2005 (1e6 * diameter)) 0 ht)
                (ht fn) (diameter fn) L) as (hd05 & E05 & F05).
    { rewrite Forall_forall in *. intros h Hh d.
      apply vessel_hd_between, F, Hh. }
    exists hd92, hd05. auto.
  - intros L hd. split; intros H; apply elementwise_lengths in H; contradiction.
Qed.

Lemma Pries_update_hd_range_witness :
  exists hd92 hd05,
    update_hd_Pries1992 (chain 1) = Ok hd92 /\ update_hd_Pries2005 (chain 1) = Ok hd05.
Proof.
  destruct (proj1 (Pries_update_hd_range (chain 1))) as (hd92 & hd05 & E92 & E05 & _).
  - reflexivity.
  - cbn [chain ht]. constructor; [lra|]. constructor; [lra|]. constructor.
  - exists hd92, hd05. split; [exact E92 | exact E05].
Defined.

Lemma exp_le (x y : R) : x <= y -> exp x <= exp y.
Proof.
  intros [H | H]; [left; now apply exp_increasing | right; now rewrite H].
Qed.

Lemma exp_above_line (x : R) : 1 + x <= exp x.
Proof.
  destruct (Req_dec_T x 0) as [->|H].
  - rewrite exp_0. lra.
  - left. now apply exp_ineq1.
Qed.

Lemma exp_double (x : R) : exp (2 * x) = exp x * exp x.
Proof. rewrite <- exp_plus. f_equal. lra. Qed.

Lemma exp_5_above_60 : 60 < exp 5.
Proof.
  pose proof (exp_above_line (5 / 16)) as H1.
  pose proof (exp_double (5 / 16)) as E2.
  pose proof (exp_double (2 * (5 / 16))) as E4.
  pose proof (exp_double (2 * (2 * (5 / 16)))) as E8.
  pose proof (exp_double (2 * (2 * (2 * (5 / 16))))) as E16.
  replace (2 * (2 * (2 * (2 * (5 / 16))))) with 5 in E16 by lra.
  set (e1 := exp (5 / 16)) in *.
  set (e2 := exp (2 * (5 / 16))) in *.
  set (e4 := exp (2 * (2 * (5 / 16)))) in *.
  set (e8 := exp (2 * (2 * (2 * (5 / 16))))) in *.
  assert (H2 : 1.72 < e2) by nra.
  assert (H4 : 2.95 < e4) by nra.
  assert (H8 : 8.7 < e8) by nra.
  nra.
Qed.

Lemma x_tmp_above_bound (D u v : R) :
  0 <= D <= 1.5 \/ 500 <= D ->
  - (0.415 * D) <= u -> v <= - (0.01 * D) ->
  1 + 1.7 * exp u - 0.6 * exp v > 0.99.
Proof.
  intros [HD|HD] Hu Hv.
  - pose proof (exp_above_line u) as H1.
    assert (H2 : exp v <= 1) by (rewrite <- exp_0; apply exp_le; lra).
    lra.
  - pose proof (exp_pos u) as H1.
    assert (H2 : exp v <= / exp 5)
      by (rewrite <- exp_Ropp; apply exp_le; lra).
    pose proof exp_5_above_60 as H5.
    assert (H6 : / exp 5 < / 60) by (apply Rinv_lt_contravar; lra).
    lra.
Qed.

(** X23.  "For very small and very large diameters: set ht=hd": for a vessel
    of diameter at most 1.5 micrometres, or at least 500 micrometres, both in
    vitro models give the discharge haematocrit the value of the tube
    haematocrit, whatever that value is. *)
Theorem Pries_small_and_large_vessels (diameter ht : R) :
  0 <= diameter <= 1.5e-6 \/ 500e-6 <= diameter ->
  vessel_hd (x_tmp_1992 (1e6 * diameter)) 0.99 ht = Ok ht /\
  vessel_hd (x_tmp_2005 (1e6 * diameter)) 0 ht = Ok ht.
Proof.
  intros Hd.
  assert (HD : 0 <= 1e6 * diameter <= 1.5 \/ 500 <= 1e6 * diameter)
    by (destruct Hd; [left | right]; lra).
  unfold vessel_hd, x_tmp_1992, x_tmp_2005. split.
  - replace (_ >? 0.99) with true; [reflexivity|].
    symmetry. apply Rlt_b_true.
    apply (x_tmp_above_bound (1e6 * diameter)); [exact HD | |]; lra.
  - replace (_ >? 0.99) with true; [reflexivity|].
    symmetry. apply Rlt_b_true.
    apply (x_tmp_above_bound (1e6 * diameter)); [exact HD | |]; lra.
Qed.

Lemma Pries_small_and_large_vessels_witness :
  vessel_hd (x_tmp_1992 (1e6 * 1e-6)) 0.99 0.45 = Ok 0.45 /\
  vessel_hd (x_tmp_2005 (1e6 * 1e-6)) 0 0.45 = Ok 0.45.
Proof.
  apply Pries_small_and_large_vessels. left. lra.
Defined.


(** ** The residual and the loop *)

Lemma sum_abs_nonneg_zero (l : list R) :
  0 <= sum_abs l /\ (sum_abs l = 0 <-> Forall (fun x => x = 0) l).
Proof.
  induction l as [|x l [IH0 IH]]; cbn [sum_abs fold_right].
  - split; [lra|]. split; [constructor | reflexivity].
  - fold (sum_abs l). pose proof (Rabs_pos x) as Hx. split; [lra|]. split.
    + intros H. constructor.
      * destruct (Req_dec_T x 0) as [E|E]; [exact E|].
        apply Rabs_pos_lt in E. lra.
      * apply IH. lra.
    + intros H. inversion H as [|? ? Hx0 Hl]; subst.
      rewrite Rabs_R0. apply IH in Hl. lra.
Qed.

(** X24.  With a positive inflow of red blood cells
    ([boundary_hematocrit * inflow > 0]) the residual of [berg_convergence]
    is never below the sum of the three change criteria, and equals it
    exactly when every entry of [local_balance_rbc] is 0. *)
Theorem berg_convergence_lower_bound (PARAMETERS_boundary_hematocrit : R)
  (f : berg_fields) :
  0 < PARAMETERS_boundary_hematocrit * inflow f ->
  exists residual,
    berg_convergence PARAMETERS_boundary_hematocrit f = Ok residual /\
    pressure_convergence_criteria_berg f + flow_convergence_criteria_berg f
    + hd_convergence_criteria_berg f <= residual /\
    (residual = pressure_convergence_criteria_berg f + flow_convergence_criteria_berg f
                + hd_convergence_criteria_berg f
     <-> Forall (fun x => x = 0) (local_balance_rbc f)).
Proof.
  intros Hpos. unfold berg_convergence.
  rewrite fdiv_Ok by lra. cbn [bind]. eexists. split; [reflexivity|].
  destruct (sum_abs_nonneg_zero (local_balance_rbc f)) as [H0 Hz].
  assert (Hinv : 0 < 1 / (PARAMETERS_boundary_hematocrit * inflow f)).
  { unfold Rdiv. rewrite Rmult_1_l. now apply Rinv_0_lt_compat. }
  set (c := 1 / (PARAMETERS_boundary_hematocrit * inflow f)) in *.
  set (s := sum_abs (local_balance_rbc f)) in *.
  split; [nra|].
  rewrite <- Hz. split; intros H; nra.
Qed.

Lemma berg_convergence_lower_bound_witness :
  exists residual,
    berg_convergence 0.45 (mk_berg_fields 2 [0.1; - 0.1] 0.01 0.02 0.03) = Ok residual /\
    0.01 + 0.02 + 0.03 <= residual.
Proof.
  assert (H : 0 < 0.45 * inflow (mk_berg_fields 2 [0.1; - 0.1] 0.01 0.02 0.03))
    by (cbn [inflow]; lra).
  destruct (berg_convergence_lower_bound 0.45 _ H) as (residual & E & Hle & _).
  exists residual. split; [exact E | exact Hle].
Defined.

Section LoopRecord.

Variable iterative_routine : nat -> result berg_fields.
Variable PARAMETERS_boundary_hematocrit : R.
Variable berg_criteria : R.

Let body := loop_body iterative_routine PARAMETERS_boundary_hematocrit berg_criteria.
Let loop := while_loop iterative_routine PARAMETERS_boundary_hematocrit berg_criteria.

(** Where a turn can fail. *)
Lemma loop_body_raises (st : loop_state) (e : exn) :
  body st = Raise e ->
  iterative_routine (iteration st) = Raise e \/
  exists f, iterative_routine (iteration st) = Ok f /\ (0 < iteration st)%nat /\
            berg_convergence PARAMETERS_boundary_hematocrit f = Raise e.
Proof.
  unfold body, loop_body.
  destruct (iterative_routine (iteration st)) as [f|e0]; cbn [bind];
    [|intros H; left; injection H as <-; reflexivity].
  destruct (Nat.eqb (S (iteration st)) 1) eqn:E1; cbn [bind].
  - apply Nat.eqb_eq in E1.
    destruct (Nat.ltb 2 (S (iteration st))) eqn:E2;
      [apply Nat.ltb_lt in E2; lia|].
    cbn [bind]. destruct (Nat.eqb (S (iteration st)) 2000); discriminate.
  - apply Nat.eqb_neq in E1.
    destruct (berg_convergence PARAMETERS_boundary_hematocrit f) as [r|e1] eqn:Eb;
      cbn [bind].
    + destruct (Nat.ltb 2 (S (iteration st))); cbn [bind].
      * destruct ((r <=? berg_criteria) && Nat.ltb 2000 (S (iteration st)));
          [discriminate|].
        destruct (Nat.eqb (S (iteration st)) 2000); discriminate.
      * destruct (Nat.eqb (S (iteration st)) 2000); discriminate.
    + intros H. injection H as <-. right. exists f.
      split; [reflexivity|]. split; [lia|exact Eb].
Qed.

(** What a turn appends to [bergIteration]. *)
Lemma loop_body_record (st st1 : loop_state) :
  body st = Ok st1 ->
  exists x, bergIteration st1 = bergIteration st ++ [x] /\
            (x = None <-> iteration st = 0%nat) /\
            ((0 < iteration st)%nat -> residual_berg st1 = x).
Proof.
  unfold body, loop_body. intros H.
  open_bind H. open_bind H. destruct a0 as [res berg]. open_bind H.
  assert (Hst1 : bergIteration st1 = berg /\ residual_berg st1 = res).
  { destruct a0; [|destruct (Nat.eqb (S (iteration st)) 2000)];
      injection H as <-; split; reflexivity. }
  destruct Hst1 as [-> ->].
  destruct (Nat.eqb (S (iteration st)) 1) eqn:E1.
  - apply Nat.eqb_eq in E1. injection Ha0 as <- <-. exists None.
    split; [reflexivity|]. split; [split; [lia | reflexivity] | lia].
  - apply Nat.eqb_neq in E1. open_bind Ha0. injection Ha0 as <- <-.
    exists (Some a1).
    split; [reflexivity|]. split; [split; [discriminate | lia] | reflexivity].
Qed.

Lemma while_loop_raises (fuel : nat) (st : loop_state) (e : exn) :
  loop fuel st = Some (Raise e) ->
  exists n, (iteration st <= n)%nat /\
    (iterative_routine n = Raise e \/
     exists f, iterative_routine n = Ok f /\ (0 < n)%nat /\
               berg_convergence PARAMETERS_boundary_hematocrit f = Raise e).
Proof.
  revert st. induction fuel as [|fuel IH]; intros st; unfold loop;
    cbn [while_loop]; destruct (convergence_check st); try discriminate.
  fold body. destruct (body st) as [st1|e1] eqn:E.
  - intros H. apply IH in H. destruct H as (n & Hn & H).
    apply loop_body_turn in E. exists n. split; [lia | exact H].
  - intros H. injection H as <-. exists (iteration st). split; [lia|].
    now apply loop_body_raises.
Qed.

Lemma while_loop_record (fuel : nat) (st st' : loop_state) :
  convergence_check st = false -> (iteration st < 2000)%nat ->
  loop fuel st = Some (Ok st') ->
  exists new,
    bergIteration st' = bergIteration st ++ new /\
    length new = (2000 - iteration st)%nat /\
    (forall k x, nth_error new k = Some x ->
       (x = None <-> (iteration st + k = 0)%nat)) /\
    nth_error new (length new - 1) = Some (residual_berg st').
Proof.
  revert st. induction fuel as [|fuel IH]; intros st Hc Hi; unfold loop;
    cbn [while_loop]; rewrite Hc; [discriminate|].
  fold body. destruct (body st) as [st1|e1] eqn:E; [|discriminate].
  destruct (loop_body_record _ _ E) as (x & Hx & Hnone & Hres).
  apply loop_body_turn in E. destruct E as [Ei Ec].
  destruct (Nat.eq_dec (S (iteration st)) 2000) as [Hend|Hgo].
  - assert (Hst1 : convergence_check st1 = true) by (apply Ec; right; lia).
    destruct fuel; cbn [while_loop]; rewrite Hst1; intros H; injection H as <-;
      (exists [x]; split; [exact Hx|]; split; [cbn [length]; lia|]; split;
       [intros [|[|k]] y Hy; cbn [nth_error] in Hy; try discriminate;
        injection Hy as <-; rewrite Nat.add_0_r; exact Hnone
       |cbn [length Nat.sub nth_error]; f_equal; symmetry; apply Hres; lia]).
  - assert (Hst1 : convergence_check st1 = false).
    { destruct (convergence_check st1); [|reflexivity].
      destruct (proj1 Ec eq_refl) as [(_ & _ & Hgt)|Heq]; lia. }
    intros H. destruct (IH st1 Hst1 ltac:(lia) H) as (new & Hnew & Hlen & Hent & Hlast).
    exists (x :: new). split; [rewrite Hnew, Hx, <- app_assoc; reflexivity|].
    split; [cbn [length]; lia|]. split.
    + intros [|k] y Hy; cbn [nth_error] in Hy.
      * injection Hy as <-. rewrite Nat.add_0_r. exact Hnone.
      * apply Hent in Hy. rewrite Hy. lia.
    + cbn [length]. replace (S (length new) - 1)%nat with (length new) by lia.
      destruct new as [|y new]; [cbn [length] in Hlen; lia|].
      cbn [length nth_error]. cbn [length] in Hlast.
      replace (S (length new) - 1)%nat with (length new) in Hlast by lia.
      exact Hlast.
Qed.

End LoopRecord.

(** X25.  [residual_berg] is bound whenever the loop reads it: a run of
    [_iterative_method] fails only where a call of [iterative_routine] fails,
    or where [berg_convergence] fails after a call at a counter above 0. *)
Theorem iterative_method_failures
  (iterative_routine : nat -> result berg_fields)
  (PARAMETERS_boundary_hematocrit berg_criteria : R) (fuel iteration0 : nat)
  (e : exn) :
  _iterative_method iterative_routine PARAMETERS_boundary_hematocrit berg_criteria
    fuel iteration0 = Some (Raise e) ->
  exists n, (iteration0 <= n)%nat /\
    (iterative_routine n = Raise e \/
     exists f, iterative_routine n = Ok f /\ (0 < n)%nat /\
               berg_convergence PARAMETERS_boundary_hematocrit f = Raise e).
Proof.
  unfold _iterative_method. intros H.
  apply while_loop_raises in H. exact H.
Qed.

Lemma iterative_method_failures_witness :
  exists n, (0 <= n)%nat /\
    ((fun _ : nat => Ok (mk_berg_fields 0 [] 0 0 0)) n = Raise ZeroDivisionError \/
     exists f, (fun _ : nat => Ok (mk_berg_fields 0 [] 0 0 0)) n = Ok f /\ (0 < n)%nat /\
               berg_convergence 0.45 f = Raise ZeroDivisionError).
Proof.
  apply (iterative_method_failures (fun _ => Ok (mk_berg_fields 0 [] 0 0 0))
           0.45 1e-6 2 0 ZeroDivisionError).
  unfold _iterative_method. cbn [while_loop convergence_check loop_body iteration bind
    Nat.eqb Nat.ltb Nat.leb residual_berg bergIteration].
  unfold berg_convergence. cbn [inflow].
  replace (0.45 * 0) with 0 by lra.
  unfold fdiv. replace (0 =? 0) with true by (symmetry; now apply Req_b_true).
  reflexivity.
Defined.

(** X26.  A run of [_iterative_method] entered with the counter below 2000
    that ends normally has made exactly [2000 - iteration0] turns: it has
    appended that many entries to [bergIteration], one per turn; the entry of
    the turn that brings the counter to 1 is [None] and every other entry is
    a residual, the last of them the final [residual_berg]. *)
Theorem iterative_method_record
  (iterative_routine : nat -> result berg_fields)
  (PARAMETERS_boundary_hematocrit berg_criteria : R) (fuel iteration0 : nat)
  (st : loop_state) :
  (iteration0 < 2000)%nat ->
  _iterative_method iterative_routine PARAMETERS_boundary_hematocrit berg_criteria
    fuel iteration0 = Some (Ok st) ->
  length (bergIteration st) = (2000 - iteration0)%nat /\
  (forall k x, nth_error (bergIteration st) k = Some x ->
     (x = None <-> (iteration0 + k = 0)%nat)) /\
  nth_error (bergIteration st) (length (bergIteration st) - 1)
  = Some (residual_berg st).
Proof.
  unfold _iterative_method. intros Hi H.
  apply while_loop_record in H; [|reflexivity | exact Hi].
  destruct H as (new & Hnew & Hlen & Hent & Hlast).
  cbn [bergIteration app iteration] in Hnew, Hlen, Hent.
  rewrite Hnew. auto.
Qed.

Lemma loop_from_1998 :
  _iterative_method (fun _ => Ok (mk_berg_fields 1 [] 0 0 0)) 1 1e-6 2 1998
  = Some (Ok (mk_loop_state 2000 true (Some (1 / (1 * 1) * 0 + (0 + 0 + 0)))
                [Some (1 / (1 * 1) * 0 + (0 + 0 + 0));
                 Some (1 / (1 * 1) * 0 + (0 + 0 + 0))])).
Proof.
  unfold _iterative_method.
  assert (E : berg_convergence 1 (mk_berg_fields 1 [] 0 0 0)
              = Ok (1 / (1 * 1) * 0 + (0 + 0 + 0))).
  { unfold berg_convergence. cbn [inflow]. rewrite fdiv_Ok by lra. reflexivity. }
  assert (Hle : (1 / (1 * 1) * 0 + (0 + 0 + 0) <=? 1e-6) = true)
    by (apply Rle_b_true; lra).
  cbn [while_loop convergence_check]. unfold loop_body at 1.
  cbn [iteration bind]. rewrite E. cbn [bind residual_berg bergIteration app].
  replace (Nat.eqb 1999 1) with false by reflexivity.
  cbn [bind]. replace (Nat.ltb 2 1999) with true by reflexivity.
  rewrite Hle. replace (Nat.ltb 2000 1999) with false by reflexivity.
  cbn [andb bind]. replace (Nat.eqb 1999 2000) with false by reflexivity.
  cbn [convergence_check]. unfold loop_body at 1.
  cbn [iteration bind]. rewrite E. cbn [bind residual_berg bergIteration app].
  replace (Nat.eqb 2000 1) with false by reflexivity.
  cbn [bind]. replace (Nat.ltb 2 2000) with true by reflexivity.
  rewrite Hle. replace (Nat.ltb 2000 2000) with false by reflexivity.
  cbn [andb bind]. replace (Nat.eqb 2000 2000) with true by reflexivity.
  reflexivity.
Qed.

Lemma iterative_method_record_witness :
  length [Some (1 / (1 * 1) * 0 + (0 + 0 + 0)); Some (1 / (1 * 1) * 0 + (0 + 0 + 0))]
  = (2000 - 1998)%nat.
Proof.
  assert (Hi : (1998 < 2000)%nat) by lia.
  exact (proj1 (iterative_method_record _ _ _ _ _ _ Hi loop_from_1998)).
Defined.
